(** * Journald log diagnostics of openshift-extras: a shallow embedding

    Source: [diagnostics/systemd/systemd.go] (package [systemd]), with the
    leveled sink of [diagnostics/log] and the unit snapshot of
    [diagnostics/types].

    Layout:
    - [regexp]  : the fragment of Go's [regexp] package the catalog uses
                  (RE2 syntax, leftmost-first search with submatches);
    - [log]     : levels and the keyed emitters;
    - [types]   : the unit snapshot;
    - the rule model, the catalog [unitLogSpecs], [unitRequiresUnit], the
      [UnitStatus] diagnostic and the scanner [matchLogsSinceLastStart];
    - [Mem]     : the scanner again over a store of slice backing arrays,
                  to talk about aliasing between the catalog and the
                  scanner's working copy;
    - the theorems. *)

From Stdlib Require Import Ascii String List.
From stdpp Require Import strings gmap list sorting.
Import ListNotations.

Abbreviation length := List.length.

Local Open Scope string_scope.

(** The double-quote character, for texts that contain it. *)
Definition dq : string := String (Ascii.Ascii false true false false false true false false) EmptyString.

(** The line feed, for texts built with [fmt.Sprintf]. *)
Definition nl : string := String (Ascii.Ascii false true false true false false false false) EmptyString.

(** ** Go's [regexp], as far as the catalog needs it *)
Module regexp.

(** Perl character classes [\d \D \s \S \w \W]. *)
Inductive perl := PDigit | PNotDigit | PSpace | PNotSpace | PWord | PNotWord.

(** Items of a bracket expression. *)
Inductive item :=
| IChar (c : ascii)
| IRange (lo hi : ascii)
| IPerl (p : perl).

(** The syntax tree.  Repetitions are the greedy ones. *)
Inductive re :=
| REmpty
| RLit (c : ascii)
| RAny
| RPerl (p : perl)
| RClass (neg : bool) (items : list item)
| RCat (r1 r2 : re)
| RAlt (r1 r2 : re)
| RStar (r : re)
| RPlus (r : re)
| RQuest (r : re)
| RGroup (i : nat) (r : re).

Definition code (c : ascii) : N := N_of_ascii c.

Definition between (lo hi c : ascii) : bool :=
  (code lo <=? code c)%N && (code c <=? code hi)%N.

Definition is_digit (c : ascii) : bool := between "0" "9" c.

(** [\s] is [\t\n\f\r ] in RE2. *)
Definition is_space (c : ascii) : bool :=
  (code c =? 9)%N || (code c =? 10)%N || (code c =? 12)%N
  || (code c =? 13)%N || (code c =? 32)%N.

Definition is_word (c : ascii) : bool :=
  is_digit c || between "a" "z" c || between "A" "Z" c || (code c =? 95)%N.

Definition perl_mem (p : perl) (c : ascii) : bool :=
  match p with
  | PDigit => is_digit c
  | PNotDigit => negb (is_digit c)
  | PSpace => is_space c
  | PNotSpace => negb (is_space c)
  | PWord => is_word c
  | PNotWord => negb (is_word c)
  end.

Definition item_mem (i : item) (c : ascii) : bool :=
  match i with
  | IChar c' => (code c' =? code c)%N
  | IRange lo hi => between lo hi c
  | IPerl p => perl_mem p c
  end.

Definition class_mem (neg : bool) (items : list item) (c : ascii) : bool :=
  xorb neg (existsb (fun i => item_mem i c) items).

(** *** Parsing a pattern *)

Definition is_punct (c : ascii) : bool :=
  negb (is_word c) && (code c <? 128)%N.

Definition perl_of (c : ascii) : option perl :=
  if (code c =? code "d")%N then Some PDigit
  else if (code c =? code "D")%N then Some PNotDigit
  else if (code c =? code "s")%N then Some PSpace
  else if (code c =? code "S")%N then Some PNotSpace
  else if (code c =? code "w")%N then Some PWord
  else if (code c =? code "W")%N then Some PNotWord
  else None.

Definition is_char (c d : ascii) : bool := (code c =? code d)%N.

Definition is_repeat (c : ascii) : bool :=
  is_char c "*" || is_char c "+" || is_char c "?".

(** The inside of a bracket expression, after the optional [^]:
    items up to the closing bracket, and the rest of the pattern.
    [first] says that no item has been read yet: a closing bracket in
    that place is a literal. *)
Fixpoint parseItems (first : bool) (s : list ascii) : option (list item * list ascii) :=
  match s with
  | [] => None
  | c :: t =>
      if is_char c "]" && negb first then Some ([], t)
      else if is_char c "\" then
        match t with
        | [] => None
        | e :: t' =>
            match perl_of e with
            | Some p =>
                match parseItems false t' with
                | Some (its, rest) => Some (IPerl p :: its, rest)
                | None => None
                end
            | None =>
                if is_punct e then
                  match parseItems false t' with
                  | Some (its, rest) => Some (IChar e :: its, rest)
                  | None => None
                  end
                else None
            end
        end
      else
        match t with
        | d :: hi :: t' =>
            if is_char d "-" && negb (is_char hi "]") then
              if is_char hi "\" then None
              else if (code hi <? code c)%N then None
              else
                match parseItems false t' with
                | Some (its, rest) => Some (IRange c hi :: its, rest)
                | None => None
                end
            else
              match parseItems false t with
              | Some (its, rest) => Some (IChar c :: its, rest)
              | None => None
              end
        | _ =>
            match parseItems false t with
            | Some (its, rest) => Some (IChar c :: its, rest)
            | None => None
            end
        end
  end.

Definition cat (a b : re) : re :=
  match b with
  | REmpty => a
  | _ => RCat a b
  end.

(** Recursive descent over the pattern; [g] counts the capturing groups
    opened so far.  [None] is a syntax error or a construct outside the
    fragment (anchors, counted and lazy repetitions, flags). *)
Fixpoint parseAlt (fuel : nat) (s : list ascii) (g : nat) {struct fuel}
  : option (re * list ascii * nat) :=
  match fuel with
  | 0 => None
  | S fuel =>
      match parseCat fuel s g with
      | Some (r1, rest, g1) =>
          match rest with
          | c :: rest' =>
              if is_char c "|" then
                match parseAlt fuel rest' g1 with
                | Some (r2, rest2, g2) => Some (RAlt r1 r2, rest2, g2)
                | None => None
                end
              else Some (r1, rest, g1)
          | [] => Some (r1, rest, g1)
          end
      | None => None
      end
  end
with parseCat (fuel : nat) (s : list ascii) (g : nat) {struct fuel}
  : option (re * list ascii * nat) :=
  match fuel with
  | 0 => None
  | S fuel =>
      match s with
      | [] => Some (REmpty, s, g)
      | c :: _ =>
          if is_char c "|" || is_char c ")" then Some (REmpty, s, g)
          else
            match parseRep fuel s g with
            | Some (a, rest, g1) =>
                match parseCat fuel rest g1 with
                | Some (b, rest2, g2) => Some (cat a b, rest2, g2)
                | None => None
                end
            | None => None
            end
      end
  end
with parseRep (fuel : nat) (s : list ascii) (g : nat) {struct fuel}
  : option (re * list ascii * nat) :=
  match fuel with
  | 0 => None
  | S fuel =>
      match parseAtom fuel s g with
      | Some (a, rest, g1) =>
          match rest with
          | op :: rest' =>
              if is_repeat op then
                match rest' with
                | op2 :: _ =>
                    if is_repeat op2 then None
                    else if is_char op "*" then Some (RStar a, rest', g1)
                    else if is_char op "+" then Some (RPlus a, rest', g1)
                    else Some (RQuest a, rest', g1)
                | [] =>
                    if is_char op "*" then Some (RStar a, rest', g1)
                    else if is_char op "+" then Some (RPlus a, rest', g1)
                    else Some (RQuest a, rest', g1)
                end
              else Some (a, rest, g1)
          | [] => Some (a, rest, g1)
          end
      | None => None
      end
  end
with parseAtom (fuel : nat) (s : list ascii) (g : nat) {struct fuel}
  : option (re * list ascii * nat) :=
  match fuel with
  | 0 => None
  | S fuel =>
      match s with
      | [] => None
      | c :: t =>
          if is_char c "(" then
            match t with
            | q :: _ =>
                if is_char q "?" then None
                else
                  match parseAlt fuel t (S g) with
                  | Some (r, close :: rest, g1) =>
                      if is_char close ")" then Some (RGroup (S g) r, rest, g1) else None
                  | _ => None
                  end
            | [] => None
            end
          else if is_char c "[" then
            match t with
            | n :: t' =>
                if is_char n "^" then
                  match parseItems true t' with
                  | Some (its, rest) => Some (RClass true its, rest, g)
                  | None => None
                  end
                else
                  match parseItems true t with
                  | Some (its, rest) => Some (RClass false its, rest, g)
                  | None => None
                  end
            | [] => None
            end
          else if is_char c "\" then
            match t with
            | e :: rest =>
                match perl_of e with
                | Some p => Some (RPerl p, rest, g)
                | None => if is_punct e then Some (RLit e, rest, g) else None
                end
            | [] => None
            end
          else if is_char c "." then Some (RAny, t, g)
          else if is_repeat c || is_char c "{" || is_char c "^" || is_char c "$" then None
          else Some (RLit c, t, g)
      end
  end.

(** A compiled pattern: its text, its tree, and the number of
    parenthesised subexpressions. *)
Record Regexp := mkRegexp { expr : string; prog : re; NumSubexp : nat }.

Definition Compile (e : string) : option Regexp :=
  let s := list_ascii_of_string e in
  match parseAlt (4 * length s + 8) s 0 with
  | Some (r, [], g) => Some (mkRegexp e r g)
  | _ => None
  end.

(** [regexp.MustCompile] panics on a pattern that does not compile; the
    panic would happen while the package's variables are initialised.
    Here such a pattern becomes one that matches nothing, and
    [unitLogSpecs_compile] below shows no catalog pattern is one. *)
Definition MustCompile (e : string) : Regexp :=
  match Compile e with
  | Some r => r
  | None => mkRegexp e (RClass false []) 0
  end.

(** *** Matching

    A step of the matcher takes one byte of the message, where Go's
    [regexp] takes one UTF-8 character: the two agree on messages in
    ASCII, and on the others wherever the pattern has no [.], class or
    negated Perl class to take the character. *)

(** Submatches found so far: group number and matched text. *)
Definition caps := list (nat * list ascii).

Definition cont (R : Type) := list ascii -> caps -> option R.

(** Greedy iteration of [body]; an iteration has to consume input. *)
Fixpoint star {R : Type} (body : list ascii -> caps -> cont R -> option R)
    (n : nat) (s : list ascii) (cs : caps) (k : cont R) : option R :=
  match n with
  | 0 => k s cs
  | S n' =>
      match body s cs (fun s' cs' =>
              if (length s' <? length s)%nat then star body n' s' cs' k else None) with
      | Some x => Some x
      | None => k s cs
      end
  end.

Definition one {R : Type} (p : ascii -> bool) (s : list ascii) (cs : caps) (k : cont R) : option R :=
  match s with
  | c :: s' => if p c then k s' cs else None
  | [] => None
  end.

(** Backtracking match of [r] at the head of [s], first alternative
    first, then continue with [k]. *)
Fixpoint matchHere {R : Type} (r : re) (s : list ascii) (cs : caps) (k : cont R) {struct r} : option R :=
  match r with
  | REmpty => k s cs
  | RLit c => one (is_char c) s cs k
  | RAny => one (fun c => negb (code c =? 10)%N) s cs k
  | RPerl p => one (perl_mem p) s cs k
  | RClass neg items => one (class_mem neg items) s cs k
  | RCat r1 r2 => matchHere r1 s cs (fun s' cs' => matchHere r2 s' cs' k)
  | RAlt r1 r2 =>
      match matchHere r1 s cs k with
      | Some x => Some x
      | None => matchHere r2 s cs k
      end
  | RQuest r1 =>
      match matchHere r1 s cs k with
      | Some x => Some x
      | None => k s cs
      end
  | RStar r1 => star (matchHere r1) (length s) s cs k
  | RPlus r1 =>
      matchHere r1 s cs (fun s' cs' => star (matchHere r1) (length s') s' cs' k)
  | RGroup i r1 =>
      matchHere r1 s cs (fun s' cs' => k s' ((i, take (length s - length s') s) :: cs'))
  end.

(** Leftmost match: the start, what follows the match, the submatches. *)
Fixpoint search (r : re) (s : list ascii) : option (list ascii * list ascii * caps) :=
  match matchHere r s [] (fun s' cs => Some (s', cs)) with
  | Some (s', cs) => Some (s, s', cs)
  | None =>
      match s with
      | [] => None
      | _ :: t => search r t
      end
  end.

Fixpoint capture (i : nat) (cs : caps) : list ascii :=
  match cs with
  | [] => []
  | (j, txt) :: cs' => if Nat.eqb i j then txt else capture i cs'
  end.

(** [re.FindStringSubmatch(s)]: [None] is Go's nil; element 0 is the
    match, element [i] the text of the i-th subexpression. *)
Definition FindStringSubmatch (r : Regexp) (s : string) : option (list string) :=
  match search (prog r) (list_ascii_of_string s) with
  | Some (from, rest, cs) =>
      Some (string_of_list_ascii (take (length from - length rest) from)
            :: map (fun i => string_of_list_ascii (capture i cs)) (seq 1 (NumSubexp r)))
  | None => None
  end.

(** [re.MatchString(s)]. *)
Definition MatchString (r : Regexp) (s : string) : bool :=
  match search (prog r) (list_ascii_of_string s) with
  | Some _ => true
  | None => false
  end.

End regexp.


(** ** Package [log]: levels and the sink *)
Module log.

(** [type Level struct { Level int; Prefix string }]; the field
    [Level] is [Rank] here, as a record and its field cannot share a
    name. *)
Record Level := mkLevel { Rank : Z; Prefix : string }.

Definition ErrorLevel : Level := mkLevel 0 "ERROR: ".
Definition WarnLevel : Level := mkLevel 1 "WARN: ".
Definition InfoLevel : Level := mkLevel 2 "Info: ".
Definition DebugLevel : Level := mkLevel 3 "debug: ".

#[global] Instance Level_eq_dec : EqDecision Level.
Proof. solve_decision. Defined.

(** [log.Msg], a [map[string]interface{}] whose values are strings in
    every call of [systemd.go]; kept in the order of the literal. *)
Definition Msg := list (string * string).

Fixpoint field (k : string) (m : Msg) : option string :=
  match m with
  | [] => None
  | (k', v) :: m' => if String.eqb k k' then Some v else field k m'
  end.

(** One call of the sink. *)
Record Entry := mkEntry { level : Level; id : string; msg : Msg }.

(** Modelled from the spec: the keyed emitters [Log], [Errorm], [Warnm],
    [Infom], [Debugm] and the two-argument [Error] that [systemd.go]
    calls are not in [src/diagnostics/log/log.go], which has the four
    levels only.  Following section 6 of the spec, an emitter hands
    [(level, id, fields)] to the sink, and the sink is the sequence of
    the calls made so far.  Rendering, and the filter on the current
    level, come after it. *)
Definition Log (l : Level) (i : string) (m : Msg) (sink : list Entry) : list Entry :=
  sink ++ [mkEntry l i m].

Definition Errorm := Log ErrorLevel.
Definition Warnm := Log WarnLevel.
Definition Infom := Log InfoLevel.
Definition Debugm := Log DebugLevel.
Definition Error (i text : string) := Log ErrorLevel i [("text", text)].

End log.

(** ** Package [types]: the snapshot of systemd units *)
Module types.

(** Modelled from the spec: [types.SystemdUnit] and the field
    [SystemdUnits] of [Environment] are not declared in
    [src/diagnostics/types/environment.go]; the fields are the ones
    [systemd.go] reads (section 3 of the spec, UnitRuntimeState). *)
Record SystemdUnit := mkUnit {
  Name : string;
  Exists : bool;
  Enabled : bool;
  Active : bool
}.

(** What indexing a Go map gives for a key that is not in it. *)
Definition zeroUnit : SystemdUnit := mkUnit "" false false false.

Record Environment := mkEnv {
  HasSystemd : bool;
  OpenshiftPath : string;
  SystemdUnits : gmap string SystemdUnit
}.

(** [env.SystemdUnits[name]] *)
Definition unitOf (u : gmap string SystemdUnit) (name : string) : SystemdUnit :=
  default zeroUnit (u !! name).

End types.

(** ** The rule model *)

(** [type logEntry struct { Message string }] *)
Record logEntry := mkLogEntry { Message : string }.

(** Everything a diagnostic can read and write: the environment behind
    [env *types.Environment], the package variable [tlsClientErrorSeen]
    ([None] is the nil map), and the calls of the sink. *)
Record World := mkWorld {
  env : types.Environment;
  tlsClientErrorSeen : option (gmap string bool);
  sink : list log.Entry
}.

Definition emit (f : list log.Entry -> list log.Entry) (w : World) : World :=
  mkWorld (env w) (tlsClientErrorSeen w) (f (sink w)).

Definition setSeen (seen : gmap string bool) (w : World) : World :=
  mkWorld (env w) (Some seen) (sink w).

(** [func(env *types.Environment, entry *logEntry, matches []string) bool]:
    the result is the world after the call and what was returned; [None]
    is a run-time panic.  The catalog and the scanner's locals are not in
    [World]: a closure of the catalog cannot name the scanner's locals,
    and none writes the catalog. *)
Definition handler := logEntry -> list string -> World -> World * option bool.

Record logMatcher := mkLogMatcher {
  Regexp : regexp.Regexp;
  Level : log.Level;
  Id : string;
  Interpretation : string;
  KeepAfterMatch : bool;
  Interpret : option handler
}.

Record unitSpec := mkUnitSpec {
  Name : string;
  StartMatch : regexp.Regexp;
  LogMatchers : list logMatcher
}.

(** A matcher written with the fields the catalog gives; the others take
    Go's zero values. *)
Definition simple (pattern : string) (l : log.Level) (i interp : string) : logMatcher :=
  mkLogMatcher (regexp.MustCompile pattern) l i interp false None.

(** ** The catalog *)

(** In the source some patterns are raw (backquoted) literals, where a
    backslash stands for itself, and some are interpreted (double-quoted)
    literals, where two backslashes give one.  A pattern below is the
    value of the Go literal, and the comment says which kind it was. *)

(** raw literal *)
Definition badImageTemplate : logMatcher :=
  simple "Unable to find an image for .* due to an error processing the format: %!v\\(MISSING\\)"
    log.InfoLevel ""
    ("
This error indicates openshift was given the flag --images including an invalid format variable.
Valid formats can include (literally) ${component} and ${version}.
This could be a typo or you might be intending to hardcode something,
such as a version which should be specified as e.g. v3.0, not ${v3.0}.
Note that the --images flag may be supplied via the OpenShift master,
node, or " ++ dq ++ "openshift ex registry/router" ++ dq ++ " invocations and should usually
be the same for each.").

Definition tlsFullText : string :=
  ("
This error indicates that a client attempted to connect to the master
HTTPS API server but broke off the connection because the master's
certificate is not validated by a cerificate authority (CA) acceptable
to the client. There are a number of ways this can occur, some more
problematic than others.

At this time, the OpenShift master certificate is signed by a private CA
(created the first time the master runs) and clients should have a copy of
that CA certificate in order to validate connections to the master. Most
likely, either:
1. the master has generated a new CA (after the administrator deleted
   the old one) and the client has a copy of the old CA cert, or
2. the client hasn't been configured with a private CA at all (or the
   wrong one), or
3. the client is attempting to reach the master at a URL that isn't
   covered by the master's server certificate, e.g. a public-facing
   name or IP that isn't known to the master automatically; this may
   need to be specified with the --public-master flag on the master
   in order to generate a new server certificate including it.

Clients of the master may include users, nodes, and infrastructure
components running as containers. Check the " ++ dq ++ "from" ++ dq ++ " IP address in the
log message:
* If it is from a SDN IP, it is likely from an infrastructure
  component. Check pod logs and recreate it with the correct CA cert.
  Routers and registries won't work properly with the wrong CA.
* If it is from a node IP, the client is likely a node. Check the
  openshift-node and openshift-sdn-node logs and reconfigure with the
  correct CA cert. Nodes will be unable to create pods until this is
  corrected.
* If it is from an external IP, it is likely from a user (CLI, browser,
  etc.). osc and openshift clients should be configured with the correct
  CA cert; browsers can also add CA certs but it is usually easier
  to just have them accept the server certificate on the first visit
  (so this message may simply indicate that the master generated a new
  server certificate, e.g. to add a different --public-master, and a
  browser hasn't accepted it yet and is still attempting API calls;
  try logging out of the console and back in again).").

Definition tlsAgainText : string :=
  "This message was diagnosed above, but for a different client address.".

(** The [Interpret] closure of the bad-certificate matcher. *)
Definition tlsBadCertificate : handler := fun entry matches w =>
  match matches !! 1%nat with
  | None => (w, None)
  | Some client =>
      let prelude :=
        "Found 'openshift-master' journald log message:" ++ nl ++ "  " ++ Message entry ++ nl in
      match tlsClientErrorSeen w with
      | None =>
          (emit (log.Warnm "sdLogOMreBadCert" [("client", client); ("text", prelude ++ tlsFullText)])
             (setSeen {[ client := true ]} w),
           Some true)
      | Some seen =>
          if negb (default false (seen !! client)) then
            (emit (log.Warnm "sdLogOMreBadCert" [("client", client); ("text", prelude ++ tlsAgainText)])
               (setSeen (<[ client := true ]> seen) w),
             Some true)
          else (w, Some true)
      end
  end.

(** The matcher of the bad-certificate message; the pattern was an
    interpreted literal, with [\\d] in the source. *)
Definition badCertificate : logMatcher :=
  mkLogMatcher
    (regexp.MustCompile "http: TLS handshake error from ([\d.]+):\d+: remote error: bad certificate")
    log.WarnLevel "" "" false (Some tlsBadCertificate).

Definition openshift_master : unitSpec :=
  mkUnitSpec "openshift-master"
    (regexp.MustCompile "Starting an OpenShift master")
    [ badImageTemplate;
      (* interpreted literal *)
      simple "Unable to decode an event from the watch stream: local error: unexpected message"
        log.InfoLevel "sdLogOMIgnore"
        "You can safely ignore this message.";
      (* interpreted literal *)
      simple "HTTP probe error: Get .*/healthz: dial tcp .*:10250: connection refused"
        log.InfoLevel "sdLogOMhzRef"
        "
The OpenShift master does a health check on nodes that are defined in
its records, and this is the result when the node is not available yet.
Since the master records are typically created before the node is
available, this is not usually a problem, unless it continues in the
logs after the node is actually available.";
      badCertificate;
      (* interpreted literal: [\\W] and [\\?] in the source *)
      simple "system:anonymous\W*system:unauthenticated\W*/api/v1beta1/services\?namespace="
        log.WarnLevel "sdLogOMunauthNode"
        "
This indicates the OpenShift API server (master) received an unscoped
request to get Services. Requests like this probably come from an
OpenShift node trying to discover where it should proxy services.

However, the request was unauthenticated, so it was denied. The node
either did not offer a client certificate for credential, or offered an
invalid one (not signed by the certificate authority the master uses).
The node will not be able to function without this access.

Unfortunately, this message does not tell us *which* node is the
problem. But running diagnostics on your node hosts should find a log
message for any node with this problem.
" ].

Definition openshift_sdn_master : unitSpec :=
  mkUnitSpec "openshift-sdn-master" (regexp.MustCompile "Starting OpenShift SDN Master") [].

Definition openshift_node : unitSpec :=
  mkUnitSpec "openshift-node"
    (regexp.MustCompile "Starting an OpenShift node")
    [ badImageTemplate;
      (* interpreted literal: [\\S] and [\\?] in the source *)
      simple "Unable to load services: Get (http\S+/api/v1beta1/services\?namespace=): (.+)"
        log.ErrorLevel "sdLogONconnMaster"
        "
openshift-node could not connect to the OpenShift master API in order
to determine its responsibilities. This host will not function as a node
until this is resolved. Pods scheduled for this node will remain in
pending or unknown state forever.";
      (* raw literal *)
      simple ("Unable to load services: request.*403 Forbidden: Forbidden: " ++ dq ++ "/api/v1beta1/services\?namespace=" ++ dq ++ " denied by default")
        log.ErrorLevel "sdLogONMasterForbids"
        "
openshift-node could not connect to the OpenShift master API to determine
its responsibilities because it lacks the proper credentials. Nodes
should specify a client certificate in order to identify themselves to
the master. This message typically means that either no client key/cert
was supplied, or it is not validated by the certificate authority (CA)
the master uses. You should supply a correct client key and certificate
to the .kubeconfig specified in /etc/sysconfig/openshift-node

This host will not function as a node until this is resolved. Pods
scheduled for this node will remain in pending or unknown state forever." ].

Definition openshift_sdn_node : unitSpec :=
  mkUnitSpec "openshift-sdn-node"
    (regexp.MustCompile "Starting OpenShift SDN node")
    [ (* interpreted literal *)
      simple "Could not find an allocated subnet for this minion.*Waiting.."
        log.WarnLevel "sdLogOSNnoSubnet"
        ("
This warning occurs when openshift-sdn-node is trying to request the
SDN subnet it should be configured with according to openshift-sdn-master,
but either can't connect to it (" ++ dq ++ "All the given peers are not reachable" ++ dq ++ ")
or has not yet been assigned a subnet (" ++ dq ++ "Key not found" ++ dq ++ ").

This can just be a matter of waiting for the master to become fully
available and define a record for the node (aka " ++ dq ++ "minion" ++ dq ++ ") to use,
and openshift-sdn-node will wait until that occurs, so the presence
of this message in the node log isn't necessarily a problem as
long as the SDN is actually working, but this message may help indicate
the problem if it is not working.

If the master is available and this node's record is defined and this
message persists, then it may be a sign of a different misconfiguration.
Unfortunately the message is not specific about why the connection failed.
Check MASTER_URL in /etc/sysconfig/openshift-sdn-node:
 * Is the protocol https? It should be http.
 * Can you reach the address and port from the node using curl?
   (" ++ dq ++ "404 page not found" ++ dq ++ " is correct response)") ].

(** The last matcher of docker, for any fatal message; the pattern was a
    raw literal, so the two backslashes before each [s] are both in the
    pattern. *)
Definition dockerFatal : logMatcher :=
  simple ("\\slevel=" ++ dq ++ "fatal" ++ dq ++ "\\s")
        log.ErrorLevel "sdLogDfatal"
        "
This is not a known problem, but it is causing Docker to crash,
so the OpenShift node will not work on this host until it is resolved.".

Definition docker : unitSpec :=
  mkUnitSpec "docker"
    (* raw literal *)
    (regexp.MustCompile "Starting Docker Application Container Engine.")
    [ (* raw literal *)
      simple "Usage: docker \\[OPTIONS\\] COMMAND"
        log.ErrorLevel "sdLogDbadOpt"
        "
This indicates that docker failed to parse its command line
successfully, so it just printed a standard usage message and exited.
Its command line is built from variables in /etc/sysconfig/docker
(which may be overridden by variables in /etc/sysconfig/openshift-sdn-node)
so check there for problems.

The OpenShift node will not work on this host until this is resolved.";
      dockerFatal ].

Definition openvswitch : unitSpec :=
  mkUnitSpec "openvswitch" (regexp.MustCompile "Starting Open vSwitch") [].

Definition unitLogSpecs : list unitSpec :=
  [ openshift_master; openshift_sdn_master; openshift_node;
    openshift_sdn_node; docker; openvswitch ].

(** [systemdRelevant]: whether the diagnostics are skipped, and why. *)
Definition systemdRelevant (e : types.Environment) : bool * string :=
  if negb (types.HasSystemd e) then (true, "systemd is not present on this host")
  else if String.eqb (types.OpenshiftPath e) "" then
    (true, "`openshift` binary is not in the path on this host; we assume host is not a server")
  else (false, "").

(** ** Unit dependencies *)

Definition reqLoadedTmpl : string :=
  "
systemd unit {{.unit}} depends on unit {{.required}}, which is not loaded.
{{.reason}}
An administrator probably needs to install the {{.required}} unit with:

  # yum install {{.required}}

If it is already installed, you may to reload the definition with:

  # systemctl reload {{.required}}
  ".

Definition reqActiveTmpl : string :=
  "
systemd unit {{.unit}} is running but {{.required}} is not.
{{.reason}}
An administrator can start the {{.required}} unit with:

  # systemctl start {{.required}}

To ensure it is not failing to run, check the status and logs with:

  # systemctl status {{.required}}
  # journalctl -ru {{.required}}
  ".

Definition reqEnabledTmpl : string :=
  "
systemd unit {{.unit}} is enabled to run automatically at boot, but {{.required}} is not.
{{.reason}}
An administrator can enable the {{.required}} unit with:

  # systemctl enable {{.required}}
  ".

Definition reqMsg (tmpl : string) (unit requires : types.SystemdUnit) (reason : string) : log.Msg :=
  [("tmpl", tmpl); ("unit", types.Name unit); ("required", types.Name requires); ("reason", reason)].

(** [func unitRequiresUnit(unit, requires types.SystemdUnit, reason string)] *)
Definition unitRequiresUnit (unit requires : types.SystemdUnit) (reason : string)
    (sink : list log.Entry) : list log.Entry :=
  if (types.Active unit || types.Enabled unit) && negb (types.Exists requires) then
    log.Errorm "sdUnitReqLoaded" (reqMsg reqLoadedTmpl unit requires reason) sink
  else if types.Active unit && negb (types.Active requires) then
    log.Errorm "sdUnitReqActive" (reqMsg reqActiveTmpl unit requires reason) sink
  else if types.Enabled unit && negb (types.Enabled requires) then
    log.Warnm "sdUnitReqEnabled" (reqMsg reqEnabledTmpl unit requires reason) sink
  else sink.

Definition sdnNeedsNodeText : string :=
  "
systemd unit openshift-sdn-node is running but openshift-node is not.
Normally openshift-sdn-node starts openshift-node once initialized.
It is likely that openshift-node has crashed or been stopped.

An administrator can start openshift-node with:

  # systemctl start openshift-node

To ensure it is not repeatedly failing to run, check the status and logs with:

  # systemctl status openshift-node
  # journalctl -ru openshift-node ".

Definition inactiveTmpl : string :=
  "
The {{.unit}} systemd unit is intended to start at boot but is not currently active.
An administrator can start the {{.unit}} unit with:

  # systemctl start {{.unit}}

To ensure it is not failing to run, check the status and logs with:

  # systemctl status {{.unit}}
  # journalctl -ru {{.unit}}".

(** The body of [for name, unit := range u]. *)
Definition noticeInactive (sink : list log.Entry) (kv : string * types.SystemdUnit) : list log.Entry :=
  if types.Enabled kv.2 && negb (types.Active kv.2) then
    log.Errorm "sdUnitInactive" [("tmpl", inactiveTmpl); ("unit", kv.1)] sink
  else sink.

(** [Diagnostics["UnitStatus"].Run].  Go leaves the order in which
    [range] visits a map open; [map_to_list] is one order, each key
    once. *)
Definition UnitStatus (w : World) : World :=
  let units := types.SystemdUnits (env w) in
  let u := types.unitOf units in
  let w := emit (unitRequiresUnit (u "openshift-node") (u "iptables")
    "
iptables is used by OpenShift nodes for container networking.
Connections to a container will fail without it.") w in
  let w := emit (unitRequiresUnit (u "openshift-node") (u "docker")
    "OpenShift nodes use Docker to run containers.") w in
  let w := emit (unitRequiresUnit (u "openshift-node") (u "openshift-sdn-node")
    "
The software-defined network (SDN) enables networking between
containers on different nodes. If it is not running, containers
on different nodes will not be able to connect to each other.") w in
  let w := emit (unitRequiresUnit (u "openshift-sdn-master") (u "openshift-master")
    "
The software-defined network (SDN) enables networking between containers
on different nodes, coordinated via openshift-sdn-master. It does not
make sense to run this service unless the host is operating as an
OpenShift master.") w in
  let w := emit (unitRequiresUnit (u "openshift-master") (u "openshift-sdn-master")
    "
The software-defined network (SDN) enables networking between
containers on different nodes. If it is not running, containers
on different nodes will not be able to connect to each other.
openshift-sdn-master is required to provision the SDN subnets.") w in
  let w := emit (unitRequiresUnit (u "openshift-sdn-node") (u "openvswitch")
    "
The software-defined network (SDN) enables networking between
containers on different nodes. Containers will not be able to
connect to each other without the openvswitch service carrying
this traffic.") w in
  let w := emit (unitRequiresUnit (u "openshift") (u "docker")
    "OpenShift nodes use Docker to run containers.") w in
  let w := emit (unitRequiresUnit (u "openshift") (u "iptables")
    "
iptables is used by OpenShift nodes for container networking.
Connections to a container will fail without it.") w in
  let w :=
    if types.Active (u "openshift-sdn-node") && negb (types.Active (u "openshift-node")) then
      emit (log.Error "sdUnitSDNreqSN" sdnNeedsNodeText) w
    else w in
  emit (fun sink => foldl noticeInactive sink (map_to_list units)) w.

(** ** The scanner *)

(** A Go [error] as far as [errStr] looks at it: its dynamic type and its
    text. *)
Record error := mkError { errType : string; errText : string }.

(** [fmt.Sprintf("(%T) %[1]v", err)] *)
Definition errStr (err : error) : string :=
  "(" ++ errType err ++ ") " ++ errText err.

(** One line of the output of [journalctl -ru unit --output=json], newest
    first, together with what [json.Unmarshal] makes of it: an error, or
    a record, of which only the key [MESSAGE] has a field to go to
    ([None], the key is absent or null: the field keeps its value). *)
Inductive journalLine :=
| Malformed (bytes : string) (err : error)
| Decoded (bytes : string) (MESSAGE : option string).

(** [lineReader.Bytes()] *)
Definition Bytes (l : journalLine) : string :=
  match l with
  | Malformed b _ => b
  | Decoded b _ => b
  end.

(** [json.Unmarshal(bytes, &entry)] *)
Definition Unmarshal (l : journalLine) (entry : logEntry) : error + logEntry :=
  match l with
  | Malformed _ err => inl err
  | Decoded _ (Some m) => inr (mkLogEntry m)
  | Decoded _ None => inr entry
  end.

(** [entryTemplate := logEntry{Message: `json:"MESSAGE"`}] *)
Definition entryTemplate : logEntry :=
  mkLogEntry ("json:" ++ dq ++ "MESSAGE" ++ dq).

Definition readErrTmpl : string :=
  "
Diagnostics failed to query journalctl for the '{{.unit}}' unit logs.
This should be very unusual, so please report this error:
{{.error}}".

Definition badJSONTmpl : string :=
  "Couldn't read the JSON for this log message:
{{.message}}
Got error {{.error}}".

(** What the loop did, in order.  [n] counts the lines delivered by
    [lineReader.Scan()] from 0; [tag] is the position the matcher has in
    [unit.LogMatchers]. *)
Inductive event :=
| Scanned (n : nat) (l : journalLine)
| Unparsed (n : nat)
| Boundary (n : nat)
| Tested (n : nat) (tag : nat)
| Fired (n : nat) (tag : nat) (keep : option bool)
| Retired (n : nat) (tag : nat).

(** Why the function returned. *)
Inductive stop :=
| PipeFailed
| EndOfStream
| NoMatchersLeft
| StartSeen
| HandlerPanic.

(** The variables of the loop.  [origin] is not in the source: it gives,
    for each element of [matchCopy], its position in [unit.LogMatchers],
    and it is cut wherever [matchCopy] is. *)
Record loop := mkLoop {
  matchCopy : list logMatcher;
  origin : list nat;
  world : World
}.

Inductive next :=
| Continue (st : loop)
| Break (reason : stop) (st : loop).

(** [for index, match := range matchCopy]: the first element whose
    pattern finds something in the message, with its index. *)
Fixpoint firstMatch (message : string) (ms : list logMatcher) (index : nat)
  : option (nat * logMatcher * list string) :=
  match ms with
  | [] => None
  | m :: ms' =>
      match regexp.FindStringSubmatch (Regexp m) message with
      | Some strings => Some (index, m, strings)
      | None => firstMatch message ms' (S index)
      end
  end.

(** What is done with a matcher that matched, up to the keep decision. *)
Definition fire (unit : unitSpec) (entry : logEntry) (m : logMatcher) (strings : list string)
    (w : World) : World * option bool :=
  match Interpret m with
  | Some f => f entry strings w
  | None =>
      let prelude :=
        "Found '" ++ Name unit ++ "' journald log message:" ++ nl ++ "  " ++ Message entry ++ nl in
      (emit (log.Log (Level m) (Id m)
               [("text", prelude ++ Interpretation m); ("unit", Name unit); ("logMsg", Message entry)]) w,
       Some (KeepAfterMatch m))
  end.

(** The body of [for lineReader.Scan()], for the [n]-th line. *)
Definition scanLine (unit : unitSpec) (n : nat) (l : journalLine) (st : loop)
  : list event * next :=
  if (length (matchCopy st) =? 0)%nat then
    ([Scanned n l], Break NoMatchersLeft st)
  else
    match Unmarshal l entryTemplate with
    | inl err =>
        ([Scanned n l; Unparsed n],
         Continue (mkLoop (matchCopy st) (origin st)
           (emit (log.Debugm "sdLogBadJSON"
                    [("message", Bytes l); ("error", errStr err); ("tmpl", badJSONTmpl)])
              (world st))))
    | inr entry =>
        if regexp.MatchString (StartMatch unit) (Message entry) then
          ([Scanned n l; Boundary n], Break StartSeen st)
        else
          match firstMatch (Message entry) (matchCopy st) 0 with
          | None => (Scanned n l :: map (Tested n) (origin st), Continue st)
          | Some (index, m, strings) =>
              let tag := nth index (origin st) 0%nat in
              let tested := map (Tested n) (take (S index) (origin st)) in
              match fire unit entry m strings (world st) with
              | (w', None) =>
                  (Scanned n l :: tested ++ [Fired n tag None],
                   Break HandlerPanic (mkLoop (matchCopy st) (origin st) w'))
              | (w', Some true) =>
                  (Scanned n l :: tested ++ [Fired n tag (Some true)],
                   Continue (mkLoop (matchCopy st) (origin st) w'))
              | (w', Some false) =>
                  (Scanned n l :: tested ++ [Fired n tag (Some false); Retired n tag],
                   Continue (mkLoop (take index (matchCopy st) ++ drop (S index) (matchCopy st))
                                    (take index (origin st) ++ drop (S index) (origin st))
                                    w'))
              end
          end
    end.

(** The outcome of a scan. *)
Record scan := mkScan {
  trace : list event;
  atEnd : loop;
  unread : list journalLine;
  why : stop
}.

Definition final (s : scan) : World := world (atEnd s).

(** [for lineReader.Scan() { ... }] over the lines still in the pipe. *)
Fixpoint scanLoop (unit : unitSpec) (n : nat) (lines : list journalLine) (st : loop) : scan :=
  match lines with
  | [] => mkScan [] st [] EndOfStream
  | l :: rest =>
      match scanLine unit n l st with
      | (evs, Break reason st') => mkScan evs st' rest reason
      | (evs, Continue st') =>
          let s := scanLoop unit (S n) rest st' in
          mkScan (evs ++ trace s) (atEnd s) (unread s) (why s)
      end
  end.

(** [func matchLogsSinceLastStart(unit *unitSpec, env *types.Environment)].
    [journal] is what starting [journalctl] on a pipe gave: an error, or
    the lines [lineReader.Scan()] delivers one after the other until it
    returns false. *)
Definition matchLogsSinceLastStart (unit : unitSpec) (journal : error + list journalLine)
    (w : World) : scan :=
  match journal with
  | inl err =>
      mkScan []
        (mkLoop [] []
           (emit (log.Errorm "sdLogReadErr"
                    [("tmpl", readErrTmpl); ("unit", Name unit); ("error", errStr err)]) w))
        [] PipeFailed
  | inr lines =>
      let matchCopy := ([] ++ LogMatchers unit)%list in
      scanLoop unit 0 lines (mkLoop matchCopy (seq 0 (length matchCopy)) w)
  end.

(** [Diagnostics["AnalyzeLogs"].Run]; [journalctl] gives the pipe of each
    unit.  A panic of a handler ends the run: the second component. *)
Fixpoint analyzeUnits (journalctl : string -> error + list journalLine)
    (units : list unitSpec) (w : World) : World * bool :=
  match units with
  | [] => (w, false)
  | unit :: units' =>
      let svc := types.unitOf (types.SystemdUnits (env w)) (Name unit) in
      if types.Enabled svc || types.Active svc then
        let w1 := emit (log.Infom "sdCheckLogs"
                    [("tmpl", "Checking journalctl logs for '{{.name}}' service"); ("name", Name unit)]) w in
        let s := matchLogsSinceLastStart unit (journalctl (Name unit)) w1 in
        match why s with
        | HandlerPanic => (final s, true)
        | _ => analyzeUnits journalctl units' (final s)
        end
      else analyzeUnits journalctl units' w
  end.

Definition AnalyzeLogs (journalctl : string -> error + list journalLine) (w : World) : World * bool :=
  analyzeUnits journalctl unitLogSpecs w.

Local Open Scope list_scope.

(** * The scanner over a store of arrays

    Go's slices share their arrays.  Here the matchers of a unit are a
    slice into a store of arrays, and the scanner makes its working copy
    and cuts it with [append] as the source does. *)
Module Mem.

(** The arrays of [logMatcher], by address. *)
Abbreviation store := (gmap nat (list logMatcher)).

(** A slice header: the array ([None], the nil slice has none), where the
    slice begins in it, its length and its capacity. *)
Record slice := mkSlice {
  array : option nat;
  offset : nat;
  len : nat;
  cap : nat
}.

(** [[]logMatcher(nil)] *)
Definition nilSlice : slice := mkSlice None 0 0 0.

(** The cells of the array of a slice. *)
Definition cells (h : store) (s : slice) : list logMatcher :=
  match array s with
  | Some p => default [] (h !! p)
  | None => []
  end.

(** The elements of a slice. *)
Definition elems (h : store) (s : slice) : list logMatcher :=
  take (len s) (drop (offset s) (cells h s)).

(** [s[:j]]; beyond the capacity Go panics, [None]. *)
Definition upTo (s : slice) (j : nat) : option slice :=
  if (j <=? cap s)%nat then Some (mkSlice (array s) (offset s) j (cap s)) else None.

(** [s[i:]]; beyond the length Go panics, [None]. *)
Definition from (s : slice) (i : nat) : option slice :=
  if (i <=? len s)%nat then Some (mkSlice (array s) (offset s + i) (len s - i) (cap s - i))
  else None.

(** [append(s, xs...)]: with room in the capacity the elements are
    written behind the slice, in its array; without, a new array is
    made.  [xs] is a value: Go moves overlapping elements as if they had
    been copied out first.  A new array is given the capacity it needs
    (Go may give it more, which nothing here can tell). *)
Definition append (h : store) (s : slice) (xs : list logMatcher) : store * slice :=
  match xs with
  | [] => (h, s)
  | _ :: _ =>
      if (len s + length xs <=? cap s)%nat then
        match array s with
        | Some p =>
            let a := cells h s in
            let at_ := offset s + len s in
            (<[ p := take at_ a ++ xs ++ drop (at_ + length xs) a ]> h,
             mkSlice (array s) (offset s) (len s + length xs) (cap s))
        | None => (h, s)
        end
      else
        let p := fresh (dom h) in
        (<[ p := elems h s ++ xs ]> h,
         mkSlice (Some p) 0 (len s + length xs) (len s + length xs))
  end.

(** A composite literal [[]logMatcher{...}]: an array of its own. *)
Definition literal (h : store) (xs : list logMatcher) : store * slice :=
  let p := fresh (dom h) in
  (<[ p := xs ]> h, mkSlice (Some p) 0 (length xs) (length xs)).

(** The unit with its matchers as a list, and its fields, under names
    that the record below leaves alone. *)
Abbreviation listed := unitSpec.
Abbreviation nameOf := Name.
Abbreviation startOf := StartMatch.
Abbreviation matchersOf := LogMatchers.
Abbreviation listing := mkUnitSpec.

(** [type unitSpec struct], with the slice that [LogMatchers] is. *)
Record unitSpec := mkUnit {
  Name : string;
  StartMatch : regexp.Regexp;
  LogMatchers : slice
}.

(** What a unit is with the store as it stands. *)
Definition view (h : store) (u : unitSpec) : listed :=
  listing (Name u) (StartMatch u) (elems h (LogMatchers u)).

(** The catalog in the store: every unit with an array of its own, and in
    it a copy of each matcher it lists. *)
Fixpoint load (units : list listed) (h : store) : store * list unitSpec :=
  match units with
  | [] => (h, [])
  | u :: units' =>
      let (h1, s) := literal h (matchersOf u) in
      let (h2, us) := load units' h1 in
      (h2, mkUnit (nameOf u) (startOf u) s :: us)
  end.

(** The variables of the loop, and the store. *)
Record loop := mkLoop {
  matchCopy : slice;
  heap : store;
  world : World
}.

Inductive next :=
| Continue (st : loop)
| Break (reason : stop) (st : loop).

(** [matchCopy = append(matchCopy[:index], matchCopy[index+1:]...)] *)
Definition cut (h : store) (s : slice) (index : nat) : option (store * slice) :=
  match upTo s index, from s (S index) with
  | Some front, Some back => Some (append h front (elems h back))
  | _, _ => None
  end.

(** The body of [for lineReader.Scan()]; [None] is the panic of a slice
    expression out of range. *)
Definition scanLine (unit : unitSpec) (l : journalLine) (st : loop) : option next :=
  if (len (matchCopy st) =? 0)%nat then Some (Break NoMatchersLeft st)
  else
    match Unmarshal l entryTemplate with
    | inl err =>
        Some (Continue (mkLoop (matchCopy st) (heap st)
          (emit (log.Debugm "sdLogBadJSON"
                   [("message", Bytes l); ("error", errStr err); ("tmpl", badJSONTmpl)])
             (world st))))
    | inr entry =>
        if regexp.MatchString (StartMatch unit) (Message entry) then Some (Break StartSeen st)
        else
          match firstMatch (Message entry) (elems (heap st) (matchCopy st)) 0 with
          | None => Some (Continue st)
          | Some (index, m, strings) =>
              match fire (view (heap st) unit) entry m strings (world st) with
              | (w', None) => Some (Break HandlerPanic (mkLoop (matchCopy st) (heap st) w'))
              | (w', Some true) => Some (Continue (mkLoop (matchCopy st) (heap st) w'))
              | (w', Some false) =>
                  match cut (heap st) (matchCopy st) index with
                  | Some (h', s') => Some (Continue (mkLoop s' h' w'))
                  | None => None
                  end
              end
          end
    end.

(** [for lineReader.Scan() { ... }]: the variables at the end, and why
    the loop ended. *)
Fixpoint scanLoop (unit : unitSpec) (lines : list journalLine) (st : loop)
  : option (loop * stop) :=
  match lines with
  | [] => Some (st, EndOfStream)
  | l :: rest =>
      match scanLine unit l st with
      | Some (Break reason st') => Some (st', reason)
      | Some (Continue st') => scanLoop unit rest st'
      | None => None
      end
  end.

(** [matchLogsSinceLastStart] for a stream that could be opened. *)
Definition matchLogsSinceLastStart (unit : unitSpec) (lines : list journalLine)
    (h : store) (w : World) : option (loop * stop) :=
  let (h1, matchCopy) := append h nilSlice (elems h (LogMatchers unit)) in
  scanLoop unit lines (mkLoop matchCopy h1 w).

End Mem.

(** * Vocabulary of the statements *)

(** Whether a text contains another. *)
Definition mentions (needle hay : string) : bool :=
  match String.index 0 needle hay with
  | Some _ => true
  | None => false
  end.

(** The three conditions of [unitRequiresUnit], as the source writes
    them. *)
Definition notLoaded (unit requires : types.SystemdUnit) : bool :=
  (types.Active unit || types.Enabled unit) && negb (types.Exists requires).

Definition notActive (unit requires : types.SystemdUnit) : bool :=
  types.Active unit && negb (types.Active requires).

Definition notEnabled (unit requires : types.SystemdUnit) : bool :=
  types.Enabled unit && negb (types.Enabled requires).

(** What a run added to the sink. *)
Definition emitted (w w' : World) : list log.Entry :=
  drop (length (sink w)) (sink w').

(** An entry of the sweep about the unit [name]. *)
Definition aboutInactive (name : string) (e : log.Entry) : bool :=
  String.eqb (log.id e) "sdUnitInactive"
  && match log.field "unit" (log.msg e) with
     | Some u => String.eqb u name
     | None => false
     end.

Definition inactiveEntry (name : string) : log.Entry :=
  log.mkEntry log.ErrorLevel "sdUnitInactive" [("tmpl", inactiveTmpl); ("unit", name)].

(** A step that appends nothing of the sweep. *)
Definition quiet (name : string) (f : list log.Entry -> list log.Entry) : Prop :=
  forall s, exists t, f s = s ++ t /\ List.filter (aboutInactive name) t = [].

(** A world that differs from [w] by entries that are not of the sweep. *)
Definition calm (name : string) (w w' : World) : Prop :=
  exists t, sink w' = sink w ++ t /\ List.filter (aboutInactive name) t = [].

(** A snapshot with one unit, enabled and not running. *)
Definition dockerDown : World :=
  mkWorld (types.mkEnv true "/usr/bin/openshift"
             {[ "docker" := types.mkUnit "docker" true true false ]})
          None [].

(** The line an event belongs to. *)
Definition lineOf (e : event) : nat :=
  match e with
  | Scanned n _ | Unparsed n | Boundary n | Tested n _ | Fired n _ _ | Retired n _ => n
  end.

Definition atLine (n : nat) (e : event) : bool := (lineOf e =? n)%nat.

Definition isFired (e : event) : bool :=
  match e with
  | Fired _ _ _ => true
  | _ => false
  end.

Definition testedTag (e : event) : option nat :=
  match e with
  | Tested _ tag => Some tag
  | _ => None
  end.

(** The matchers tried in a run of events, in the order they were
    tried. *)
Definition testedTags (evs : list event) : list nat := omap testedTag evs.

(** A line that decodes and whose message matches the start pattern of
    the unit. *)
Definition atBoundary (unit : unitSpec) (l : journalLine) : bool :=
  match Unmarshal l entryTemplate with
  | inr entry => regexp.MatchString (StartMatch unit) (Message entry)
  | inl _ => false
  end.

(** The variables of the loop once its body has run on [k] lines and is
    about to go round again; [None] if the loop does not get there. *)
Fixpoint after (unit : unitSpec) (n : nat) (lines : list journalLine) (st : loop) (k : nat)
  {struct k} : option loop :=
  match k with
  | 0 => Some st
  | S k' =>
      match lines with
      | [] => None
      | l :: rest =>
          match scanLine unit n l st with
          | (_, Continue st') => after unit (S n) rest st' k'
          | (_, Break _ _) => None
          end
      end
  end.

(** The loop variables with which [matchLogsSinceLastStart] enters the
    loop. *)
Definition entering (unit : unitSpec) (w : World) : loop :=
  mkLoop (LogMatchers unit) (seq 0 (length (LogMatchers unit))) w.

(** [origin] tells the truth: it is increasing and names, for each
    element of the working copy, the catalog entry it is a copy of. *)
Definition wellTagged (unit : unitSpec) (st : loop) : Prop :=
  StronglySorted lt (origin st)
  /\ Forall2 (fun tag m => LogMatchers unit !! tag = Some m) (origin st) (matchCopy st).

(** The shape of the events of a line on which a matcher matched. *)
Definition firedEvents (n : nat) (l : journalLine) (o : list nat) (index : nat)
    (keep : option bool) : list event :=
  Scanned n l :: map (Tested n) (take (S index) o)
    ++ Fired n (nth index o 0) keep
       :: match keep with
          | Some false => [Retired n (nth index o 0)]
          | _ => []
          end.

(** ** Journals for the scenarios *)

(** A JSON string: quotes and backslashes escaped.  Enough for messages
    of printable characters; a control character would need its own
    escape. *)
Fixpoint escape (s : string) : string :=
  match s with
  | EmptyString => EmptyString
  | String c s' =>
      if regexp.is_char c (Ascii.Ascii false true false false false true false false)
         || regexp.is_char c "\"
      then String "\" (String c (escape s'))
      else String c (escape s')
  end.

(** The line [journalctl] writes for a record with this message of
    printable characters, and how it decodes. *)
Definition record (message : string) : journalLine :=
  Decoded ("{" +:+ dq +:+ "MESSAGE" +:+ dq +:+ ":" +:+ dq +:+ escape message +:+ dq +:+ "}")
          (Some message).

(** A world in which nothing has been said yet. *)
Definition quietWorld : World :=
  mkWorld (types.mkEnv true "/usr/bin/openshift" ∅) None [].

(** What the master logs when a client rejects its certificate. *)
Definition tlsMessage (client : string) : string :=
  "http: TLS handshake error from " +:+ client +:+ ":51234: remote error: bad certificate".

Definition twoClients : list journalLine :=
  [record (tlsMessage "10.0.0.5"); record (tlsMessage "10.0.0.6")].

(** What the SDN node logs while it has no subnet. *)
Definition noSubnet : journalLine :=
  record "Could not find an allocated subnet for this minion (node1). Waiting..".

(** The loop variables after a line on which a matcher fired. *)
Definition afterFire (st : loop) (index : nat) (w' : World) (keep : option bool) : option loop :=
  match keep with
  | None => None
  | Some true => Some (mkLoop (matchCopy st) (origin st) w')
  | Some false =>
      Some (mkLoop (take index (matchCopy st) ++ drop (S index) (matchCopy st))
                   (take index (origin st) ++ drop (S index) (origin st)) w')
  end.

(** The journal of docker in scenario A of the spec, newest first. *)
Definition fatalLine (dots : string) : journalLine :=
  record ("level=" +:+ dq +:+ "fatal" +:+ dq +:+ " " +:+ dots).

Definition dockerStarting : journalLine :=
  record "Starting Docker Application Container Engine.".

Definition dockerJournal : list journalLine :=
  [fatalLine "..."; dockerStarting; fatalLine ".."].

(** A fatal message as docker writes it, with blanks around the level. *)
Definition dockerFatalMessage : string :=
  "time=" +:+ dq +:+ "2015-03-20T15:24:15-04:00" +:+ dq +:+ " level=" +:+ dq +:+ "fatal" +:+ dq
  +:+ " msg=" +:+ dq +:+ "Shutting down daemon due to errors" +:+ dq.

(** A message with the characters the pattern of [dockerFatal] spells
    out: a backslash and an s, not a blank, on either side. *)
Definition backslashMessage : string :=
  "time=now\slevel=" +:+ dq +:+ "fatal" +:+ dq +:+ "\smsg=none".

(** The pattern of [sdLogDfatal] with the backslashes single, as the
    interpreted literals of the catalog have theirs after Go has read
    them.  It is not in the source: the source has them doubled, in
    [dockerFatal]. *)
Definition fatalAsMeant : regexp.Regexp :=
  regexp.MustCompile ("\slevel=" +:+ dq +:+ "fatal" +:+ dq +:+ "\s").

(** Whether every pattern of a unit compiles. *)
Definition compiles (u : unitSpec) : bool :=
  forallb (fun e => bool_decide (is_Some (regexp.Compile e)))
    (regexp.expr (StartMatch u) :: map (fun m => regexp.expr (Regexp m)) (LogMatchers u)).

(** What [tlsBadCertificate] puts before its explanation. *)
Definition tlsPrelude (entry : logEntry) : string :=
  "Found 'openshift-master' journald log message:" +:+ nl +:+ "  " +:+ Message entry +:+ nl.

(** The entry [tlsBadCertificate] emits, with the long or the short
    text. *)
Definition tlsEntry (entry : logEntry) (client text : string) : log.Entry :=
  log.mkEntry log.WarnLevel "sdLogOMreBadCert"
    [("client", client); ("text", tlsPrelude entry +:+ text)].

(** The catalog, loaded into an empty store. *)
Definition loaded : Mem.store * list Mem.unitSpec := Mem.load unitLogSpecs ∅.

(** A line of the master that the image-template matcher matches: the
    pattern spells out the backslashes. *)
Definition badImageLine : journalLine :=
  record "Unable to find an image for pod due to an error processing the format: %!v\MISSING\".

(** The working copy of a scan sits in an array of its own, outside the
    addresses [D], from the start of the array, within its bounds. *)
Definition ownsCopy (D : gset nat) (st : Mem.loop) : Prop :=
  match Mem.array (Mem.matchCopy st) with
  | None => Mem.len (Mem.matchCopy st) = 0
  | Some p =>
      (p ∉ D) /\ Mem.offset (Mem.matchCopy st) = 0
      /\ exists a, Mem.heap st !! p = Some a
           /\ Mem.cap (Mem.matchCopy st) = length a
           /\ Mem.len (Mem.matchCopy st) <= length a
  end.

(** The loop over the store and the loop over lists have the same
    working copy and the same world. *)
Definition inStep (st : Mem.loop) (st' : loop) : Prop :=
  Mem.elems (Mem.heap st) (Mem.matchCopy st) = matchCopy st'
  /\ Mem.world st = world st'.

(** The arrays at the addresses [D] are as they were. *)
Definition keeps (D : gset nat) (h h' : Mem.store) : Prop :=
  forall p, p ∈ D -> h' !! p = h !! p.

(** The two loops did the same. *)
Definition sameNext (D : gset nat) (st : Mem.loop) (r : option Mem.next) (r' : next) : Prop :=
  match r, r' with
  | Some (Mem.Continue st1), Continue st1' =>
      ownsCopy D st1 /\ inStep st1 st1' /\ keeps D (Mem.heap st) (Mem.heap st1)
  | Some (Mem.Break reason st1), Break reason' st1' =>
      reason = reason' /\ inStep st1 st1' /\ keeps D (Mem.heap st) (Mem.heap st1)
  | _, _ => False
  end.

(** The master and the node of the loaded catalog. *)
Definition masterAt : Mem.unitSpec :=
  Mem.mkUnit "openshift-master" (StartMatch openshift_master) (Mem.mkSlice (Some 0) 0 5 5).

Definition nodeAt : Mem.unitSpec :=
  Mem.mkUnit "openshift-node" (StartMatch openshift_node) (Mem.mkSlice (Some 2) 0 3 3).

(** * Vocabulary of the further properties *)

(** The note on a line that does not decode. *)
Definition unparsedNote (l : journalLine) (err : error) : log.Entry :=
  log.mkEntry log.DebugLevel "sdLogBadJSON"
    [("message", Bytes l); ("error", errStr err); ("tmpl", badJSONTmpl)].

(** The finding of a matcher without a handler of its own. *)
Definition findingOf (unit : unitSpec) (entry : logEntry) (m : logMatcher) : log.Entry :=
  log.mkEntry (Level m) (Id m)
    [("text", ("Found '" +:+ Name unit +:+ "' journald log message:" +:+ nl +:+ "  "
               +:+ Message entry +:+ nl) +:+ Interpretation m);
     ("unit", Name unit); ("logMsg", Message entry)].

(** Where the loop goes after a match. *)
Definition nextAfterFire (st : loop) (index : nat) (w' : World) (keep : option bool) : next :=
  match afterFire st index w' keep with
  | Some st' => Continue st'
  | None => Break HandlerPanic (mkLoop (matchCopy st) (origin st) w')
  end.

(** The five ways the body of the loop can go on a line. *)
Inductive lineCase (unit : unitSpec) (n : nat) (l : journalLine) (st : loop)
  : list event * next -> Prop :=
| caseEmpty :
    matchCopy st = [] ->
    lineCase unit n l st ([Scanned n l], Break NoMatchersLeft st)
| caseUnparsed err :
    matchCopy st <> [] -> Unmarshal l entryTemplate = inl err ->
    lineCase unit n l st
      ([Scanned n l; Unparsed n],
       Continue (mkLoop (matchCopy st) (origin st)
                   (emit (fun sink => sink ++ [unparsedNote l err]) (world st))))
| caseBoundary entry :
    matchCopy st <> [] -> Unmarshal l entryTemplate = inr entry ->
    regexp.MatchString (StartMatch unit) (Message entry) = true ->
    lineCase unit n l st ([Scanned n l; Boundary n], Break StartSeen st)
| caseNoMatch entry :
    matchCopy st <> [] -> Unmarshal l entryTemplate = inr entry ->
    regexp.MatchString (StartMatch unit) (Message entry) = false ->
    firstMatch (Message entry) (matchCopy st) 0 = None ->
    lineCase unit n l st (Scanned n l :: map (Tested n) (origin st), Continue st)
| caseMatch entry index m strings w' keep :
    matchCopy st <> [] -> Unmarshal l entryTemplate = inr entry ->
    regexp.MatchString (StartMatch unit) (Message entry) = false ->
    firstMatch (Message entry) (matchCopy st) 0 = Some (index, m, strings) ->
    fire unit entry m strings (world st) = (w', keep) ->
    lineCase unit n l st
      (firedEvents n l (origin st) index keep, nextAfterFire st index w' keep).

(** What the reason a scan gives for its end says about the scan: the
    lines are numbered from [n]. *)
Definition endedFor (unit : unitSpec) (n : nat) (lines : list journalLine) (s : scan) : Prop :=
  match why s with
  | EndOfStream => unread s = []
  | StartSeen =>
      exists k l, lines !! k = Some l /\ atBoundary unit l = true
        /\ unread s = drop (S k) lines /\ last (trace s) = Some (Boundary (n + k))
  | NoMatchersLeft =>
      matchCopy (atEnd s) = []
      /\ exists k l, lines !! k = Some l
           /\ unread s = drop (S k) lines /\ last (trace s) = Some (Scanned (n + k) l)
  | HandlerPanic =>
      exists k l tag, lines !! k = Some l
        /\ unread s = drop (S k) lines /\ last (trace s) = Some (Fired (n + k) tag None)
  | PipeFailed => False
  end.

(** A firing of the matcher at position [tag] of the catalog. *)
Definition firesTag (tag : nat) (e : event) : bool :=
  match e with
  | Fired _ t _ => (t =? tag)%nat
  | _ => false
  end.

(** A matcher that is retired when it has fired: no handler, and
    [KeepAfterMatch] false. *)
Definition oneShot (m : logMatcher) : Prop :=
  Interpret m = None /\ KeepAfterMatch m = false.

(** A unit whose matchers have no handlers of their own. *)
Definition plainUnit (unit : unitSpec) : Prop :=
  Forall (fun m => Interpret m = None) (LogMatchers unit).

(** What an event of a scan of a plain unit put into the sink: a note for
    a line that did not decode, the finding of the matcher for a firing,
    and nothing otherwise. *)
Definition reportOf (unit : unitSpec) (lines : list journalLine) (e : event) : option log.Entry :=
  match e with
  | Unparsed n =>
      match lines !! n with
      | Some (Malformed bytes err) => Some (unparsedNote (Malformed bytes err) err)
      | _ => None
      end
  | Fired n tag _ =>
      match lines !! n, LogMatchers unit !! tag with
      | Some l, Some m =>
          match Unmarshal l entryTemplate with
          | inr entry => Some (findingOf unit entry m)
          | inl _ => None
          end
      | _, _ => None
      end
  | _ => None
  end.

(** A matcher as the catalog has them: without a handler, or with the
    bad-certificate handler behind a pattern with one subexpression. *)
Definition known (m : logMatcher) : Prop :=
  Interpret m = None
  \/ (Interpret m = Some tlsBadCertificate /\ regexp.NumSubexp (Regexp m) = 1).

Definition knownUnit (unit : unitSpec) : Prop := Forall known (LogMatchers unit).

(** The ids under which a scan of the unit writes to the sink. *)
Definition scanIds (unit : unitSpec) : list string :=
  "sdLogBadJSON" :: "sdLogOMreBadCert" :: map Id (LogMatchers unit).

(** The client an entry of the bad-certificate handler is about. *)
Definition tlsClient (e : log.Entry) : option string :=
  if String.eqb (log.id e) "sdLogOMreBadCert" then log.field "client" (log.msg e) else None.

Definition tlsClients (sink : list log.Entry) : list string := omap tlsClient sink.

(** No client has been diagnosed twice, and every client diagnosed is in
    the seen-set. *)
Definition tlsCoherent (w : World) : Prop :=
  NoDup (tlsClients (sink w))
  /\ forall c, c ∈ tlsClients (sink w) ->
       exists seen, tlsClientErrorSeen w = Some seen /\ seen !! c = Some true.

(** [w'] is [w] some calls of the sink later: the environment is the
    same, the sink has grown by entries with ids among [ids], and the
    seen-set has kept up with the sink. *)
Definition follows (ids : list string) (w w' : World) : Prop :=
  env w' = env w
  /\ (exists more, sink w' = sink w ++ more /\ Forall (fun e => log.id e ∈ ids) more)
  /\ (tlsCoherent w -> tlsCoherent w').

(** Whether [AnalyzeLogs] looks at the logs of a unit: the unit is enabled
    or active in the snapshot. *)
Definition wanted (e : types.Environment) (unit : unitSpec) : bool :=
  types.Enabled (types.unitOf (types.SystemdUnits e) (Name unit))
  || types.Active (types.unitOf (types.SystemdUnits e) (Name unit)).

(** The entry that says the logs of a unit are looked at. *)
Definition announcement (unit : unitSpec) : log.Entry :=
  log.mkEntry log.InfoLevel "sdCheckLogs"
    [("tmpl", "Checking journalctl logs for '{{.name}}' service"); ("name", Name unit)].

Definition isAnnouncement (e : log.Entry) : bool := String.eqb (log.id e) "sdCheckLogs".

(** The ids under which a run over the units writes to the sink. *)
Definition runIds (units : list unitSpec) : list string :=
  "sdCheckLogs" :: "sdLogReadErr" :: concat (map scanIds units).

(** A unit none of whose scans writes an announcement. *)
Definition silentScan (unit : unitSpec) : Prop :=
  Forall (fun i => String.eqb i "sdCheckLogs" = false) ("sdLogReadErr" :: scanIds unit).

(** A snapshot in which no unit is enabled or active. *)
Definition idle (units : gmap string types.SystemdUnit) : Prop :=
  map_Forall (fun _ unit => types.Enabled unit = false /\ types.Active unit = false) units.

(** A host with the packages installed and nothing switched on. *)
Definition installedOnly : World :=
  mkWorld (types.mkEnv true "/usr/bin/openshift"
             {[ "docker" := types.mkUnit "docker" true false false;
                "openshift-node" := types.mkUnit "openshift-node" true false false ]})
          None [].

(** What [UnitStatus] makes of a sink, given the environment. *)
Definition unitFindings (e : types.Environment) (s : list log.Entry) : list log.Entry :=
  sink (UnitStatus (mkWorld e None s)).

(** A step that only adds to the sink, and adds the same to any sink. *)
Definition appends (f : list log.Entry -> list log.Entry) : Prop :=
  forall s, f s = s ++ f [].

(** A step that adds at most [n] entries, each with [P]. *)
Definition adds (n : nat) (P : log.Entry -> Prop)
    (f : list log.Entry -> list log.Entry) : Prop :=
  forall s, exists t, f s = s ++ t /\ Forall P t /\ (length t <= n)%nat.

(** A finding of [unitRequiresUnit]. *)
Definition dependencyFinding (e : log.Entry) : Prop :=
  log.id e ∈ ["sdUnitReqLoaded"; "sdUnitReqActive"; "sdUnitReqEnabled"].

(** A finding of the sweep. *)
Definition inactiveFinding (e : log.Entry) : Prop :=
  log.id e = "sdUnitInactive" /\ log.level e = log.ErrorLevel.

Definition sdnNeedsNodeEntry : log.Entry :=
  log.mkEntry log.ErrorLevel "sdUnitSDNreqSN" [("text", sdnNeedsNodeText)].

(** * The printing logger of [src/diagnostics/log/log.go]

    The file declares the four levels of [log] above and prints to the
    standard output; [systemd.go] calls the keyed emitters instead.  The
    state is the package variable [current] and what [fmt.Println] was
    given so far, one string for each call. *)
Module console.

Record state := mkState { current : log.Level; stdout : list string }.

(** [var current Level = InfoLevel] *)
Definition initial : state := mkState log.InfoLevel [].

(** [func SetLevel(l Level)] *)
Definition SetLevel (l : log.Level) (st : state) : state :=
  mkState l (stdout st).

(** [func log(l Level, msg string)] *)
Definition log (l : log.Level) (msg : string) (st : state) : state :=
  if (log.Rank l <=? log.Rank (current st))%Z then
    mkState (current st) (stdout st ++ [log.Prefix l +:+ msg])
  else st.

Definition Error (msg : string) : state -> state := log log.ErrorLevel msg.
Definition Warn (msg : string) : state -> state := log log.WarnLevel msg.
Definition Info (msg : string) : state -> state := log log.InfoLevel msg.
Definition Debug (msg : string) : state -> state := log log.DebugLevel msg.

(** A call of the package from outside. *)
Inductive call :=
| callSetLevel (l : log.Level)
| callError (msg : string)
| callWarn (msg : string)
| callInfo (msg : string)
| callDebug (msg : string).

Definition do (c : call) : state -> state :=
  match c with
  | callSetLevel l => SetLevel l
  | callError msg => Error msg
  | callWarn msg => Warn msg
  | callInfo msg => Info msg
  | callDebug msg => Debug msg
  end.

(** The calls of a program, in order. *)
Definition run (calls : list call) (st : state) : state :=
  foldl (fun st c => do c st) st calls.

Definition isSetLevel (c : call) : bool :=
  match c with callSetLevel _ => true | _ => false end.

(** What a message call prints when it prints. *)
Definition lineOfCall (c : call) : option string :=
  match c with
  | callSetLevel _ => None
  | callError msg => Some ("ERROR: " +:+ msg)
  | callWarn msg => Some ("WARN: " +:+ msg)
  | callInfo msg => Some ("Info: " +:+ msg)
  | callDebug msg => Some ("debug: " +:+ msg)
  end.

End console.

(** A character every text matched by [r] contains. *)
Fixpoint needs (c : ascii) (r : regexp.re) : bool :=
  match r with
  | regexp.RLit d => regexp.is_char d c
  | regexp.RCat r1 r2 => needs c r1 || needs c r2
  | regexp.RAlt r1 r2 => needs c r1 && needs c r2
  | regexp.RPlus r1 => needs c r1
  | regexp.RGroup _ r1 => needs c r1
  | _ => false
  end.

(** The message the loop has in [entry.Message] for a line that decodes. *)
Definition messageOf (l : journalLine) : option string :=
  match Unmarshal l entryTemplate with
  | inr entry => Some (Message entry)
  | inl _ => None
  end.

Definition backslash : ascii := "\"%char.

(** The matchers whose pattern is a raw literal with doubled backslashes:
    [badImageTemplate] and the two of docker. *)
Definition doubledBackslash : list logMatcher := badImageTemplate :: LogMatchers docker.

(** Two states of the loop with the same working copy. *)
Definition sameCopy (st st' : loop) : Prop :=
  matchCopy st = matchCopy st' /\ origin st = origin st'.

(** Two steps of the loop that go the same way. *)
Definition sameWay (r r' : next) : Prop :=
  match r, r' with
  | Continue st, Continue st' => sameCopy st st'
  | Break reason st, Break reason' st' => reason = reason' /\ sameCopy st st'
  | _, _ => False
  end.

(** [Diagnostics["UnitStatus"].Run] up to the sweep: the calls of
    [unitRequiresUnit] and the case of openshift-sdn-node, as in
    [UnitStatus]. *)
Definition dependencyChecks (w : World) : World :=
  let units := types.SystemdUnits (env w) in
  let u := types.unitOf units in
  let w := emit (unitRequiresUnit (u "openshift-node") (u "iptables")
    "
iptables is used by OpenShift nodes for container networking.
Connections to a container will fail without it.") w in
  let w := emit (unitRequiresUnit (u "openshift-node") (u "docker")
    "OpenShift nodes use Docker to run containers.") w in
  let w := emit (unitRequiresUnit (u "openshift-node") (u "openshift-sdn-node")
    "
The software-defined network (SDN) enables networking between
containers on different nodes. If it is not running, containers
on different nodes will not be able to connect to each other.") w in
  let w := emit (unitRequiresUnit (u "openshift-sdn-master") (u "openshift-master")
    "
The software-defined network (SDN) enables networking between containers
on different nodes, coordinated via openshift-sdn-master. It does not
make sense to run this service unless the host is operating as an
OpenShift master.") w in
  let w := emit (unitRequiresUnit (u "openshift-master") (u "openshift-sdn-master")
    "
The software-defined network (SDN) enables networking between
containers on different nodes. If it is not running, containers
on different nodes will not be able to connect to each other.
openshift-sdn-master is required to provision the SDN subnets.") w in
  let w := emit (unitRequiresUnit (u "openshift-sdn-node") (u "openvswitch")
    "
The software-defined network (SDN) enables networking between
containers on different nodes. Containers will not be able to
connect to each other without the openvswitch service carrying
this traffic.") w in
  let w := emit (unitRequiresUnit (u "openshift") (u "docker")
    "OpenShift nodes use Docker to run containers.") w in
  let w := emit (unitRequiresUnit (u "openshift") (u "iptables")
    "
iptables is used by OpenShift nodes for container networking.
Connections to a container will fail without it.") w in
  if types.Active (u "openshift-sdn-node") && negb (types.Active (u "openshift-node")) then
    emit (log.Error "sdUnitSDNreqSN" sdnNeedsNodeText) w
  else w.

(** [Diagnostics["UnitStatus"].Run] when [range u] visits the snapshot in
    the order [visit]: Go leaves the order open, and it may differ from
    one run to the next. *)
Definition UnitStatusIn (visit : list (string * types.SystemdUnit)) (w : World) : World :=
  emit (fun sink => foldl noticeInactive sink visit) (dependencyChecks w).

(** What [dependencyChecks] makes of a sink, given the environment. *)
Definition checkFindings (e : types.Environment) (s : list log.Entry) : list log.Entry :=
  sink (dependencyChecks (mkWorld e None s)).

(** A host with two units that are enabled and not running. *)
Definition twoDown : World :=
  mkWorld (types.mkEnv true "/usr/bin/openshift"
             {[ "docker" := types.mkUnit "docker" true true false;
                "openvswitch" := types.mkUnit "openvswitch" true true false ]})
          None [].

(** * Properties *)

(** ** The sink only grows *)

Lemma sink_emit f w : sink (emit f w) = f (sink w).
Proof. reflexivity. Qed.

Lemma env_emit f w : env (emit f w) = env w.
Proof. reflexivity. Qed.

Lemma Log_app l i m (s : list log.Entry) : log.Log l i m s = s ++ log.Log l i m [].
Proof. reflexivity. Qed.

Lemma unitRequiresUnit_app unit requires reason (s : list log.Entry) :
  unitRequiresUnit unit requires reason s = s ++ unitRequiresUnit unit requires reason [].
Proof.
  unfold unitRequiresUnit.
  repeat match goal with |- context [if ?b then _ else _] => destruct b end;
    try reflexivity.
  symmetry. apply app_nil_r.
Qed.

Lemma noticeInactive_app (s : list log.Entry) kv :
  noticeInactive s kv = s ++ noticeInactive [] kv.
Proof.
  unfold noticeInactive. destruct (_ && _); [reflexivity | symmetry; apply app_nil_r].
Qed.

Lemma sweep_app (l : list (string * types.SystemdUnit)) (s : list log.Entry) :
  foldl noticeInactive s l = s ++ foldl noticeInactive [] l.
Proof.
  revert s. induction l as [|kv l IH]; intros s; simpl.
  - symmetry. apply app_nil_r.
  - rewrite IH, (IH (noticeInactive [] kv)), noticeInactive_app, app_assoc. reflexivity.
Qed.

(** ** Unit dependencies *)

(** C6.  [unitRequiresUnit] tries its three conditions in order and only
    the first that holds emits: a missing required unit gives one Error
    whose text tells to install it; otherwise a stopped one under a
    running dependent gives one Error telling to start it; otherwise a
    disabled one under an enabled dependent gives one Warn telling to
    enable it; otherwise nothing.  A dependent that is active and enabled
    with a required unit that does not exist gives exactly one entry, an
    Error and not a Warn, with the install remedy. *)
Theorem unitRequiresUnit_tiers (unit requires : types.SystemdUnit) (reason : string)
    (s : list log.Entry) :
  (notLoaded unit requires = true ->
     unitRequiresUnit unit requires reason s
     = s ++ [log.mkEntry log.ErrorLevel "sdUnitReqLoaded" (reqMsg reqLoadedTmpl unit requires reason)])
  /\ (notLoaded unit requires = false -> notActive unit requires = true ->
     unitRequiresUnit unit requires reason s
     = s ++ [log.mkEntry log.ErrorLevel "sdUnitReqActive" (reqMsg reqActiveTmpl unit requires reason)])
  /\ (notLoaded unit requires = false -> notActive unit requires = false ->
      notEnabled unit requires = true ->
     unitRequiresUnit unit requires reason s
     = s ++ [log.mkEntry log.WarnLevel "sdUnitReqEnabled" (reqMsg reqEnabledTmpl unit requires reason)])
  /\ (notLoaded unit requires = false -> notActive unit requires = false ->
      notEnabled unit requires = false ->
     unitRequiresUnit unit requires reason s = s)
  /\ (types.Active unit = true -> types.Enabled unit = true -> types.Exists requires = false ->
      exists e, unitRequiresUnit unit requires reason s = s ++ [e]
        /\ log.level e = log.ErrorLevel /\ log.level e <> log.WarnLevel
        /\ log.field "tmpl" (log.msg e) = Some reqLoadedTmpl)
  /\ mentions "yum install {{.required}}" reqLoadedTmpl = true
  /\ mentions "systemctl start {{.required}}" reqActiveTmpl = true
  /\ mentions "systemctl enable {{.required}}" reqEnabledTmpl = true.
Proof.
  unfold notLoaded, notActive, notEnabled, unitRequiresUnit.
  repeat split.
  - intros ->. reflexivity.
  - intros -> ->. reflexivity.
  - intros -> -> ->. reflexivity.
  - intros -> -> ->. reflexivity.
  - intros -> -> ->. simpl. eexists. split; [reflexivity|].
    split; [reflexivity|]. split; [discriminate | reflexivity].
Qed.

Lemma unitRequiresUnit_tiers_witness :
  let dependent := types.mkUnit "openshift-node" true true true in
  let required := types.mkUnit "docker" false false false in
  exists e, unitRequiresUnit dependent required "OpenShift nodes use Docker to run containers." []
            = [] ++ [e]
    /\ log.level e = log.ErrorLevel /\ log.level e <> log.WarnLevel
    /\ log.field "tmpl" (log.msg e) = Some reqLoadedTmpl.
Proof.
  intros dependent required.
  apply (unitRequiresUnit_tiers dependent required
           "OpenShift nodes use Docker to run containers." []); reflexivity.
Defined.

(** ** The sweep over the snapshot *)

Lemma quiet_requires name unit requires reason :
  quiet name (unitRequiresUnit unit requires reason).
Proof.
  intros s. exists (unitRequiresUnit unit requires reason []).
  split; [apply unitRequiresUnit_app|].
  unfold unitRequiresUnit.
  repeat match goal with |- context [if ?b then _ else _] => destruct b end;
    reflexivity.
Qed.

Lemma quiet_Error name i text :
  String.eqb i "sdUnitInactive" = false -> quiet name (log.Error i text).
Proof.
  intros Hi s. exists [log.mkEntry log.ErrorLevel i [("text", text)]].
  split; [reflexivity|].
  simpl. unfold aboutInactive. simpl. rewrite Hi. reflexivity.
Qed.

Lemma noticeInactive_other name kv :
  kv.1 <> name -> List.filter (aboutInactive name) (noticeInactive [] kv) = [].
Proof.
  intros Hne. unfold noticeInactive. destruct (_ && _); [|reflexivity].
  simpl. unfold aboutInactive. simpl.
  destruct (String.eqb_spec kv.1 name) as [E|_]; [contradiction | reflexivity].
Qed.

Lemma sweep_absent name (l : list (string * types.SystemdUnit)) :
  name ∉ l.*1 -> List.filter (aboutInactive name) (foldl noticeInactive [] l) = [].
Proof.
  induction l as [|kv l IH]; intros Hnot; [reflexivity|].
  rewrite fmap_cons, not_elem_of_cons in Hnot. destruct Hnot as [Hne Hnot].
  simpl. rewrite sweep_app, List.filter_app.
  rewrite noticeInactive_other, IH; [reflexivity|exact Hnot|].
  intros E. apply Hne. symmetry. exact E.
Qed.

Lemma sweep_present name unit (l : list (string * types.SystemdUnit)) :
  NoDup (l.*1) -> (name, unit) ∈ l ->
  types.Enabled unit = true -> types.Active unit = false ->
  List.filter (aboutInactive name) (foldl noticeInactive [] l) = [inactiveEntry name].
Proof.
  intros Hnd Hin Hen Hact.
  induction l as [|kv l IH]; [inversion Hin|].
  rewrite fmap_cons in Hnd. apply NoDup_cons in Hnd as [Hfresh Hnd].
  simpl. rewrite sweep_app, List.filter_app.
  apply elem_of_cons in Hin as [E|Hin].
  - subst kv. simpl in Hfresh.
    rewrite (sweep_absent name l Hfresh), app_nil_r.
    unfold noticeInactive. simpl. rewrite Hen, Hact. simpl.
    unfold aboutInactive. simpl. rewrite String.eqb_refl. reflexivity.
  - rewrite noticeInactive_other, (IH Hnd Hin); [reflexivity|].
    intros E. apply Hfresh. rewrite E.
    apply (list_elem_of_fmap_2 fst) in Hin. exact Hin.
Qed.

Lemma calm_refl name w : calm name w w.
Proof. exists []. split; [symmetry; apply app_nil_r | reflexivity]. Qed.

Lemma calm_emit name w w' f : calm name w w' -> quiet name f -> calm name w (emit f w').
Proof.
  intros (t & E & Ht) Hq.
  destruct (Hq (sink w')) as (t' & E' & Ht').
  exists (t ++ t'). rewrite sink_emit, E', E, <- app_assoc, List.filter_app, Ht, Ht'.
  split; reflexivity.
Qed.

Lemma calm_if name w (b : bool) w1 w2 :
  calm name w w1 -> calm name w w2 -> calm name w (if b then w1 else w2).
Proof. destruct b; intros; assumption. Qed.

(** C5, as the code has it.  For every unit of the snapshot that is
    enabled and not active, [UnitStatus] emits exactly one entry of the
    sweep about it, whatever the pairwise checks emit; the entry has the
    id [sdUnitInactive] and is emitted at the Error level. *)
Theorem UnitStatus_sweep (w : World) (name : string) (unit : types.SystemdUnit) :
  types.SystemdUnits (env w) !! name = Some unit ->
  types.Enabled unit = true -> types.Active unit = false ->
  List.filter (aboutInactive name) (emitted w (UnitStatus w)) = [inactiveEntry name]
  /\ log.level (inactiveEntry name) = log.ErrorLevel
  /\ mentions "is intended to start at boot but is not currently active" inactiveTmpl = true.
Proof.
  intros Hlook Hen Hact. split; [|split; reflexivity].
  unfold emitted, UnitStatus. cbv zeta. rewrite sink_emit, sweep_app.
  match goal with
  | |- context [sink ?W ++ _] => assert (Hcalm : calm name w W)
  end.
  { repeat first
      [ apply calm_refl
      | apply calm_emit; [|apply quiet_requires]
      | apply calm_if; [apply calm_emit; [|apply quiet_Error; reflexivity]|] ]. }
  destruct Hcalm as (t & -> & Ht).
  rewrite <- app_assoc, drop_app_length, List.filter_app, Ht. simpl.
  apply (sweep_present name unit); [| |exact Hen|exact Hact].
  - apply NoDup_fst_map_to_list.
  - apply elem_of_map_to_list. exact Hlook.
Qed.

Lemma UnitStatus_sweep_witness :
  List.filter (aboutInactive "docker") (emitted dockerDown (UnitStatus dockerDown))
  = [inactiveEntry "docker"].
Proof.
  apply (UnitStatus_sweep dockerDown "docker" (types.mkUnit "docker" true true false));
    vm_compute; reflexivity.
Defined.

(** C5, as the claim puts it, fails: with a snapshot whose only unit is
    enabled and not active, the run emits no Warn-level entry of the
    sweep about that unit, so not exactly one. *)
Lemma UnitStatus_sweep_not_Warn :
  types.SystemdUnits (env dockerDown) !! "docker" = Some (types.mkUnit "docker" true true false)
  /\ length (List.filter (fun e => aboutInactive "docker" e
                                   && bool_decide (log.level e = log.WarnLevel))
               (emitted dockerDown (UnitStatus dockerDown))) <> 1.
Proof. split; [vm_compute; reflexivity | vm_compute; discriminate]. Qed.

(** ** The loop, line by line *)

Ltac scan_cases :=
  unfold scanLine;
  repeat match goal with
  | |- context [if (length ?l =? 0)%nat then _ else _] => destruct (length l =? 0)%nat eqn:?
  | |- context [match Unmarshal ?l ?e with _ => _ end] => destruct (Unmarshal l e) eqn:?
  | |- context [if regexp.MatchString ?r ?s then _ else _] => destruct (regexp.MatchString r s) eqn:?
  | |- context [match firstMatch ?a ?b ?c with _ => _ end] =>
      destruct (firstMatch a b c) as [[[? ?] ?]|] eqn:?
  | |- context [match fire ?u ?e ?m ?s ?w with _ => _ end] =>
      destruct (fire u e m s w) as [? [[|]|]] eqn:?
  end.

Lemma scanLine_lineOf unit n l st :
  Forall (fun e => lineOf e = n) (scanLine unit n l st).1.
Proof.
  scan_cases; cbn [fst];
    repeat first
      [ apply Forall_nil_2
      | apply Forall_cons; split; [reflexivity|]
      | apply Forall_app; split
      | apply Forall_fmap, Forall_true; intros ?; reflexivity ].
Qed.

Lemma scanLoop_lineOf unit lines : forall n st,
  Forall (fun e => n <= lineOf e < n + length lines) (trace (scanLoop unit n lines st)).
Proof.
  induction lines as [|l rest IH]; intros n st; cbn [scanLoop].
  - constructor.
  - pose proof (scanLine_lineOf unit n l st) as Hl.
    destruct (scanLine unit n l st) as [evs [st'|r st']]; cbn [trace fst] in *.
    + apply Forall_app; split.
      * eapply Forall_impl; [exact Hl|]. cbn. intros; lia.
      * eapply Forall_impl; [apply IH|]. cbn. intros; lia.
    + eapply Forall_impl; [exact Hl|]. cbn. intros; lia.
Qed.

Lemma filter_all {A} (p : A -> bool) (l : list A) :
  Forall (fun x => p x = true) l -> List.filter p l = l.
Proof. induction 1 as [|x l Hx _ IH]; cbn; [reflexivity|]. rewrite Hx, IH. reflexivity. Qed.

Lemma filter_none {A} (p : A -> bool) (l : list A) :
  Forall (fun x => p x = false) l -> List.filter p l = [].
Proof. induction 1 as [|x l Hx _ IH]; cbn; [reflexivity|]. rewrite Hx, IH. reflexivity. Qed.

(** The events of line [n + k] are the ones the body produced on it. *)
Lemma trace_atLine unit lines : forall n st k,
  List.filter (atLine (n + k)) (trace (scanLoop unit n lines st))
  = match after unit n lines st k, lines !! k with
    | Some st', Some l => (scanLine unit (n + k) l st').1
    | _, _ => []
    end.
Proof.
  induction lines as [|l rest IH]; intros n st k; cbn [scanLoop].
  - cbn. destruct k; reflexivity.
  - pose proof (scanLine_lineOf unit n l st) as Hl.
    destruct k as [|k]; cbn [after lookup list_lookup].
    + rewrite Nat.add_0_r.
      destruct (scanLine unit n l st) as [evs [st'|r st']] eqn:E; cbn [trace fst] in *.
      * rewrite List.filter_app, filter_all, filter_none; [apply app_nil_r | |].
        -- eapply Forall_impl; [apply scanLoop_lineOf|]. cbn. unfold atLine.
           intros e He. apply Nat.eqb_neq. lia.
        -- eapply Forall_impl; [exact Hl|]. cbn. unfold atLine.
           intros e He. apply Nat.eqb_eq. exact He.
      * apply filter_all. eapply Forall_impl; [exact Hl|]. cbn. unfold atLine.
        intros e He. apply Nat.eqb_eq. exact He.
    + destruct (scanLine unit n l st) as [evs [st'|r st']] eqn:E; cbn [trace fst] in *.
      * rewrite List.filter_app, filter_none.
        -- cbn [app]. replace (n + S k) with (S n + k) by lia. apply IH.
        -- eapply Forall_impl; [exact Hl|]. cbn. unfold atLine.
           intros e He. apply Nat.eqb_neq. lia.
      * apply filter_none. eapply Forall_impl; [exact Hl|]. cbn. unfold atLine.
        intros e He. apply Nat.eqb_neq. lia.
Qed.

(** ** The tags follow the working copy *)

Lemma StronglySorted_seq a n : StronglySorted lt (seq a n).
Proof.
  revert a. induction n as [|n IH]; intros a; cbn; constructor; [apply IH|].
  apply Forall_forall. intros x Hx. apply elem_of_seq in Hx. lia.
Qed.

Lemma StronglySorted_cut {A} (R : relation A) (l : list A) i :
  StronglySorted R l -> StronglySorted R (take i l ++ drop (S i) l).
Proof.
  intros Hs. rewrite <- (take_drop i l) in Hs.
  apply StronglySorted_app in Hs as (Hcross & Hl & Hr).
  assert (Hd : drop (S i) l = drop 1 (drop i l))
    by (rewrite drop_drop; f_equal; lia).
  rewrite Hd.
  apply StronglySorted_app. split; [|split; [exact Hl|]].
  - intros x1 x2 H1 H2. apply Hcross; [exact H1|].
    eapply elem_of_sublist; [exact H2 | apply sublist_drop].
  - destruct (drop i l) as [|x t]; [constructor|].
    apply StronglySorted_cons in Hr as [_ Hr]. exact Hr.
Qed.

Lemma tags_of_seq {A} (pre l : list A) :
  Forall2 (fun tag m => (pre ++ l) !! tag = Some m) (seq (length pre) (length l)) l.
Proof.
  revert pre. induction l as [|m l IH]; intros pre; cbn; constructor.
  - rewrite lookup_app_r, Nat.sub_diag; [reflexivity | lia].
  - specialize (IH (pre ++ [m])). rewrite <- app_assoc, length_app in IH. cbn in IH.
    rewrite Nat.add_1_r in IH. exact IH.
Qed.

Lemma wellTagged_entering unit w : wellTagged unit (entering unit w).
Proof.
  split; cbn.
  - apply StronglySorted_seq.
  - apply (tags_of_seq [] (LogMatchers unit)).
Qed.

Lemma wellTagged_world unit mc o w w' :
  wellTagged unit (mkLoop mc o w) -> wellTagged unit (mkLoop mc o w').
Proof. intros H. exact H. Qed.

Lemma wellTagged_cut unit st index w' :
  wellTagged unit st ->
  wellTagged unit (mkLoop (take index (matchCopy st) ++ drop (S index) (matchCopy st))
                          (take index (origin st) ++ drop (S index) (origin st)) w').
Proof.
  intros [Hs Hf]. split; cbn.
  - apply StronglySorted_cut, Hs.
  - apply Forall2_app; [apply Forall2_take | apply Forall2_drop]; exact Hf.
Qed.

Lemma scanLine_wellTagged unit n l st evs st' :
  wellTagged unit st -> scanLine unit n l st = (evs, Continue st') -> wellTagged unit st'.
Proof.
  intros Hw. revert evs st'. scan_cases; intros evs st' E; inversion E; subst;
    first [exact Hw | apply wellTagged_cut, Hw].
Qed.

Lemma after_wellTagged unit lines : forall n st k st',
  wellTagged unit st -> after unit n lines st k = Some st' -> wellTagged unit st'.
Proof.
  induction lines as [|l rest IH]; intros n st [|k] st' Hw E; cbn in E;
    try discriminate; try (inversion E; subst; exact Hw).
  destruct (scanLine unit n l st) as [evs [st1|r st1]] eqn:E1; [|discriminate].
  eapply IH; [|exact E]. eapply scanLine_wellTagged; [exact Hw | exact E1].
Qed.

(** ** The inner loop *)

Lemma firstMatch_spec message ms : forall i0 index m strings,
  firstMatch message ms i0 = Some (index, m, strings) ->
  exists j, index = i0 + j /\ ms !! j = Some m
    /\ regexp.FindStringSubmatch (Regexp m) message = Some strings
    /\ forall j' m', j' < j -> ms !! j' = Some m' ->
         regexp.FindStringSubmatch (Regexp m') message = None.
Proof.
  induction ms as [|m0 ms IH]; intros i0 index m strings E; cbn in E; [discriminate|].
  destruct (regexp.FindStringSubmatch (Regexp m0) message) as [s0|] eqn:E0.
  - inversion E; subst. exists 0. rewrite Nat.add_0_r.
    repeat split; [exact E0|]. intros j' m' Hj. lia.
  - destruct (IH _ _ _ _ E) as (j & -> & Hj & Hm & Hbefore).
    exists (S j). repeat split; [lia | exact Hj | exact Hm |].
    intros [|j'] m' Hlt Hlook; cbn in Hlook.
    + inversion Hlook; subst. exact E0.
    + apply (Hbefore j'); [lia | exact Hlook].
Qed.

Lemma firstMatch_none message ms : forall i0,
  firstMatch message ms i0 = None ->
  Forall (fun m => regexp.FindStringSubmatch (Regexp m) message = None) ms.
Proof.
  induction ms as [|m0 ms IH]; intros i0 E; cbn in E; constructor;
    destruct (regexp.FindStringSubmatch (Regexp m0) message) eqn:E0;
    try discriminate; [reflexivity | eapply IH, E].
Qed.

(** ** What the body does on one line *)

Lemma testedTags_Tested n (tags : list nat) : testedTags (map (Tested n) tags) = tags.
Proof. induction tags as [|t tags IH]; cbn; [reflexivity|]. f_equal. exact IH. Qed.

Lemma fired_Tested n (tags : list nat) : List.filter isFired (map (Tested n) tags) = [].
Proof. induction tags as [|t tags IH]; cbn; [reflexivity | exact IH]. Qed.

(** The events of a line: nothing tried, everything tried in vain, or
    the first match. *)
Lemma scanLine_events unit n l st :
  (testedTags (scanLine unit n l st).1 = [] /\ List.filter isFired (scanLine unit n l st).1 = []
   /\ Forall (fun e => e = Scanned n l \/ e = Unparsed n \/ e = Boundary n) (scanLine unit n l st).1)
  \/ (exists entry,
        Unmarshal l entryTemplate = inr entry
        /\ regexp.MatchString (StartMatch unit) (Message entry) = false
        /\ firstMatch (Message entry) (matchCopy st) 0 = None
        /\ scanLine unit n l st = (Scanned n l :: map (Tested n) (origin st), Continue st))
  \/ (exists entry index m strings,
        Unmarshal l entryTemplate = inr entry
        /\ regexp.MatchString (StartMatch unit) (Message entry) = false
        /\ firstMatch (Message entry) (matchCopy st) 0 = Some (index, m, strings)
        /\ (scanLine unit n l st).1
           = firedEvents n l (origin st) index (fire unit entry m strings (world st)).2).
Proof.
  scan_cases; cbn [fst];
    first
      [ solve [left; repeat split; repeat constructor; auto]
      | solve [right; left; eexists; repeat split; eassumption]
      | right; right; eexists _, _, _, _; repeat split; try eassumption;
        match goal with H : fire _ _ _ _ _ = _ |- _ => rewrite H end;
        reflexivity ].
Qed.

Lemma elem_of_filter_bool {A} (p : A -> bool) (l : list A) x :
  x ∈ List.filter p l <-> x ∈ l /\ p x = true.
Proof. rewrite !list_elem_of_In. apply List.filter_In. Qed.




Lemma StronglySorted_lt_NoDup (l : list nat) : StronglySorted lt l -> NoDup l.
Proof.
  induction 1 as [|a l Hs IH Hall]; constructor; [|exact IH].
  intros Hin. rewrite Forall_forall in Hall. specialize (Hall _ Hin). lia.
Qed.

(** The loop of [matchLogsSinceLastStart] is [scanLoop] from
    [entering]. *)
Lemma matchLogs_scanLoop unit lines w :
  matchLogsSinceLastStart unit (inr lines) w = scanLoop unit 0 lines (entering unit w).
Proof. reflexivity. Qed.

(** The events of line [n] of a scan, by the state the loop was in. *)
Lemma scan_atLine unit lines w n :
  List.filter (atLine n) (trace (matchLogsSinceLastStart unit (inr lines) w))
  = match after unit 0 lines (entering unit w) n, lines !! n with
    | Some st, Some l => (scanLine unit n l st).1
    | _, _ => []
    end.
Proof. rewrite matchLogs_scanLoop. apply (trace_atLine unit lines 0). Qed.

Lemma scan_event unit lines w e :
  e ∈ trace (matchLogsSinceLastStart unit (inr lines) w) ->
  exists st l, after unit 0 lines (entering unit w) (lineOf e) = Some st
    /\ lines !! lineOf e = Some l
    /\ wellTagged unit st
    /\ e ∈ (scanLine unit (lineOf e) l st).1.
Proof.
  intros He.
  assert (H : e ∈ List.filter (atLine (lineOf e))
                    (trace (matchLogsSinceLastStart unit (inr lines) w))).
  { apply elem_of_filter_bool. split; [exact He | apply Nat.eqb_refl]. }
  rewrite scan_atLine in H.
  destruct (after unit 0 lines (entering unit w) (lineOf e)) as [st|] eqn:Ea;
    [|inversion H].
  destruct (lines !! lineOf e) as [l|] eqn:El; [|inversion H].
  exists st, l. split; [reflexivity|]. split; [reflexivity|]. split; [|exact H].
  eapply after_wellTagged; [apply wellTagged_entering | exact Ea].
Qed.

(** The reading of a line on which a matcher fired. *)
Lemma fired_line unit n l st tag keep :
  wellTagged unit st -> Fired n tag keep ∈ (scanLine unit n l st).1 ->
  exists entry index m strings,
    Unmarshal l entryTemplate = inr entry
    /\ regexp.MatchString (StartMatch unit) (Message entry) = false
    /\ firstMatch (Message entry) (matchCopy st) 0 = Some (index, m, strings)
    /\ (scanLine unit n l st).1 = firedEvents n l (origin st) index keep
    /\ keep = (fire unit entry m strings (world st)).2
    /\ origin st !! index = Some tag
    /\ matchCopy st !! index = Some m
    /\ LogMatchers unit !! tag = Some m.
Proof.
  intros [Hs Hf] Hin.
  destruct (scanLine_events unit n l st)
    as [(_ & _ & Hall) | [(entry & _ & _ & _ & E) | (entry & index & m & strings & Eu & Eb & Em & E)]].
  - rewrite Forall_forall in Hall. destruct (Hall _ Hin) as [H|[H|H]]; discriminate.
  - rewrite E in Hin. cbn in Hin. apply elem_of_cons in Hin as [H|Hin]; [discriminate|].
    apply list_elem_of_fmap in Hin as (t & H & _). discriminate.
  - destruct (firstMatch_spec _ _ _ _ _ _ Em) as (j & Hj & Hm & _). cbn in Hj. subst j.
    destruct (Forall2_lookup_r _ _ _ _ _ Hf Hm) as (tag0 & Ho & Hcat).
    assert (Hnth : nth index (origin st) 0 = tag0) by (apply nth_lookup_Some, Ho).
    rewrite E in Hin. unfold firedEvents in Hin. rewrite Hnth in Hin.
    apply elem_of_cons in Hin as [H|Hin]; [discriminate|].
    apply elem_of_app in Hin as [Hin|Hin].
    { apply list_elem_of_fmap in Hin as (t & H & _). discriminate. }
    apply elem_of_cons in Hin as [H|Hin].
    + inversion H; subst. exists entry, index, m, strings.
      repeat split; assumption.
    + destruct ((fire unit entry m strings (world st)).2) as [[|]|];
        try (inversion Hin; fail).
      apply elem_of_cons in Hin as [H|Hin]; [discriminate | inversion Hin].
Qed.

Lemma testedTags_firedEvents n l o index keep :
  testedTags (firedEvents n l o index keep) = take (S index) o.
Proof.
  unfold firedEvents, testedTags. cbn [omap list_omap testedTag].
  rewrite omap_app. fold (testedTags (map (Tested n) (take (S index) o))).
  rewrite testedTags_Tested. destruct keep as [[|]|]; cbn; apply app_nil_r.
Qed.

Lemma fired_firedEvents n l o index keep :
  List.filter isFired (firedEvents n l o index keep) = [Fired n (nth index o 0) keep].
Proof.
  unfold firedEvents. cbn [List.filter isFired].
  rewrite List.filter_app, fired_Tested. destruct keep as [[|]|]; reflexivity.
Qed.

(** ** One matcher per entry *)


(** ** The working copy only shrinks *)

(** One more turn of the loop. *)
Lemma after_S unit lines : forall n st k,
  after unit n lines st (S k)
  = match after unit n lines st k, lines !! k with
    | Some st', Some l =>
        match (scanLine unit (n + k) l st').2 with
        | Continue st'' => Some st''
        | Break _ _ => None
        end
    | _, _ => None
    end.
Proof.
  induction lines as [|l rest IH]; intros n st k.
  - destruct k; reflexivity.
  - destruct k as [|k].
    + cbn [after lookup list_lookup]. rewrite Nat.add_0_r.
      destruct (scanLine unit n l st) as [evs [st'|r st']]; reflexivity.
    + change (after unit n (l :: rest) st (S (S k)))
        with (match scanLine unit n l st with
              | (_, Continue st') => after unit (S n) rest st' (S k)
              | (_, Break _ _) => None
              end).
      change (after unit n (l :: rest) st (S k))
        with (match scanLine unit n l st with
              | (_, Continue st') => after unit (S n) rest st' k
              | (_, Break _ _) => None
              end).
      destruct (scanLine unit n l st) as [evs [st'|r st']]; [|reflexivity].
      rewrite IH. cbn [lookup list_lookup]. replace (S n + k) with (n + S k) by lia.
      reflexivity.
Qed.

(** What follows a match, by the keep decision. *)
Lemma scanLine_next unit n l st entry index m strings :
  Unmarshal l entryTemplate = inr entry ->
  regexp.MatchString (StartMatch unit) (Message entry) = false ->
  firstMatch (Message entry) (matchCopy st) 0 = Some (index, m, strings) ->
  (scanLine unit n l st).2
  = match fire unit entry m strings (world st) with
    | (w', None) => Break HandlerPanic (mkLoop (matchCopy st) (origin st) w')
    | (w', Some true) => Continue (mkLoop (matchCopy st) (origin st) w')
    | (w', Some false) =>
        Continue (mkLoop (take index (matchCopy st) ++ drop (S index) (matchCopy st))
                         (take index (origin st) ++ drop (S index) (origin st)) w')
    end.
Proof.
  intros Eu Eb Em. unfold scanLine.
  destruct (matchCopy st) as [|m0 mc] eqn:Emc; [discriminate|].
  cbn [length Nat.eqb]. rewrite Eu, Eb, Em.
  destruct (fire unit entry m strings (world st)) as [w' [[|]|]]; reflexivity.
Qed.

Lemma scanLine_shrinks unit n l st evs st' :
  scanLine unit n l st = (evs, Continue st') -> origin st' `sublist_of` origin st.
Proof.
  revert evs st'. scan_cases; intros evs st' E; inversion E; subst; cbn [origin];
    try reflexivity.
  rewrite <- delete_take_drop. apply sublist_delete.
Qed.

Lemma after_shrinks unit lines : forall n st k st',
  after unit n lines st k = Some st' -> origin st' `sublist_of` origin st.
Proof.
  induction lines as [|l rest IH]; intros n st [|k] st' E; cbn in E;
    try discriminate; try (inversion E; subst; reflexivity).
  destruct (scanLine unit n l st) as [evs [st1|r st1]] eqn:E1; [|discriminate].
  etransitivity; [eapply IH, E | eapply scanLine_shrinks, E1].
Qed.

(** Later states of a scan descend from the earlier ones. *)
Lemma after_later unit lines n st k d st2 :
  after unit n lines st (k + d) = Some st2 ->
  exists st1, after unit n lines st k = Some st1 /\ origin st2 `sublist_of` origin st1.
Proof.
  revert st2. induction d as [|d IH]; intros st2 E.
  - rewrite Nat.add_0_r in E. exists st2. split; [exact E | reflexivity].
  - replace (k + S d) with (S (k + d)) in E by lia. rewrite after_S in E.
    destruct (after unit n lines st (k + d)) as [st'|] eqn:Ea; [|discriminate].
    destruct (lines !! (k + d)) as [l|]; [|discriminate].
    destruct (scanLine unit (n + (k + d)) l st') as [evs [st''|r st'']] eqn:E1;
      cbn [snd] in E; [|discriminate].
    inversion E; subst.
    destruct (IH _ eq_refl) as (st1 & E1' & Hsub).
    exists st1. split; [exact E1'|].
    etransitivity; [eapply scanLine_shrinks, E1 | exact Hsub].
Qed.

(** Only members of the working copy are tried. *)
Lemma tested_in_origin unit n l st n' tag :
  Tested n' tag ∈ (scanLine unit n l st).1 -> tag ∈ origin st.
Proof.
  intros Hin.
  destruct (scanLine_events unit n l st)
    as [(_ & _ & Hall) | [(entry & _ & _ & _ & E) | (entry & index & m & strings & _ & _ & _ & E)]].
  - rewrite Forall_forall in Hall. destruct (Hall _ Hin) as [H|[H|H]]; discriminate.
  - rewrite E in Hin. cbn in Hin. apply elem_of_cons in Hin as [H|Hin]; [discriminate|].
    apply list_elem_of_fmap in Hin as (t & H & Ht). inversion H; subst. exact Ht.
  - assert (H : tag ∈ testedTags (scanLine unit n l st).1).
    { apply list_elem_of_omap. exists (Tested n' tag). split; [exact Hin | reflexivity]. }
    rewrite E, testedTags_firedEvents in H.
    eapply elem_of_sublist; [exact H | apply sublist_take].
Qed.

Lemma cut_misses {A} (l : list A) i x :
  NoDup l -> l !! i = Some x -> x ∉ take i l ++ drop (S i) l.
Proof.
  intros Hnd Hi Hin.
  rewrite <- (take_drop_middle l i x Hi) in Hnd.
  apply NoDup_app in Hnd as (_ & Hcross & Hr).
  apply NoDup_cons in Hr as [Hx _].
  apply elem_of_app in Hin as [Hin|Hin]; [|contradiction].
  apply (Hcross x Hin). left.
Qed.

(** An event of a line the loop worked on is in the trace. *)
Lemma scan_event_rev unit lines w n st l e :
  after unit 0 lines (entering unit w) n = Some st -> lines !! n = Some l ->
  e ∈ (scanLine unit n l st).1 ->
  e ∈ trace (matchLogsSinceLastStart unit (inr lines) w).
Proof.
  intros Ea El He.
  assert (H : e ∈ List.filter (atLine n) (trace (matchLogsSinceLastStart unit (inr lines) w)))
    by (rewrite scan_atLine, Ea, El; exact He).
  apply elem_of_filter_bool in H. tauto.
Qed.

(** Everything about a firing in a scan. *)
Lemma fired_step unit lines w n tag keep :
  Fired n tag keep ∈ trace (matchLogsSinceLastStart unit (inr lines) w) ->
  exists st l entry index m strings,
    after unit 0 lines (entering unit w) n = Some st
    /\ lines !! n = Some l
    /\ wellTagged unit st
    /\ Unmarshal l entryTemplate = inr entry
    /\ firstMatch (Message entry) (matchCopy st) 0 = Some (index, m, strings)
    /\ origin st !! index = Some tag
    /\ LogMatchers unit !! tag = Some m
    /\ keep = (fire unit entry m strings (world st)).2
    /\ (scanLine unit n l st).1 = firedEvents n l (origin st) index keep
    /\ after unit 0 lines (entering unit w) (S n)
       = afterFire st index (fire unit entry m strings (world st)).1 keep.
Proof.
  intros Hin.
  destruct (scan_event _ _ _ _ Hin) as (st & l & Ea & El & Hw & Hl). cbn [lineOf] in *.
  destruct (fired_line _ _ _ _ _ _ Hw Hl)
    as (entry & index & m & strings & Eu & Eb & Em & Eevs & Ek & Ho & Hm & Hcat).
  exists st, l, entry, index, m, strings.
  repeat match goal with |- _ /\ _ => split end; try assumption.
  rewrite after_S, Ea, El. cbn [Nat.add].
  rewrite (scanLine_next _ _ _ _ _ _ _ _ Eu Eb Em), Ek.
  destruct (fire unit entry m strings (world st)) as [w' [[|]|]]; reflexivity.
Qed.

(** ** Retired matchers *)

(** C3.  In a scan, a matcher that fired with the keep decision false is
    removed from the working copy and is not tried on any later entry; one
    that fired with the decision true stays where it is, and can fire
    again; the decision is what the custom handler returned when the
    matcher has one, whatever its [KeepAfterMatch], and [KeepAfterMatch]
    otherwise. *)
Theorem retired_is_not_tried_again :
  (forall unit lines w n tag,
     let s := matchLogsSinceLastStart unit (inr lines) w in
     Fired n tag (Some false) ∈ trace s ->
     Retired n tag ∈ trace s
     /\ (exists st, after unit 0 lines (entering unit w) (S n) = Some st /\ tag ∉ origin st)
     /\ forall n', n < n' ->
          (Tested n' tag ∉ trace s) /\ (forall keep, Fired n' tag keep ∉ trace s))
  /\ (forall unit lines w n tag,
     let s := matchLogsSinceLastStart unit (inr lines) w in
     Fired n tag (Some true) ∈ trace s ->
     (Retired n tag ∉ trace s)
     /\ exists st st',
          after unit 0 lines (entering unit w) n = Some st
          /\ after unit 0 lines (entering unit w) (S n) = Some st'
          /\ matchCopy st' = matchCopy st /\ origin st' = origin st /\ tag ∈ origin st')
  /\ (forall unit lines w n tag keep,
     let s := matchLogsSinceLastStart unit (inr lines) w in
     Fired n tag keep ∈ trace s ->
     exists st l entry m strings,
       after unit 0 lines (entering unit w) n = Some st
       /\ lines !! n = Some l /\ Unmarshal l entryTemplate = inr entry
       /\ LogMatchers unit !! tag = Some m
       /\ regexp.FindStringSubmatch (Regexp m) (Message entry) = Some strings
       /\ keep = match Interpret m with
                 | Some f => (f entry strings (world st)).2
                 | None => Some (KeepAfterMatch m)
                 end)
  /\ (let s := matchLogsSinceLastStart openshift_master (inr twoClients) quietWorld in
      Fired 0 3 (Some true) ∈ trace s /\ Fired 1 3 (Some true) ∈ trace s).
Proof.
  split; [|split; [|split]].
  - intros unit lines w n tag s Hin. subst s.
    destruct (fired_step _ _ _ _ _ _ Hin)
      as (st & l & entry & index & m & strings & Ea & El & Hw & Eu & Em & Ho & Hcat & Ek & Eevs & En).
    cbn [afterFire] in En.
    assert (Hout : tag ∉ take index (origin st) ++ drop (S index) (origin st)).
    { apply cut_misses; [|exact Ho]. apply StronglySorted_lt_NoDup, Hw. }
    split; [|split].
    + eapply scan_event_rev; [exact Ea | exact El|].
      rewrite Eevs. unfold firedEvents. rewrite (nth_lookup_Some _ _ _ _ Ho).
      apply elem_of_cons. right. apply elem_of_app. right. right. left.
    + eexists. split; [exact En | exact Hout].
    + intros n' Hlt.
      assert (Hgone : forall st', after unit 0 lines (entering unit w) n' = Some st' ->
                                  tag ∉ origin st').
      { intros st' Ea' Hin'. replace n' with (S n + (n' - S n)) in Ea' by lia.
        destruct (after_later _ _ _ _ _ _ _ Ea') as (st1 & E1 & Hsub).
        rewrite En in E1. inversion E1; subst st1. cbn [origin] in Hsub.
        apply Hout. eapply elem_of_sublist; [exact Hin' | exact Hsub]. }
      split.
      * intros Hin'.
        destruct (scan_event _ _ _ _ Hin') as (st' & l' & Ea' & _ & _ & Hl'). cbn [lineOf] in *.
        apply (Hgone st' Ea'). eapply tested_in_origin, Hl'.
      * intros keep Hin'.
        destruct (fired_step _ _ _ _ _ _ Hin')
          as (st' & _ & _ & index' & _ & _ & Ea' & _ & _ & _ & _ & Ho' & _).
        apply (Hgone st' Ea'). apply list_elem_of_lookup. eauto.
  - intros unit lines w n tag s Hin. subst s.
    destruct (fired_step _ _ _ _ _ _ Hin)
      as (st & l & entry & index & m & strings & Ea & El & Hw & Eu & Em & Ho & Hcat & Ek & Eevs & En).
    cbn [afterFire] in En. split.
    + intros Hr. destruct (scan_event _ _ _ _ Hr) as (st' & l' & Ea' & El' & _ & Hl').
      cbn [lineOf] in *. rewrite Ea in Ea'. rewrite El in El'.
      inversion Ea'; inversion El'; subst st' l'.
      rewrite Eevs in Hl'. unfold firedEvents in Hl'.
      apply elem_of_cons in Hl' as [H|Hl']; [discriminate|].
      apply elem_of_app in Hl' as [Hl'|Hl'].
      * apply list_elem_of_fmap in Hl' as (t & H & _). discriminate.
      * apply elem_of_cons in Hl' as [H|Hl']; [discriminate | inversion Hl'].
    + eexists st, _. split; [exact Ea|]. split; [exact En|]. cbn.
      repeat split. apply list_elem_of_lookup. eauto.
  - intros unit lines w n tag keep s Hin. subst s.
    destruct (fired_step _ _ _ _ _ _ Hin)
      as (st & l & entry & index & m & strings & Ea & El & Hw & Eu & Em & Ho & Hcat & Ek & Eevs & En).
    destruct (firstMatch_spec _ _ _ _ _ _ Em) as (j & _ & _ & Hfind & _).
    exists st, l, entry, m, strings.
    repeat match goal with |- _ /\ _ => split end; try assumption.
    rewrite Ek. unfold fire. destruct (Interpret m); reflexivity.
  - cbv zeta. split; apply list_elem_of_In; vm_compute; tauto.
Qed.

(** ** The start of the unit *)

(** On a boundary line the body leaves the loop, with nothing tried. *)
Lemma scanLine_boundary unit n l st :
  atBoundary unit l = true ->
  scanLine unit n l st = ([Scanned n l], Break NoMatchersLeft st)
  \/ scanLine unit n l st = ([Scanned n l; Boundary n], Break StartSeen st).
Proof.
  unfold atBoundary, scanLine. intros Hb.
  destruct (length (matchCopy st) =? 0)%nat; [left; reflexivity|].
  destruct (Unmarshal l entryTemplate) as [err|entry]; [discriminate|].
  rewrite Hb. right. reflexivity.
Qed.

Lemma scanLoop_boundary unit lines : forall b l n st,
  lines !! b = Some l -> atBoundary unit l = true ->
  let s := scanLoop unit n lines st in
  let s' := scanLoop unit n (take b lines) st in
  atEnd s = atEnd s'
  /\ (exists tail, trace s = trace s' ++ tail
        /\ Forall (fun e => e = Scanned (n + b) l \/ e = Boundary (n + b)) tail)
  /\ exists j, j <= S b /\ unread s = drop j lines.
Proof.
  induction lines as [|l0 rest IH]; intros b l n st Hl Hb; [discriminate|].
  destruct b as [|b]; cbn [take lookup list_lookup] in *.
  - inversion Hl; subst l0. rewrite Nat.add_0_r. cbn [scanLoop].
    destruct (scanLine_boundary unit n l st Hb) as [-> | ->]; cbn.
    + split; [reflexivity|]. split; [|exists 1; split; [lia | reflexivity]].
      eexists. split; [reflexivity|]. repeat constructor.
    + split; [reflexivity|]. split; [|exists 1; split; [lia | reflexivity]].
      eexists. split; [reflexivity|].
      apply Forall_cons; split; [left; reflexivity|].
      apply Forall_cons; split; [right; reflexivity | constructor].
  - cbn [scanLoop]. destruct (scanLine unit n l0 st) as [evs [st'|r st']]; cbn.
    + destruct (IH b l (S n) st' Hl Hb) as (He & (tail & Ht & Hall) & (j & Hj & Hu)).
      split; [exact He|]. split.
      * exists tail. rewrite Ht, app_assoc. split; [reflexivity|].
        replace (n + S b) with (S n + b) by lia. exact Hall.
      * exists (S j). split; [lia | exact Hu].
    + split; [reflexivity|]. split.
      * exists []. split; [symmetry; apply app_nil_r | constructor].
      * exists 1. split; [lia | reflexivity].
Qed.

(** C1.  With a line [b] of the stream that decodes and whose message
    matches the start pattern of the unit, the scan reads nothing beyond
    line [b], tries and fires no matcher on line [b] or later, leaves the
    lines after [b] in the pipe, and ends in the world that scanning the
    lines before [b] alone ends in. *)
Theorem scan_stops_at_start (unit : unitSpec) (lines : list journalLine) (w : World)
    (b : nat) (l : journalLine) :
  lines !! b = Some l -> atBoundary unit l = true ->
  let s := matchLogsSinceLastStart unit (inr lines) w in
  Forall (fun e => lineOf e <= b) (trace s)
  /\ (forall n tag, b <= n -> Tested n tag ∉ trace s)
  /\ (forall n tag keep, b <= n -> Fired n tag keep ∉ trace s)
  /\ (exists more, unread s = more ++ drop (S b) lines)
  /\ final s = final (matchLogsSinceLastStart unit (inr (take b lines)) w).
Proof.
  intros Hl Hb s. subst s. rewrite !matchLogs_scanLoop.
  destruct (scanLoop_boundary unit lines b l 0 (entering unit w) Hl Hb)
    as (He & (tail & Ht & Hall) & (j & Hj & Hu)).
  cbn [Nat.add] in Hall.
  pose proof (scanLoop_lineOf unit (take b lines) 0 (entering unit w)) as Hbefore.
  assert (Hlen : length (take b lines) <= b) by (rewrite length_take; lia).
  assert (Hkind : forall e, e ∈ trace (scanLoop unit 0 lines (entering unit w)) ->
            lineOf e < b \/ e = Scanned b l \/ e = Boundary b).
  { intros e Hin. rewrite Ht in Hin. apply elem_of_app in Hin as [Hin|Hin].
    - left. rewrite Forall_forall in Hbefore. specialize (Hbefore _ Hin). cbn in Hbefore. lia.
    - right. rewrite Forall_forall in Hall. apply Hall, Hin. }
  repeat match goal with |- _ /\ _ => split end.
  - apply Forall_forall. intros e Hin.
    destruct (Hkind e Hin) as [H|[->| ->]]; cbn; lia.
  - intros n tag Hn Hin. destruct (Hkind _ Hin) as [H|[H|H]];
      [cbn in H; lia | discriminate..].
  - intros n tag keep Hn Hin. destruct (Hkind _ Hin) as [H|[H|H]];
      [cbn in H; lia | discriminate..].
  - exists (take (S b - j) (drop j lines)). rewrite Hu.
    replace (drop (S b) lines) with (drop (S b - j) (drop j lines))
      by (rewrite drop_drop; f_equal; lia).
    symmetry. apply take_drop.
  - unfold final. rewrite He. reflexivity.
Qed.

Lemma scan_stops_at_start_witness :
  let s := matchLogsSinceLastStart docker (inr dockerJournal) quietWorld in
  Forall (fun e => lineOf e <= 1) (trace s)
  /\ (forall n tag, 1 <= n -> Tested n tag ∉ trace s)
  /\ (forall n tag keep, 1 <= n -> Fired n tag keep ∉ trace s)
  /\ (exists more, unread s = more ++ drop 2 dockerJournal)
  /\ final s = final (matchLogsSinceLastStart docker (inr (take 1 dockerJournal)) quietWorld).
Proof.
  apply (scan_stops_at_start docker dockerJournal quietWorld 1 dockerStarting);
    vm_compute; reflexivity.
Defined.

(** ** An empty working copy *)

Lemma scanLine_never_ends unit n l st evs st' :
  scanLine unit n l st <> (evs, Break EndOfStream st').
Proof. scan_cases; intros E; inversion E. Qed.

Lemma scan_eta (s : scan) : mkScan (trace s) (atEnd s) (unread s) (why s) = s.
Proof. destruct s; reflexivity. Qed.

(** A scan that ran out of lines goes on with the lines that follow. *)
Lemma scanLoop_app unit pre : forall n st post,
  why (scanLoop unit n pre st) = EndOfStream ->
  scanLoop unit n (pre ++ post) st
  = let s1 := scanLoop unit n pre st in
    let s2 := scanLoop unit (n + length pre) post (atEnd s1) in
    mkScan (trace s1 ++ trace s2) (atEnd s2) (unread s2) (why s2).
Proof.
  induction pre as [|l rest IH]; intros n st post Hw; cbn [scanLoop app length].
  - cbn. rewrite Nat.add_0_r. symmetry. apply scan_eta.
  - cbn [scanLoop] in Hw.
    destruct (scanLine unit n l st) as [evs [st'|r st']] eqn:E; cbn in Hw |- *.
    + rewrite (IH (S n) st' post Hw). cbn.
      replace (n + S (length rest)) with (S (n + length rest)) by lia.
      rewrite app_assoc. reflexivity.
    + subst r. exfalso. exact (scanLine_never_ends _ _ _ _ _ _ E).
Qed.

(** C4, as the code has it.  When the lines [pre] have been worked on and
    the working copy is empty, the scan of [pre] followed by [post] takes
    at most one more line out of the pipe, the first of [post]; it does
    not decode it, tries nothing on it and emits nothing, and returns with
    the rest of [post] unread. *)
Theorem empty_copy_ends_scan (unit : unitSpec) (pre post : list journalLine) (w : World) :
  let s1 := matchLogsSinceLastStart unit (inr pre) w in
  let s := matchLogsSinceLastStart unit (inr (pre ++ post)) w in
  why s1 = EndOfStream -> matchCopy (atEnd s1) = [] ->
  final s = final s1
  /\ trace s = trace s1 ++ match post with
                           | [] => []
                           | l :: _ => [Scanned (length pre) l]
                           end
  /\ unread s = tail post
  /\ why s = match post with
             | [] => EndOfStream
             | _ :: _ => NoMatchersLeft
             end.
Proof.
  intros s1 s Hw He. subst s s1. rewrite !matchLogs_scanLoop in *.
  rewrite (scanLoop_app unit pre 0 (entering unit w) post Hw). cbn zeta. cbn [Nat.add].
  destruct post as [|l post]; cbn [scanLoop].
  - cbn. rewrite app_nil_r. repeat split; assumption.
  - unfold scanLine. rewrite He. cbn. repeat split.
Qed.

Lemma empty_copy_ends_scan_witness :
  let s1 := matchLogsSinceLastStart openshift_sdn_node (inr [noSubnet]) quietWorld in
  let s := matchLogsSinceLastStart openshift_sdn_node
             (inr ([noSubnet] ++ [record "older"; record "oldest"])) quietWorld in
  final s = final s1
  /\ trace s = trace s1 ++ [Scanned 1 (record "older")]
  /\ unread s = [record "oldest"]
  /\ why s = NoMatchersLeft.
Proof.
  apply (empty_copy_ends_scan openshift_sdn_node [noSubnet]
           [record "older"; record "oldest"] quietWorld); vm_compute; reflexivity.
Defined.

(** C4, as the claim puts it, fails: the only matcher of
    [openshift-sdn-node] goes on the first line, the working copy is empty,
    and still the next line is taken out of the pipe. *)
Lemma empty_copy_reads_one_more :
  let s1 := matchLogsSinceLastStart openshift_sdn_node (inr [noSubnet]) quietWorld in
  let s := matchLogsSinceLastStart openshift_sdn_node
             (inr ([noSubnet] ++ [record "older"; record "oldest"])) quietWorld in
  why s1 = EndOfStream /\ matchCopy (atEnd s1) = []
  /\ Scanned 1 (record "older") ∈ trace s
  /\ unread s <> [record "older"; record "oldest"].
Proof.
  cbv zeta. split; [vm_compute; reflexivity|]. split; [vm_compute; reflexivity|].
  split; [apply list_elem_of_In; vm_compute; tauto | vm_compute; discriminate].
Qed.

(** ** Lines that do not decode *)

Lemma scanLine_Malformed unit n bytes err st :
  scanLine unit n (Malformed bytes err) st
  = if (length (matchCopy st) =? 0)%nat then
      ([Scanned n (Malformed bytes err)], Break NoMatchersLeft st)
    else
      ([Scanned n (Malformed bytes err); Unparsed n],
       Continue (mkLoop (matchCopy st) (origin st)
                  (emit (log.Debugm "sdLogBadJSON"
                           [("message", bytes); ("error", errStr err); ("tmpl", badJSONTmpl)])
                     (world st)))).
Proof. reflexivity. Qed.

Lemma scanLine_Scanned unit n l st : Scanned n l ∈ (scanLine unit n l st).1.
Proof. scan_cases; cbn [fst]; left. Qed.

(** C10.  A line that [json.Unmarshal] rejects does not end the scan and
    has no part in its findings, whatever its text, be it one the start
    pattern of the unit matches: the start pattern is not tried on it, no
    matcher is tried or fires on it, and when the loop gets to it with
    matchers left, the line leaves the working copy as it is, adds one
    Debug entry to the sink, and the loop goes on to the next line. *)
Theorem malformed_line_is_skipped (unit : unitSpec) (lines : list journalLine) (w : World)
    (n : nat) (bytes : string) (err : error) :
  lines !! n = Some (Malformed bytes err) ->
  let s := matchLogsSinceLastStart unit (inr lines) w in
  (Boundary n ∉ trace s)
  /\ (forall tag, Tested n tag ∉ trace s)
  /\ (forall tag keep, Fired n tag keep ∉ trace s)
  /\ (forall tag, Retired n tag ∉ trace s)
  /\ forall st, after unit 0 lines (entering unit w) n = Some st -> matchCopy st <> [] ->
       Unparsed n ∈ trace s
       /\ after unit 0 lines (entering unit w) (S n)
          = Some (mkLoop (matchCopy st) (origin st)
                    (emit (log.Log log.DebugLevel "sdLogBadJSON"
                             [("message", bytes); ("error", errStr err); ("tmpl", badJSONTmpl)])
                       (world st)))
       /\ forall l', lines !! S n = Some l' -> Scanned (S n) l' ∈ trace s.
Proof.
  intros Hl s. subst s.
  assert (Hkind : forall e, lineOf e = n ->
            e ∈ trace (matchLogsSinceLastStart unit (inr lines) w) ->
            e = Scanned n (Malformed bytes err) \/ e = Unparsed n).
  { intros e Hn Hin. destruct (scan_event _ _ _ _ Hin) as (st & l & _ & El & _ & He).
    rewrite Hn in *. rewrite Hl in El. inversion El; subst l.
    rewrite scanLine_Malformed in He.
    destruct (length (matchCopy st) =? 0)%nat; cbn [fst] in He.
    - apply list_elem_of_singleton in He. left. exact He.
    - apply elem_of_cons in He as [He|He]; [left; exact He|].
      apply list_elem_of_singleton in He. right. exact He. }
  repeat match goal with |- _ /\ _ => split end.
  - intros Hin. destruct (Hkind (Boundary n) eq_refl Hin); discriminate.
  - intros tag Hin. destruct (Hkind (Tested n tag) eq_refl Hin); discriminate.
  - intros tag keep Hin. destruct (Hkind (Fired n tag keep) eq_refl Hin); discriminate.
  - intros tag Hin. destruct (Hkind (Retired n tag) eq_refl Hin); discriminate.
  - intros st Ea Hne.
    assert (Hlen : (length (matchCopy st) =? 0)%nat = false).
    { apply Nat.eqb_neq. destruct (matchCopy st); [contradiction | cbn; lia]. }
    assert (En : after unit 0 lines (entering unit w) (S n)
                 = Some (mkLoop (matchCopy st) (origin st)
                           (emit (log.Log log.DebugLevel "sdLogBadJSON"
                                    [("message", bytes); ("error", errStr err); ("tmpl", badJSONTmpl)])
                              (world st)))).
    { rewrite after_S, Ea, Hl, scanLine_Malformed, Hlen. reflexivity. }
    split; [|split; [exact En|]].
    + eapply scan_event_rev; [exact Ea | exact Hl|].
      rewrite scanLine_Malformed, Hlen. cbn [fst]. right. left.
    + intros l' Hl'. eapply scan_event_rev; [exact En | exact Hl' | apply scanLine_Scanned].
Qed.

Lemma malformed_line_is_skipped_witness :
  let lines := [Malformed "Starting OpenShift SDN node" (mkError "*json.SyntaxError"
                   "invalid character 'S' looking for beginning of value");
                noSubnet] in
  let s := matchLogsSinceLastStart openshift_sdn_node (inr lines) quietWorld in
  regexp.MatchString (StartMatch openshift_sdn_node) "Starting OpenShift SDN node" = true
  /\ (Boundary 0 ∉ trace s)
  /\ Scanned 1 noSubnet ∈ trace s
  /\ map log.id (sink (final s)) = ["sdLogBadJSON"; "sdLogOSNnoSubnet"].
Proof.
  intros lines s. split; [vm_compute; reflexivity|].
  pose proof (malformed_line_is_skipped openshift_sdn_node lines quietWorld 0
                "Starting OpenShift SDN node"
                (mkError "*json.SyntaxError"
                   "invalid character 'S' looking for beginning of value") eq_refl)
    as (Hb & _ & _ & _ & Hgo).
  split; [exact Hb|]. split; [|vm_compute; reflexivity].
  destruct (Hgo (entering openshift_sdn_node quietWorld) eq_refl) as (_ & _ & Hnext).
  - vm_compute. discriminate.
  - apply Hnext. reflexivity.
Defined.

(** ** The catalog *)

(** No pattern of the catalog makes [regexp.MustCompile] panic. *)
Lemma unitLogSpecs_compile : forallb compiles unitLogSpecs = true.
Proof. vm_compute. reflexivity. Qed.

(** What a pattern finds has one element per subexpression, and one for
    the whole. *)
Lemma FindStringSubmatch_length r s strings :
  regexp.FindStringSubmatch r s = Some strings -> length strings = S (regexp.NumSubexp r).
Proof.
  unfold regexp.FindStringSubmatch.
  destruct (regexp.search _ _) as [[[from rest] cs]|]; intros E; inversion E.
  cbn. rewrite length_map, length_seq. reflexivity.
Qed.

(** ** Scenario A *)

(** C7, amended.  For the journal of scenario A the scan of docker
    reports nothing, whatever was said before: both matchers are tried on
    the first line and neither matches, as the pattern of [sdLogDfatal]
    needs text on either side of the level and the message begins with
    it; the scan stops at the second line, which matches the start
    pattern, and leaves the third in the pipe. *)
Theorem scenario_A_ends_without_a_finding (w : World) :
  let s := matchLogsSinceLastStart docker (inr dockerJournal) w in
  final s = w
  /\ trace s = [Scanned 0 (fatalLine "..."); Tested 0 0; Tested 0 1;
               Scanned 1 dockerStarting; Boundary 1]
  /\ unread s = [fatalLine ".."]
  /\ why s = StartSeen.
Proof. cbv zeta. repeat split; vm_compute; reflexivity. Qed.

(** C7, as the claim puts it, fails: the scan of scenario A leaves the
    sink empty, so there is not exactly one finding [sdLogDfatal]. *)
Lemma scenario_A_has_no_sdLogDfatal :
  let s := matchLogsSinceLastStart docker (inr dockerJournal) quietWorld in
  sink (final s) = []
  /\ length (List.filter (fun e => String.eqb (log.id e) "sdLogDfatal") (sink (final s))) <> 1.
Proof. cbv zeta. split; [vm_compute; reflexivity | vm_compute; discriminate]. Qed.

(** Apart from scenario A: the pattern of [sdLogDfatal] is a raw literal
    with doubled backslashes, so it asks for a backslash and an s on
    either side of the level.  With the backslashes single it finds
    nothing in the first message of scenario A either, where nothing
    stands before the level; it does find a fatal message of docker, with
    blanks there, which the pattern as written misses, finding only a
    message that spells out the backslashes. *)
Lemma fatal_pattern_asks_for_backslashes :
  regexp.expr (Regexp dockerFatal) = "\\slevel=" +:+ dq +:+ "fatal" +:+ dq +:+ "\\s"
  /\ regexp.MatchString fatalAsMeant <$> messageOf (fatalLine "...") = Some false
  /\ regexp.MatchString fatalAsMeant dockerFatalMessage = true
  /\ regexp.MatchString (Regexp dockerFatal) dockerFatalMessage = false
  /\ sink (final (matchLogsSinceLastStart docker
                    (inr [record dockerFatalMessage; dockerStarting]) quietWorld)) = []
  /\ map (fun e => (log.level e, log.id e))
       (sink (final (matchLogsSinceLastStart docker
                       (inr [record backslashMessage; dockerStarting]) quietWorld)))
     = [(log.ErrorLevel, "sdLogDfatal")].
Proof. repeat split; vm_compute; reflexivity. Qed.

(** ** The bad-certificate handler *)

(** C8.  Called with what its pattern found, the handler of the
    bad-certificate matcher: with the seen-set still nil, makes it the set
    of this client and emits one Warn with the full explanation; with a
    seen-set without this client, adds the client and emits one Warn with
    the short note on a different client address; with this client in the
    set, emits nothing and changes nothing; and returns true every time.
    The scanner never calls it with less than the client: the pattern has
    one subexpression.  On two lines for 10.0.0.5 and then 10.0.0.6 the
    scan of openshift-master emits the full explanation and then the short
    note, and keeps the matcher both times. *)
Theorem tls_handler_once_per_client :
  (forall (entry : logEntry) (whole client : string) (more : list string) (w : World),
     (tlsClientErrorSeen w = None ->
        tlsBadCertificate entry (whole :: client :: more) w
        = (mkWorld (env w) (Some {[ client := true ]})
             (sink w ++ [tlsEntry entry client tlsFullText]), Some true))
     /\ (forall seen, tlsClientErrorSeen w = Some seen -> default false (seen !! client) = false ->
        tlsBadCertificate entry (whole :: client :: more) w
        = (mkWorld (env w) (Some (<[ client := true ]> seen))
             (sink w ++ [tlsEntry entry client tlsAgainText]), Some true))
     /\ (forall seen, tlsClientErrorSeen w = Some seen -> default false (seen !! client) = true ->
        tlsBadCertificate entry (whole :: client :: more) w = (w, Some true)))
  /\ LogMatchers openshift_master !! 3 = Some badCertificate
  /\ Interpret badCertificate = Some tlsBadCertificate
  /\ (forall s strings,
        regexp.FindStringSubmatch (Regexp badCertificate) s = Some strings ->
        exists whole client, strings = [whole; client])
  /\ (let s := matchLogsSinceLastStart openshift_master (inr twoClients) quietWorld in
      sink (final s)
      = [tlsEntry (mkLogEntry (tlsMessage "10.0.0.5")) "10.0.0.5" tlsFullText;
         tlsEntry (mkLogEntry (tlsMessage "10.0.0.6")) "10.0.0.6" tlsAgainText]
      /\ List.filter isFired (trace s) = [Fired 0 3 (Some true); Fired 1 3 (Some true)]
      /\ tlsClientErrorSeen (final s) = Some (<[ "10.0.0.6" := true ]> {[ "10.0.0.5" := true ]})
      /\ length (matchCopy (atEnd s)) = length (LogMatchers openshift_master))
  /\ mentions "diagnosed above, but for a different client address" tlsAgainText = true
  /\ mentions "diagnosed above" tlsFullText = false.
Proof.
  split; [|split; [|split; [|split; [|split]]]].
  - intros entry whole client more w. unfold tlsBadCertificate.
    change ((whole :: client :: more) !! 1%nat) with (Some client). cbv iota beta.
    split; [|split].
    + intros ->. reflexivity.
    + intros seen -> E. cbv iota beta. rewrite E. reflexivity.
    + intros seen Es E. rewrite Es. cbv iota beta. rewrite E. reflexivity.
  - reflexivity.
  - reflexivity.
  - intros s strings E. pose proof (FindStringSubmatch_length _ _ _ E) as Hlen.
    change (regexp.NumSubexp (Regexp badCertificate)) with 1 in Hlen.
    destruct strings as [|whole [|client [|x more]]]; try discriminate.
    exists whole, client. reflexivity.
  - cbv zeta. repeat split; vm_compute; reflexivity.
  - split; vm_compute; reflexivity.
Qed.

Lemma tls_handler_once_per_client_witness :
  let entry := mkLogEntry (tlsMessage "10.0.0.5") in
  tlsBadCertificate entry [tlsMessage "10.0.0.5"; "10.0.0.5"] quietWorld
  = (mkWorld (env quietWorld) (Some {[ "10.0.0.5" := true ]})
       (sink quietWorld ++ [tlsEntry entry "10.0.0.5" tlsFullText]), Some true).
Proof.
  intros entry.
  apply (proj1 tls_handler_once_per_client entry (tlsMessage "10.0.0.5") "10.0.0.5" []
           quietWorld).
  reflexivity.
Defined.

(** ** The catalog and the working copy *)

Lemma keeps_refl D h : keeps D h h.
Proof. intros p _. reflexivity. Qed.

Lemma keeps_trans D h1 h2 h3 : keeps D h1 h2 -> keeps D h2 h3 -> keeps D h1 h3.
Proof. intros H12 H23 p Hp. rewrite (H23 p Hp). apply H12, Hp. Qed.

Lemma elems_length D st :
  ownsCopy D st -> length (Mem.elems (Mem.heap st) (Mem.matchCopy st)) = Mem.len (Mem.matchCopy st).
Proof.
  unfold ownsCopy, Mem.elems, Mem.cells.
  destruct (Mem.array (Mem.matchCopy st)) as [p|].
  - intros (_ & -> & a & -> & _ & Hlen). cbn. rewrite drop_0, length_take. lia.
  - intros ->. reflexivity.
Qed.

(** The first copy: a new array, or none for no matchers. *)
Lemma append_nil h xs w :
  let r := Mem.append h Mem.nilSlice xs in
  ownsCopy (dom h) (Mem.mkLoop r.2 r.1 w)
  /\ Mem.elems r.1 r.2 = xs
  /\ keeps (dom h) h r.1.
Proof.
  destruct xs as [|x xs]; cbn.
  - split; [reflexivity|]. split; [reflexivity | apply keeps_refl].
  - unfold ownsCopy, Mem.elems, Mem.cells. cbn.
    rewrite lookup_insert_eq. cbn. split; [|split].
    + split; [apply is_fresh|]. split; [reflexivity|].
      eexists. split; [reflexivity|]. cbn. split; [reflexivity | lia].
    + rewrite take_ge; [reflexivity | cbn; lia].
    + intros p Hp. apply lookup_insert_ne. intros <-. exact (is_fresh (dom h) Hp).
Qed.

(** Cutting the working copy in its array is cutting the list. *)
Lemma cut_in_place D mc h w w' index :
  ownsCopy D (Mem.mkLoop mc h w) -> index < Mem.len mc ->
  exists h' mc', Mem.cut h mc index = Some (h', mc')
    /\ Mem.elems h' mc' = take index (Mem.elems h mc) ++ drop (S index) (Mem.elems h mc)
    /\ ownsCopy D (Mem.mkLoop mc' h' w')
    /\ keeps D h h'.
Proof.
  unfold ownsCopy. cbn [Mem.matchCopy Mem.heap].
  destruct mc as [[p|] off n c]; cbn [Mem.array Mem.offset Mem.len Mem.cap];
    [|intros -> Hi; lia].
  intros (Hp & -> & a & Ha & -> & Hn) Hi.
  unfold Mem.cut, Mem.upTo, Mem.from. cbn [Mem.array Mem.offset Mem.len Mem.cap].
  destruct (Nat.leb_spec index (length a)) as [_|]; [|lia].
  destruct (Nat.leb_spec (S index) n) as [_|]; [|lia].
  unfold Mem.elems at 1. unfold Mem.cells. cbn [Mem.array Mem.offset Mem.len Mem.cap].
  rewrite Ha. cbn [default from_option id Nat.add].
  assert (Hpure : take index (take n a) ++ drop (S index) (take n a)
                  = take index a ++ take (n - S index) (drop (S index) a)).
  { rewrite take_take, Nat.min_l by lia. f_equal.
    rewrite take_drop_commute. f_equal. f_equal. lia. }
  assert (He : Mem.elems h (Mem.mkSlice (Some p) 0 n (length a)) = take n a).
  { unfold Mem.elems, Mem.cells. cbn. rewrite Ha. reflexivity. }
  rewrite He, Hpure.
  destruct (take (n - S index) (drop (S index) a)) as [|x xs] eqn:Exs.
  - cbn [Mem.append]. eexists _, _. split; [reflexivity|].
    unfold Mem.elems, Mem.cells. cbn. rewrite Ha. cbn.
    split; [rewrite app_nil_r; reflexivity|]. split; [|apply keeps_refl].
    split; [exact Hp|]. split; [reflexivity|].
    exists a. split; [reflexivity|]. split; [reflexivity | lia].
  - assert (Hxs : length (x :: xs) = n - S index).
    { rewrite <- Exs, length_take, length_drop. lia. }
    cbn [Mem.append Mem.len Mem.cap Mem.array Mem.offset].
    destruct (Nat.leb_spec (index + length (x :: xs)) (length a)) as [_|]; [|lia].
    unfold Mem.cells. cbn [Mem.array]. rewrite Ha. cbn [default from_option id Nat.add].
    eexists _, _. split; [reflexivity|].
    unfold Mem.elems, Mem.cells. cbn [Mem.array Mem.offset Mem.len Mem.cap].
    rewrite lookup_insert_eq. cbn [default from_option id drop].
    split; [|split].
    + rewrite drop_0, app_assoc, take_app_length'; [reflexivity|].
      rewrite length_app, length_take, Hxs. lia.
    + split; [exact Hp|]. split; [reflexivity|].
      eexists. split; [reflexivity|].
      rewrite !length_app, length_take, length_drop, Hxs. split; lia.
    + intros q Hq. apply lookup_insert_ne. intros <-. contradiction.
Qed.

Lemma fire_Name (u u' : unitSpec) entry m strings w :
  Name u = Name u' -> fire u entry m strings w = fire u' entry m strings w.
Proof. intros E. unfold fire. rewrite E. reflexivity. Qed.

(** The two loops side by side, for a unit over the store and the same
    unit with its matchers listed, and addresses [D] the scan does not
    own. *)
Section InStep.

Variable D : gset nat.
Variable u : Mem.unitSpec.
Variable U : unitSpec.
Hypothesis sameName : Name U = Mem.Name u.
Hypothesis sameStart : StartMatch U = Mem.StartMatch u.

(** One turn of the loop over the store does what one turn over the list
    does, and writes nowhere in [D]. *)
Lemma scanLine_sameNext n l st st' :
  ownsCopy D st -> inStep st st' ->
  sameNext D st (Mem.scanLine u l st) (scanLine U n l st').2.
Proof.
  intros Ho [He Hw].
  pose proof (elems_length D st Ho) as Hlen. rewrite He in Hlen.
  destruct st as [mc h w]. destruct st' as [ms o w'].
  cbn [Mem.matchCopy Mem.heap Mem.world matchCopy origin world] in *. subst w' ms.
  unfold Mem.scanLine, scanLine.
  cbn [Mem.matchCopy Mem.heap Mem.world matchCopy origin world].
  rewrite Hlen, sameStart.
  destruct (Mem.len mc =? 0)%nat; cbn [snd sameNext].
  { split; [reflexivity|]. split; [split; reflexivity | apply keeps_refl]. }
  destruct (Unmarshal l entryTemplate) as [err|entry]; cbn [snd sameNext].
  { split; [exact Ho|]. split; [split; reflexivity | apply keeps_refl]. }
  destruct (regexp.MatchString (Mem.StartMatch u) (Message entry)); cbn [snd sameNext].
  { split; [reflexivity|]. split; [split; reflexivity | apply keeps_refl]. }
  destruct (firstMatch (Message entry) (Mem.elems h mc) 0) as [[[index m] strings]|] eqn:Em;
    cbn [snd sameNext].
  2:{ split; [exact Ho|]. split; [split; reflexivity | apply keeps_refl]. }
  rewrite (fire_Name (Mem.view h u) U) by (symmetry; exact sameName).
  destruct (fire U entry m strings w) as [w1 [[|]|]]; cbn [snd sameNext].
  - split; [exact Ho|]. split; [split; reflexivity | apply keeps_refl].
  - destruct (firstMatch_spec _ _ _ _ _ _ Em) as (j & Hj & Hm & _). cbn in Hj. subst j.
    apply lookup_lt_Some in Hm. rewrite Hlen in Hm.
    destruct (cut_in_place D mc h w w1 index Ho Hm) as (h' & mc' & -> & Hcut & Ho' & Hk).
    cbn [sameNext]. split; [exact Ho'|]. split; [split; [exact Hcut | reflexivity] | exact Hk].
  - split; [reflexivity|]. split; [split; reflexivity | apply keeps_refl].
Qed.

Lemma scanLoop_sameEnd lines : forall n st st',
  ownsCopy D st -> inStep st st' ->
  exists st1, Mem.scanLoop u lines st = Some (st1, why (scanLoop U n lines st'))
    /\ inStep st1 (atEnd (scanLoop U n lines st'))
    /\ keeps D (Mem.heap st) (Mem.heap st1).
Proof.
  induction lines as [|l rest IH]; intros n st st' Ho Hi; cbn [Mem.scanLoop scanLoop].
  - exists st. cbn. split; [reflexivity|]. split; [exact Hi | apply keeps_refl].
  - pose proof (scanLine_sameNext n l st st' Ho Hi) as Hs.
    destruct (Mem.scanLine u l st) as [[st1|r st1]|];
      destruct (scanLine U n l st') as [evs [st1'|r' st1']]; cbn [snd sameNext] in Hs;
      try contradiction.
    + destruct Hs as (Ho1 & Hi1 & Hk).
      destruct (IH (S n) st1 st1' Ho1 Hi1) as (st2 & E & Hi2 & Hk2).
      exists st2. cbn. split; [exact E|]. split; [exact Hi2|].
      eapply keeps_trans; eassumption.
    + destruct Hs as (-> & Hi1 & Hk). exists st1. cbn. repeat split; try apply Hi1. exact Hk.
Qed.

End InStep.

(** C9.  A scan works on a copy of the matchers of the unit, in an array
    of its own: whatever it retires, every array that was in the store
    before the scan is as it was after it, so every slice into one of them
    (the matchers of this unit in the catalog, those of the other units,
    another working copy) has the elements it had; and the scan over the
    store ends as the scan over lists does, in the same world and with the
    same working copy. *)
Theorem scan_leaves_the_catalog (h : Mem.store) (u : Mem.unitSpec)
    (lines : list journalLine) (w : World) :
  let s := matchLogsSinceLastStart (Mem.view h u) (inr lines) w in
  exists st,
    Mem.matchLogsSinceLastStart u lines h w = Some (st, why s)
    /\ (forall p a, h !! p = Some a -> Mem.heap st !! p = Some a)
    /\ (forall sl p, Mem.array sl = Some p -> p ∈ dom h ->
          Mem.elems (Mem.heap st) sl = Mem.elems h sl)
    /\ (forall u', (exists p, Mem.array (Mem.LogMatchers u') = Some p /\ p ∈ dom h) ->
          Mem.view (Mem.heap st) u' = Mem.view h u')
    /\ Mem.world st = final s
    /\ Mem.elems (Mem.heap st) (Mem.matchCopy st) = matchCopy (atEnd s).
Proof.
  intros s. subst s. unfold Mem.matchLogsSinceLastStart. rewrite matchLogs_scanLoop.
  pose proof (append_nil h (Mem.elems h (Mem.LogMatchers u)) w) as Hinit.
  destruct (Mem.append h Mem.nilSlice (Mem.elems h (Mem.LogMatchers u))) as [h1 mc].
  cbn [fst snd] in Hinit. destruct Hinit as (Ho & He & Hk).
  destruct (scanLoop_sameEnd (dom h) u (Mem.view h u) eq_refl eq_refl lines 0
              (Mem.mkLoop mc h1 w) (entering (Mem.view h u) w) Ho)
    as (st & E & [Hcopy Hworld] & Hk1); [split; [exact He | reflexivity]|].
  assert (Hkeep : keeps (dom h) h (Mem.heap st)) by (eapply keeps_trans; eassumption).
  assert (Hslices : forall sl p, Mem.array sl = Some p -> p ∈ dom h ->
            Mem.elems (Mem.heap st) sl = Mem.elems h sl).
  { intros sl p Hp Hin. unfold Mem.elems, Mem.cells. rewrite Hp, (Hkeep p Hin). reflexivity. }
  exists st. repeat match goal with |- _ /\ _ => split end.
  - exact E.
  - intros p a Hp. rewrite (Hkeep p); [exact Hp|]. apply elem_of_dom. eauto.
  - exact Hslices.
  - intros u' (p & Hp & Hin). unfold Mem.view. rewrite (Hslices _ p Hp Hin). reflexivity.
  - exact Hworld.
  - exact Hcopy.
Qed.

(** The image-template matcher, listed by the master and by the node: a
    scan of the master retires its copy, and the catalog still has it for
    the master and for the node, where a later scan finds it. *)
Lemma shared_matcher_survives :
  loaded.2 !! 0 = Some masterAt /\ loaded.2 !! 2 = Some nodeAt
  /\ exists st,
       Mem.matchLogsSinceLastStart masterAt [badImageLine] loaded.1 quietWorld
       = Some (st, EndOfStream)
       /\ Mem.elems (Mem.heap st) (Mem.matchCopy st) = drop 1 (LogMatchers openshift_master)
       /\ Mem.view (Mem.heap st) masterAt = openshift_master
       /\ Mem.view (Mem.heap st) nodeAt = openshift_node
       /\ option_map (fun r => map log.level (sink (Mem.world r.1)))
            (Mem.matchLogsSinceLastStart nodeAt [badImageLine] (Mem.heap st) quietWorld)
          = Some [log.InfoLevel].
Proof.
  split; [vm_compute; reflexivity|]. split; [vm_compute; reflexivity|].
  destruct (scan_leaves_the_catalog loaded.1 masterAt [badImageLine] quietWorld)
    as (st & E & _ & _ & Hviews & _ & Hcopy).
  exists st.
  assert (Hm : Mem.view loaded.1 masterAt = openshift_master) by (vm_compute; reflexivity).
  assert (Hn : Mem.view loaded.1 nodeAt = openshift_node) by (vm_compute; reflexivity).
  rewrite Hm in E, Hcopy.
  assert (Hwhy : why (matchLogsSinceLastStart openshift_master (inr [badImageLine]) quietWorld)
                 = EndOfStream) by (vm_compute; reflexivity).
  rewrite Hwhy in E.
  assert (Hvm : Mem.view (Mem.heap st) masterAt = openshift_master).
  { rewrite <- Hm. apply Hviews. exists 0. split; [reflexivity|].
    apply elem_of_dom. vm_compute. eauto. }
  assert (Hvn : Mem.view (Mem.heap st) nodeAt = openshift_node).
  { rewrite <- Hn. apply Hviews. exists 2. split; [reflexivity|].
    apply elem_of_dom. vm_compute. eauto. }
  split; [exact E|]. split; [rewrite Hcopy; vm_compute; reflexivity|].
  split; [exact Hvm|]. split; [exact Hvn|].
  destruct (scan_leaves_the_catalog (Mem.heap st) nodeAt [badImageLine] quietWorld)
    as (st2 & E2 & _ & _ & _ & Hworld & _).
  rewrite E2. cbn [option_map fst]. rewrite Hworld, Hvn. vm_compute. reflexivity.
Defined.


Lemma retired_is_not_tried_again_witness :
  let s := matchLogsSinceLastStart openshift_sdn_node
             (inr [noSubnet; noSubnet]) quietWorld in
  Retired 0 0 ∈ trace s /\ (Tested 1 0 ∉ trace s).
Proof.
  destruct (proj1 retired_is_not_tried_again openshift_sdn_node [noSubnet; noSubnet]
              quietWorld 0 0) as (Hr & _ & Hlater).
  - apply list_elem_of_In. vm_compute. tauto.
  - split; [exact Hr|]. apply (Hlater 1). lia.
Defined.

(** * Further properties *)

(** ** The body of the loop, by cases *)

Lemma scanLine_case unit n l st : lineCase unit n l st (scanLine unit n l st).
Proof.
  unfold scanLine.
  destruct (length (matchCopy st) =? 0)%nat eqn:El.
  { apply caseEmpty. apply Nat.eqb_eq in El. destruct (matchCopy st); [reflexivity | discriminate]. }
  assert (Hne : matchCopy st <> []).
  { intros E. rewrite E in El. discriminate. }
  destruct (Unmarshal l entryTemplate) as [err|entry] eqn:Eu.
  { apply (caseUnparsed unit n l st err Hne Eu). }
  destruct (regexp.MatchString (StartMatch unit) (Message entry)) eqn:Eb.
  { apply (caseBoundary unit n l st entry Hne Eu Eb). }
  destruct (firstMatch (Message entry) (matchCopy st) 0) as [[[index m] strings]|] eqn:Em.
  2:{ apply (caseNoMatch unit n l st entry Hne Eu Eb Em). }
  destruct (fire unit entry m strings (world st)) as [w' keep] eqn:Ef.
  pose proof (caseMatch unit n l st entry index m strings w' keep Hne Eu Eb Em Ef) as H.
  destruct keep as [[|]|]; exact H.
Qed.

(** ** Why a scan ends *)

Lemma last_firedEvents n l o index :
  last (firedEvents n l o index None) = Some (Fired n (nth index o 0) None).
Proof.
  unfold firedEvents. rewrite app_comm_cons. apply last_snoc.
Qed.

Ltac later_end :=
  let fin := (repeat split; try assumption;
              match goal with H : last _ = Some _ |- _ => rewrite last_app, H end;
              cbn; f_equal; f_equal; lia) in
  first
    [ solve [tauto]
    | solve [intros (He & k & l' & Hl & Hu & Hlast); split; [exact He|];
             exists (S k), l'; fin]
    | solve [intros (k & l' & tag & Hl & Hu & Hlast); exists (S k), l', tag; fin]
    | solve [intros (k & l' & Hl & Hb & Hu & Hlast); exists (S k), l'; fin] ].

Lemma scanLoop_endedFor unit lines : forall n st,
  endedFor unit n lines (scanLoop unit n lines st).
Proof.
  induction lines as [|l rest IH]; intros n st; cbn [scanLoop].
  - reflexivity.
  - destruct (scanLine_case unit n l st) as [He|err Hne Eu|entry Hne Eu Eb|entry Hne Eu Eb Em
                                            |entry index m strings w' keep Hne Eu Eb Em Ef].
    + unfold endedFor. cbn. split; [exact He|]. exists 0, l. rewrite Nat.add_0_r.
      repeat split.
    + specialize (IH (S n) (mkLoop (matchCopy st) (origin st)
                              (emit (fun sink => sink ++ [unparsedNote l err]) (world st)))).
      revert IH. unfold endedFor. cbn [why unread trace atEnd].
      destruct (why (scanLoop unit (S n) rest _)); later_end.
    + unfold endedFor. cbn. exists 0, l. rewrite Nat.add_0_r.
      repeat split. unfold atBoundary. rewrite Eu. exact Eb.
    + specialize (IH (S n) st).
      revert IH. unfold endedFor. cbn [why unread trace atEnd].
      destruct (why (scanLoop unit (S n) rest st)); later_end.
    + unfold nextAfterFire, afterFire. destruct keep as [[|]|].
      1,2: cbv beta iota zeta;
           match goal with |- context [scanLoop ?u ?n' ?r ?st'] =>
             specialize (IH n' st'); revert IH; unfold endedFor; cbn [why unread trace atEnd];
             destruct (why (scanLoop u n' r st')); later_end
           end.
      unfold endedFor. cbn. exists 0, l, (nth index (origin st) 0). rewrite Nat.add_0_r.
      repeat split. apply last_firedEvents.
Qed.

(** X2.  A scan gives the reason for its end, and the reason is true: at
    the end of the stream nothing is left in the pipe; at the start of
    the unit the last line read decodes and matches the start pattern,
    and the event on it is the last of the scan; with no matchers left
    the working copy is empty and the last line was only read; after a
    panic of a handler its firing is the last event.  What follows the
    last line read is left in the pipe. *)
Theorem scan_ends_for_its_reason (unit : unitSpec) (lines : list journalLine) (w : World) :
  endedFor unit 0 lines (matchLogsSinceLastStart unit (inr lines) w).
Proof. rewrite matchLogs_scanLoop. apply scanLoop_endedFor. Qed.

(** ** One finding per rule *)

Lemma firesTag_Tested tag n (o : list nat) : List.filter (firesTag tag) (map (Tested n) o) = [].
Proof. induction o as [|t o IH]; [reflexivity | exact IH]. Qed.

Lemma firesTag_firedEvents tag n l o index keep :
  List.filter (firesTag tag) (firedEvents n l o index keep)
  = if (nth index o 0 =? tag)%nat then [Fired n (nth index o 0) keep] else [].
Proof.
  unfold firedEvents. cbn [List.filter firesTag].
  rewrite List.filter_app, firesTag_Tested. cbn [app List.filter firesTag].
  destruct (nth index o 0 =? tag)%nat; destruct keep as [[|]|]; reflexivity.
Qed.

(** The matcher found by the inner loop, and its tag. *)
Lemma firstMatch_tag unit st message index m strings :
  wellTagged unit st ->
  firstMatch message (matchCopy st) 0 = Some (index, m, strings) ->
  exists tag, origin st !! index = Some tag /\ nth index (origin st) 0 = tag
    /\ matchCopy st !! index = Some m /\ LogMatchers unit !! tag = Some m
    /\ regexp.FindStringSubmatch (Regexp m) message = Some strings.
Proof.
  intros [_ Hf] Em.
  destruct (firstMatch_spec _ _ _ _ _ _ Em) as (j & Hj & Hm & Hfind & _). cbn in Hj. subst j.
  destruct (Forall2_lookup_r _ _ _ _ _ Hf Hm) as (tag & Ho & Hcat).
  exists tag. repeat split; try assumption. apply nth_lookup_Some, Ho.
Qed.

Lemma not_in_cut {A} (l : list A) i x : x ∉ l -> x ∉ take i l ++ drop (S i) l.
Proof.
  intros Hx Hin. apply Hx. rewrite <- delete_take_drop in Hin.
  eapply list_elem_of_delete_inv, Hin.
Qed.

Lemma wellTagged_same unit st w' :
  wellTagged unit st -> wellTagged unit (mkLoop (matchCopy st) (origin st) w').
Proof. unfold wellTagged. cbn. tauto. Qed.

Lemma scanLoop_once unit tag m lines :
  LogMatchers unit !! tag = Some m -> oneShot m ->
  forall n st, wellTagged unit st ->
    (tag ∉ origin st -> List.filter (firesTag tag) (trace (scanLoop unit n lines st)) = [])
    /\ length (List.filter (firesTag tag) (trace (scanLoop unit n lines st))) <= 1.
Proof.
  intros Hcat [Hplain Hkeep].
  induction lines as [|l rest IH]; intros n st Hw; cbn [scanLoop].
  { cbn. split; [reflexivity | lia]. }
  destruct (scanLine_case unit n l st) as [He|err Hne Eu|entry Hne Eu Eb|entry Hne Eu Eb Em
                                          |entry index m' strings w' keep Hne Eu Eb Em Ef];
    cbv beta iota zeta; cbn [trace].
  - cbn. split; [reflexivity | lia].
  - rewrite List.filter_app. cbn [List.filter firesTag app].
    match goal with |- context [scanLoop unit (S n) rest ?st'] =>
      apply (IH (S n) st'), wellTagged_same, Hw
    end.
  - cbn. split; [reflexivity | lia].
  - rewrite List.filter_app. cbn [List.filter firesTag]. rewrite firesTag_Tested.
    cbn [app]. apply IH. exact Hw.
  - destruct (firstMatch_tag _ _ _ _ _ _ Hw Em) as (t & Ho & Hnth & Hm & Hcat' & _).
    destruct (Nat.eqb_spec t tag) as [->|Hne'].
    + assert (m' = m) by congruence. subst m'.
      unfold fire in Ef. rewrite Hplain, Hkeep in Ef. inversion Ef; subst keep. clear Ef.
      unfold nextAfterFire, afterFire. cbv beta iota zeta. cbn [trace].
      rewrite List.filter_app, firesTag_firedEvents, Hnth, Nat.eqb_refl.
      assert (Hout : tag ∉ take index (origin st) ++ drop (S index) (origin st)).
      { apply cut_misses; [|exact Ho]. apply StronglySorted_lt_NoDup, Hw. }
      match goal with |- context [scanLoop unit (S n) rest ?st'] =>
        destruct (IH (S n) st') as [Hnone _]; [apply wellTagged_cut, Hw|];
        rewrite (Hnone Hout)
      end.
      cbn. split; [|lia]. intros Habs. exfalso. apply Habs.
      apply list_elem_of_lookup. eauto.
    + assert (Hevs : List.filter (firesTag tag) (firedEvents n l (origin st) index keep) = []).
      { rewrite firesTag_firedEvents, Hnth.
        destruct (Nat.eqb_spec t tag); [contradiction | reflexivity]. }
      unfold nextAfterFire, afterFire. destruct keep as [[|]|]; cbv beta iota zeta; cbn [trace].
      * rewrite List.filter_app, Hevs. cbn [app].
        match goal with |- context [scanLoop unit (S n) rest ?st'] =>
          apply (IH (S n) st'), wellTagged_same, Hw
        end.
      * rewrite List.filter_app, Hevs. cbn [app].
        match goal with |- context [scanLoop unit (S n) rest ?st'] =>
          destruct (IH (S n) st') as [Hnone Hle]; [apply wellTagged_cut, Hw|]
        end.
        split; [|exact Hle]. intros Hx. apply Hnone. cbn [origin]. apply not_in_cut, Hx.
      * rewrite Hevs. cbn. split; [reflexivity | lia].
Qed.

(** X3.  In a scan, a matcher of the unit that has no handler and whose
    [KeepAfterMatch] is false fires at most once: its finding is not
    repeated, however many lines match it. *)
Theorem one_shot_fires_once (unit : unitSpec) (lines : list journalLine) (w : World)
    (tag : nat) (m : logMatcher) :
  LogMatchers unit !! tag = Some m -> oneShot m ->
  length (List.filter (firesTag tag)
            (trace (matchLogsSinceLastStart unit (inr lines) w))) <= 1.
Proof.
  intros Hcat Hone. rewrite matchLogs_scanLoop.
  apply (scanLoop_once unit tag m lines Hcat Hone 0 (entering unit w)).
  apply wellTagged_entering.
Qed.

Lemma one_shot_fires_once_witness :
  length (List.filter (firesTag 0)
            (trace (matchLogsSinceLastStart openshift_sdn_node
                      (inr [noSubnet; noSubnet; noSubnet]) quietWorld))) <= 1.
Proof.
  apply (one_shot_fires_once openshift_sdn_node [noSubnet; noSubnet; noSubnet] quietWorld 0
           (nth 0 (LogMatchers openshift_sdn_node) badImageTemplate)).
  - reflexivity.
  - split; reflexivity.
Defined.

(** ** The findings of a plain unit *)

Lemma reportOf_Tested unit lines n (o : list nat) :
  omap (reportOf unit lines) (map (Tested n) o) = [].
Proof. induction o as [|t o IH]; [reflexivity | exact IH]. Qed.

Lemma fire_plain unit entry m strings w :
  Interpret m = None ->
  fire unit entry m strings w
  = (emit (fun sink => sink ++ [findingOf unit entry m]) w, Some (KeepAfterMatch m)).
Proof. intros H. unfold fire. rewrite H. reflexivity. Qed.

Lemma plain_in_copy unit st index m :
  plainUnit unit -> wellTagged unit st -> matchCopy st !! index = Some m -> Interpret m = None.
Proof.
  intros Hp [_ Hf] Hm.
  destruct (Forall2_lookup_r _ _ _ _ _ Hf Hm) as (tag & _ & Hcat).
  unfold plainUnit in Hp. rewrite Forall_lookup in Hp. exact (Hp _ _ Hcat).
Qed.

Lemma scanLoop_reports unit lines :
  plainUnit unit ->
  forall pre st, wellTagged unit st ->
    let s := scanLoop unit (length pre) lines st in
    sink (final s) = sink (world st) ++ omap (reportOf unit (pre ++ lines)) (trace s)
    /\ env (final s) = env (world st)
    /\ tlsClientErrorSeen (final s) = tlsClientErrorSeen (world st).
Proof.
  intros Hp. induction lines as [|l rest IH]; intros pre st Hw; cbn [scanLoop].
  { cbn. rewrite app_nil_r. repeat split. }
  assert (Hhere : (pre ++ l :: rest) !! length pre = Some l).
  { rewrite lookup_app_r, Nat.sub_diag by lia. reflexivity. }
  assert (Hnext : forall st', wellTagged unit st' ->
            let s := scanLoop unit (S (length pre)) rest st' in
            sink (final s) = sink (world st') ++ omap (reportOf unit (pre ++ l :: rest)) (trace s)
            /\ env (final s) = env (world st')
            /\ tlsClientErrorSeen (final s) = tlsClientErrorSeen (world st')).
  { intros st' Hw'. specialize (IH (pre ++ [l]) st' Hw').
    rewrite length_app, Nat.add_1_r, <- app_assoc in IH. exact IH. }
  destruct (scanLine_case unit (length pre) l st)
    as [He|err Hne Eu|entry Hne Eu Eb|entry Hne Eu Eb Em
       |entry index m strings w' keep Hne Eu Eb Em Ef];
    cbv beta iota zeta.
  - cbn. rewrite app_nil_r. repeat split.
  - match goal with |- context [scanLoop unit _ rest ?st'] =>
      destruct (Hnext st' (wellTagged_same unit st _ Hw)) as (Hs & He & Ht)
    end.
    unfold final in *. cbn [atEnd trace world] in *.
    rewrite Hs, He, Ht. cbn [app omap list_omap reportOf]. rewrite Hhere.
    destruct l as [bytes err'|bytes msg]; [|destruct msg; discriminate].
    cbn in Eu. inversion Eu; subst err'. cbn. rewrite <- app_assoc. repeat split.
  - cbn. rewrite app_nil_r. repeat split.
  - destruct (Hnext st Hw) as (Hs & He & Ht).
    unfold final in *. cbn [atEnd trace world] in *.
    rewrite Hs, He, Ht. rewrite <- app_comm_cons. cbn [omap list_omap reportOf].
    rewrite omap_app, reportOf_Tested. repeat split.
  - destruct (firstMatch_tag _ _ _ _ _ _ Hw Em) as (tag & Ho & Hnth & Hm & Hcat & _).
    rewrite (fire_plain _ _ _ _ _ (plain_in_copy _ _ _ _ Hp Hw Hm)) in Ef.
    inversion Ef; subst w' keep. clear Ef.
    assert (Hevs : omap (reportOf unit (pre ++ l :: rest))
                     (firedEvents (length pre) l (origin st) index (Some (KeepAfterMatch m)))
                   = [findingOf unit entry m]).
    { unfold firedEvents. cbn [omap list_omap reportOf].
      rewrite omap_app, reportOf_Tested. cbn [app omap list_omap reportOf].
      rewrite Hnth, Hhere, Hcat, Eu. destruct (KeepAfterMatch m); reflexivity. }
    unfold nextAfterFire, afterFire. destruct (KeepAfterMatch m); cbv beta iota zeta.
    + match goal with |- context [scanLoop unit _ rest ?st'] =>
        destruct (Hnext st' (wellTagged_same unit st _ Hw)) as (Hs & He & Ht)
      end.
      unfold final in *. cbn [atEnd trace world] in *.
      rewrite Hs, He, Ht, omap_app, Hevs. cbn. rewrite <- app_assoc. repeat split.
    + match goal with |- context [scanLoop unit _ rest ?st'] =>
        destruct (Hnext st' (wellTagged_cut unit st index _ Hw)) as (Hs & He & Ht)
      end.
      unfold final in *. cbn [atEnd trace world] in *.
      rewrite Hs, He, Ht, omap_app, Hevs. cbn. rewrite <- app_assoc. repeat split.
Qed.

(** X4.  For a unit whose matchers have no handlers, what a scan adds to
    the sink is, in order, one finding for each firing, made of the level,
    id and interpretation of the matcher that fired and the message of the
    line, and one note for each line that did not decode; the scan leaves
    the environment and the seen-set as they were. *)
Theorem plain_scan_reports_its_firings (unit : unitSpec) (lines : list journalLine) (w : World) :
  plainUnit unit ->
  let s := matchLogsSinceLastStart unit (inr lines) w in
  sink (final s) = sink w ++ omap (reportOf unit lines) (trace s)
  /\ env (final s) = env w
  /\ tlsClientErrorSeen (final s) = tlsClientErrorSeen w.
Proof.
  intros Hp. rewrite matchLogs_scanLoop.
  apply (scanLoop_reports unit lines Hp [] (entering unit w)), wellTagged_entering.
Qed.

Lemma plain_scan_reports_its_firings_witness :
  let s := matchLogsSinceLastStart docker
             (inr [record backslashMessage; dockerStarting]) quietWorld in
  sink (final s)
  = sink quietWorld ++ omap (reportOf docker [record backslashMessage; dockerStarting]) (trace s)
  /\ env (final s) = env quietWorld
  /\ tlsClientErrorSeen (final s) = tlsClientErrorSeen quietWorld.
Proof.
  apply (plain_scan_reports_its_firings docker [record backslashMessage; dockerStarting]
           quietWorld).
  repeat constructor.
Defined.

Lemma scanLoop_bound unit lines :
  Forall oneShot (LogMatchers unit) ->
  forall n st, wellTagged unit st ->
    length (List.filter isFired (trace (scanLoop unit n lines st))) <= length (matchCopy st).
Proof.
  intros Hone. induction lines as [|l rest IH]; intros n st Hw; cbn [scanLoop].
  { cbn. lia. }
  destruct (scanLine_case unit n l st)
    as [He|err Hne Eu|entry Hne Eu Eb|entry Hne Eu Eb Em
       |entry index m strings w' keep Hne Eu Eb Em Ef];
    cbv beta iota zeta; cbn [trace].
  - cbn. lia.
  - rewrite List.filter_app. cbn [List.filter isFired app].
    match goal with |- context [scanLoop unit (S n) rest ?st'] =>
      apply (IH (S n) st'), wellTagged_same, Hw
    end.
  - cbn. lia.
  - rewrite List.filter_app. cbn [List.filter isFired]. rewrite fired_Tested.
    cbn [app]. apply IH, Hw.
  - destruct (firstMatch_tag _ _ _ _ _ _ Hw Em) as (tag & Ho & Hnth & Hm & Hcat & _).
    rewrite Forall_lookup in Hone. destruct (Hone _ _ Hcat) as [Hplain Hkeep].
    rewrite (fire_plain _ _ _ _ _ Hplain), Hkeep in Ef. inversion Ef; subst w' keep. clear Ef.
    unfold nextAfterFire, afterFire. cbv beta iota zeta. cbn [trace].
    rewrite List.filter_app, fired_firedEvents. cbn [app length].
    match goal with |- context [scanLoop unit (S n) rest ?st'] =>
      pose proof (IH (S n) st' (wellTagged_cut unit st index _ Hw)) as Hle
    end.
    cbn [matchCopy] in Hle. apply lookup_lt_Some in Hm.
    rewrite length_app, length_take, length_drop in Hle. lia.
Qed.

(** X5.  For a unit whose matchers are all retired on their first match,
    a scan has no more firings than the unit has matchers, whatever the
    length of the stream. *)
Theorem one_shot_unit_is_bounded (unit : unitSpec) (lines : list journalLine) (w : World) :
  Forall oneShot (LogMatchers unit) ->
  length (List.filter isFired (trace (matchLogsSinceLastStart unit (inr lines) w)))
  <= length (LogMatchers unit).
Proof.
  intros Hone. rewrite matchLogs_scanLoop.
  apply (scanLoop_bound unit lines Hone 0 (entering unit w)), wellTagged_entering.
Qed.

Lemma one_shot_unit_is_bounded_witness :
  length (List.filter isFired
            (trace (matchLogsSinceLastStart openshift_node
                      (inr [badImageLine; badImageLine; badImageLine; badImageLine]) quietWorld)))
  <= length (LogMatchers openshift_node).
Proof.
  apply (one_shot_unit_is_bounded openshift_node
           [badImageLine; badImageLine; badImageLine; badImageLine] quietWorld).
  repeat constructor.
Defined.

(** ** Worlds along a run *)

Lemma follows_refl ids w : follows ids w w.
Proof.
  split; [reflexivity|]. split; [|tauto].
  exists []. split; [symmetry; apply app_nil_r | constructor].
Qed.

Lemma follows_trans ids w1 w2 w3 : follows ids w1 w2 -> follows ids w2 w3 -> follows ids w1 w3.
Proof.
  intros (He1 & (m1 & Hs1 & Hi1) & Hc1) (He2 & (m2 & Hs2 & Hi2) & Hc2).
  split; [congruence|]. split; [|tauto].
  exists (m1 ++ m2). split; [rewrite Hs2, Hs1, app_assoc; reflexivity|].
  apply Forall_app; split; assumption.
Qed.

Lemma follows_more ids ids' w w' : ids ⊆ ids' -> follows ids w w' -> follows ids' w w'.
Proof.
  intros Hsub (He & (more & Hs & Hi) & Hc).
  split; [exact He|]. split; [|exact Hc].
  exists more. split; [exact Hs|]. eapply Forall_impl; [exact Hi|]. intros e. apply Hsub.
Qed.

(** An entry that is not of the bad-certificate handler leaves the
    diagnosed clients as they are. *)
Lemma follows_emit ids w e :
  log.id e ∈ ids -> tlsClient e = None ->
  follows ids w (emit (fun sink => sink ++ [e]) w).
Proof.
  intros Hid Hc. split; [reflexivity|]. split.
  - exists [e]. split; [reflexivity|]. constructor; [exact Hid | constructor].
  - unfold tlsCoherent, tlsClients. cbn. rewrite omap_app. cbn. rewrite Hc, app_nil_r. tauto.
Qed.

Lemma tlsClient_tlsEntry entry client text : tlsClient (tlsEntry entry client text) = Some client.
Proof. reflexivity. Qed.

(** The bad-certificate handler, called with what its pattern found. *)
Lemma follows_tls ids entry whole client w :
  "sdLogOMreBadCert" ∈ ids ->
  exists w', tlsBadCertificate entry [whole; client] w = (w', Some true) /\ follows ids w w'.
Proof.
  intros Hid. unfold tlsBadCertificate.
  change ([whole; client] !! 1%nat) with (Some client). cbv iota beta.
  destruct (tlsClientErrorSeen w) as [seen|] eqn:Es.
  - destruct (default false (seen !! client)) eqn:Ed; cbn [negb].
    + eexists. split; [reflexivity | apply follows_refl].
    + eexists. split; [reflexivity|]. split; [reflexivity|]. split.
      * eexists. split; [reflexivity|]. constructor; [exact Hid | constructor].
      * intros [Hnd Hseen]. unfold tlsCoherent, tlsClients in *. cbn.
        rewrite omap_app. cbn [omap list_omap].
        change (log.mkEntry log.WarnLevel "sdLogOMreBadCert" _)
          with (tlsEntry entry client tlsAgainText).
        rewrite tlsClient_tlsEntry. cbn [app].
        assert (Hfresh : client ∉ omap tlsClient (sink w)).
        { intros Hin. destruct (Hseen _ Hin) as (s & Hs & Hc).
          rewrite Es in Hs. inversion Hs; subst s. rewrite Hc in Ed. discriminate. }
        split.
        -- apply NoDup_app. split; [exact Hnd|]. split; [|apply NoDup_singleton].
           intros c Hc Hc'. apply list_elem_of_singleton in Hc'. subst c. contradiction.
        -- intros c Hc. exists (<[client:=true]> seen). split; [reflexivity|].
           apply elem_of_app in Hc as [Hc|Hc].
           ++ destruct (Hseen _ Hc) as (s & Hs & Hcs). rewrite Es in Hs. inversion Hs; subst s.
              destruct (decide (client = c)) as [->|Hne];
                [apply lookup_insert_eq | rewrite lookup_insert_ne by exact Hne; exact Hcs].
           ++ apply list_elem_of_singleton in Hc. subst c. apply lookup_insert_eq.
  - eexists. split; [reflexivity|]. split; [reflexivity|]. split.
    * eexists. split; [reflexivity|]. constructor; [exact Hid | constructor].
    * intros [Hnd Hseen]. unfold tlsCoherent, tlsClients in *. cbn.
      rewrite omap_app. cbn [omap list_omap].
      change (log.mkEntry log.WarnLevel "sdLogOMreBadCert" _)
        with (tlsEntry entry client tlsFullText).
      rewrite tlsClient_tlsEntry. cbn [app].
      assert (Hnone : omap tlsClient (sink w) = []).
      { destruct (omap tlsClient (sink w)) as [|c cs] eqn:E; [reflexivity|].
        destruct (Hseen c) as (s & Hs & _); [left|]. rewrite Es in Hs. discriminate. }
      rewrite Hnone. cbn. split; [apply NoDup_singleton|].
      intros c Hc. apply list_elem_of_singleton in Hc. subst c.
      exists {[client := true]}. split; [reflexivity | apply lookup_singleton_eq].
Qed.

Lemma tlsClient_findingOf unit entry m : tlsClient (findingOf unit entry m) = None.
Proof. unfold tlsClient. cbn. destruct (String.eqb _ _); reflexivity. Qed.

Lemma tlsClient_unparsedNote l err : tlsClient (unparsedNote l err) = None.
Proof. reflexivity. Qed.

(** A matcher of the catalog that matched does not panic, and the world
    follows. *)
Lemma fire_known unit entry m strings message w :
  known m -> m ∈ LogMatchers unit ->
  regexp.FindStringSubmatch (Regexp m) message = Some strings ->
  exists w' keep, fire unit entry m strings w = (w', Some keep)
    /\ follows (scanIds unit) w w'.
Proof.
  intros [Hplain|[Htls Hsub]] Hin Hfind.
  - rewrite (fire_plain _ _ _ _ _ Hplain). eexists _, _. split; [reflexivity|].
    apply follows_emit; [|apply tlsClient_findingOf].
    cbn. right. right. apply (list_elem_of_fmap_2 Id), Hin.
  - pose proof (FindStringSubmatch_length _ _ _ Hfind) as Hlen. rewrite Hsub in Hlen.
    destruct strings as [|whole [|client [|x more]]]; try discriminate.
    destruct (follows_tls (scanIds unit) entry whole client w) as (w' & E & Hf).
    { right. left. }
    exists w', true. split; [|exact Hf]. unfold fire. rewrite Htls. exact E.
Qed.

Lemma scanLoop_follows unit lines :
  knownUnit unit ->
  forall n st, wellTagged unit st ->
    follows (scanIds unit) (world st) (final (scanLoop unit n lines st))
    /\ why (scanLoop unit n lines st) <> HandlerPanic.
Proof.
  intros Hk. induction lines as [|l rest IH]; intros n st Hw; cbn [scanLoop].
  { split; [apply follows_refl | discriminate]. }
  destruct (scanLine_case unit n l st)
    as [He|err Hne Eu|entry Hne Eu Eb|entry Hne Eu Eb Em
       |entry index m strings w' keep Hne Eu Eb Em Ef];
    cbv beta iota zeta.
  - split; [apply follows_refl | discriminate].
  - match goal with |- context [scanLoop unit (S n) rest ?st'] =>
      destruct (IH (S n) st' (wellTagged_same unit st _ Hw)) as [Hf Hp]
    end.
    split; [|exact Hp]. unfold final in *. cbn [atEnd world] in *.
    eapply follows_trans; [|exact Hf].
    apply follows_emit; [left | apply tlsClient_unparsedNote].
  - split; [apply follows_refl | discriminate].
  - destruct (IH (S n) st Hw) as [Hf Hp]. split; [exact Hf | exact Hp].
  - destruct (firstMatch_tag _ _ _ _ _ _ Hw Em) as (tag & Ho & Hnth & Hm & Hcat & Hfind).
    assert (Hin : m ∈ LogMatchers unit) by (apply list_elem_of_lookup; eauto).
    assert (Hkm : known m).
    { unfold knownUnit in Hk. rewrite Forall_forall in Hk. apply Hk, Hin. }
    destruct (fire_known unit entry m strings (Message entry) (world st) Hkm Hin Hfind)
      as (w1 & keep1 & E1 & Hf1).
    rewrite E1 in Ef. inversion Ef; subst w' keep. clear Ef.
    unfold nextAfterFire, afterFire. destruct keep1; cbv beta iota zeta.
    + match goal with |- context [scanLoop unit (S n) rest ?st'] =>
        destruct (IH (S n) st' (wellTagged_same unit st _ Hw)) as [Hf Hp]
      end.
      split; [|exact Hp]. unfold final in *. cbn [atEnd world] in *.
      eapply follows_trans; eassumption.
    + match goal with |- context [scanLoop unit (S n) rest ?st'] =>
        destruct (IH (S n) st' (wellTagged_cut unit st index _ Hw)) as [Hf Hp]
      end.
      split; [|exact Hp]. unfold final in *. cbn [atEnd world] in *.
      eapply follows_trans; eassumption.
Qed.

Lemma scan_follows unit (journal : error + list journalLine) w :
  knownUnit unit ->
  follows ("sdLogReadErr" :: scanIds unit) w (final (matchLogsSinceLastStart unit journal w))
  /\ why (matchLogsSinceLastStart unit journal w) <> HandlerPanic.
Proof.
  intros Hk. destruct journal as [err|lines].
  - split; [|discriminate]. apply follows_emit; [left | reflexivity].
  - rewrite matchLogs_scanLoop.
    destruct (scanLoop_follows unit lines Hk 0 (entering unit w) (wellTagged_entering unit w))
      as [Hf Hp].
    split; [|exact Hp]. eapply follows_more; [|exact Hf]. intros x Hx. right. exact Hx.
Qed.

(** Every unit of the catalog is of the known kind. *)
Lemma unitLogSpecs_known : Forall knownUnit unitLogSpecs.
Proof.
  repeat first
    [ apply Forall_nil_2
    | apply Forall_cons; split
    | left; reflexivity
    | right; split; reflexivity ].
Qed.

(** ** The run over the catalog *)

Lemma analyzeUnits_step j unit units w :
  analyzeUnits j (unit :: units) w
  = if wanted (env w) unit then
      let s := matchLogsSinceLastStart unit (j (Name unit))
                 (emit (fun sink => sink ++ [announcement unit]) w) in
      match why s with
      | HandlerPanic => (final s, true)
      | _ => analyzeUnits j units (final s)
      end
    else analyzeUnits j units w.
Proof. reflexivity. Qed.

Lemma analyzeUnits_known_step j unit units w :
  knownUnit unit -> wanted (env w) unit = true ->
  exists w', analyzeUnits j (unit :: units) w = analyzeUnits j units w'
    /\ w' = final (matchLogsSinceLastStart unit (j (Name unit))
                     (emit (fun sink => sink ++ [announcement unit]) w))
    /\ follows ("sdLogReadErr" :: scanIds unit)
         (emit (fun sink => sink ++ [announcement unit]) w) w'.
Proof.
  intros Hk Hwant. rewrite analyzeUnits_step, Hwant. cbv zeta.
  destruct (scan_follows unit (j (Name unit))
              (emit (fun sink => sink ++ [announcement unit]) w) Hk) as [Hf Hp].
  eexists. split; [|split; [reflexivity | exact Hf]].
  destruct (why _); try reflexivity. contradiction.
Qed.

Lemma runIds_cons_l unit units : ("sdLogReadErr" :: scanIds unit) ⊆ runIds (unit :: units).
Proof.
  intros x Hx. unfold runIds. cbn [map concat].
  apply elem_of_cons in Hx as [->|Hx]; [right; left|].
  right. right. apply elem_of_app. left. exact Hx.
Qed.

Lemma runIds_cons_r unit units : runIds units ⊆ runIds (unit :: units).
Proof.
  intros x Hx. unfold runIds in *. cbn [map concat].
  apply elem_of_cons in Hx as [->|Hx]; [left|].
  apply elem_of_cons in Hx as [->|Hx]; [right; left|].
  right. right. apply elem_of_app. right. exact Hx.
Qed.

Lemma analyzeUnits_follows j units :
  Forall knownUnit units ->
  forall w, follows (runIds units) w (analyzeUnits j units w).1
            /\ (analyzeUnits j units w).2 = false.
Proof.
  induction 1 as [|unit units Hk _ IH]; intros w.
  { split; [apply follows_refl | reflexivity]. }
  destruct (wanted (env w) unit) eqn:Hwant.
  - destruct (analyzeUnits_known_step j unit units w Hk Hwant) as (w' & -> & _ & Hf).
    destruct (IH w') as [Hrest Hp]. split; [|exact Hp].
    eapply follows_trans;
      [apply (follows_emit (runIds (unit :: units)) w (announcement unit));
         [cbn; left | reflexivity]|].
    eapply follows_trans.
    + eapply follows_more; [apply runIds_cons_l | exact Hf].
    + eapply follows_more; [apply runIds_cons_r | exact Hrest].
  - rewrite analyzeUnits_step, Hwant. destruct (IH w) as [Hrest Hp]. split; [|exact Hp].
    eapply follows_more; [apply runIds_cons_r | exact Hrest].
Qed.

(** X6.  No run of [AnalyzeLogs] is cut short by a panic of a handler,
    whatever the journals hold: the only handler of the catalog indexes
    what its pattern found at 1, and the pattern has one subexpression.
    The run leaves the environment as it was and only adds to the sink. *)
Theorem AnalyzeLogs_runs_to_the_end (journalctl : string -> error + list journalLine)
    (w : World) :
  (AnalyzeLogs journalctl w).2 = false
  /\ env (AnalyzeLogs journalctl w).1 = env w
  /\ exists more, sink (AnalyzeLogs journalctl w).1 = sink w ++ more.
Proof.
  destruct (analyzeUnits_follows journalctl unitLogSpecs unitLogSpecs_known w)
    as [(He & (more & Hs & _) & _) Hp].
  split; [exact Hp|]. split; [exact He|]. exists more. exact Hs.
Qed.

(** X7.  A scan of a unit of the known kind leaves the environment as it
    was, takes nothing out of the sink, and what it adds has the id of a
    matcher of the unit, of the note on a line that does not decode, of
    the bad-certificate handler, or of the failure to read the journal;
    and it does not end in a panic. *)
Theorem known_scan_only_adds (unit : unitSpec) (journal : error + list journalLine)
    (w : World) :
  knownUnit unit ->
  let s := matchLogsSinceLastStart unit journal w in
  env (final s) = env w
  /\ (exists more, sink (final s) = sink w ++ more
        /\ Forall (fun e => log.id e ∈ "sdLogReadErr" :: scanIds unit) more)
  /\ why s <> HandlerPanic.
Proof.
  intros Hk s. destruct (scan_follows unit journal w Hk) as [(He & Hs & _) Hp].
  split; [exact He|]. split; [exact Hs | exact Hp].
Qed.

Lemma known_scan_only_adds_witness :
  let s := matchLogsSinceLastStart openshift_master (inr twoClients) quietWorld in
  env (final s) = env quietWorld
  /\ (exists more, sink (final s) = sink quietWorld ++ more
        /\ Forall (fun e => log.id e ∈ "sdLogReadErr" :: scanIds openshift_master) more)
  /\ why s <> HandlerPanic.
Proof.
  apply (known_scan_only_adds openshift_master (inr twoClients) quietWorld).
  repeat first
    [ apply Forall_nil_2 | apply Forall_cons; split
    | left; reflexivity | right; split; reflexivity ].
Defined.

(** X8.  Nothing makes the bad-certificate handler diagnose a client
    twice: if the sink names every client once and the seen-set has them
    all, this is so again after a scan of a unit of the known kind, and
    after a run of [AnalyzeLogs]; the seen-set is carried from scan to
    scan. *)
Theorem tls_clients_diagnosed_once :
  (forall unit journal w,
     knownUnit unit -> tlsCoherent w ->
     tlsCoherent (final (matchLogsSinceLastStart unit journal w)))
  /\ (forall journalctl w,
     tlsCoherent w -> tlsCoherent (AnalyzeLogs journalctl w).1).
Proof.
  split.
  - intros unit journal w Hk Hc. destruct (scan_follows unit journal w Hk) as [(_ & _ & H) _].
    exact (H Hc).
  - intros j w Hc.
    destruct (analyzeUnits_follows j unitLogSpecs unitLogSpecs_known w) as [(_ & _ & H) _].
    exact (H Hc).
Qed.

Lemma tls_clients_diagnosed_once_witness :
  let w1 := final (matchLogsSinceLastStart openshift_master (inr twoClients) quietWorld) in
  let w2 := final (matchLogsSinceLastStart openshift_master (inr twoClients) w1) in
  tlsCoherent w2 /\ tlsClients (sink w2) = ["10.0.0.5"; "10.0.0.6"].
Proof.
  intros w1 w2.
  assert (Hk : knownUnit openshift_master).
  { repeat first
      [ apply Forall_nil_2 | apply Forall_cons; split
      | left; reflexivity | right; split; reflexivity ]. }
  assert (H0 : tlsCoherent quietWorld).
  { split; [constructor|]. intros c Hc. inversion Hc. }
  split; [|vm_compute; reflexivity].
  apply (proj1 tls_clients_diagnosed_once openshift_master (inr twoClients) w1 Hk).
  apply (proj1 tls_clients_diagnosed_once openshift_master (inr twoClients) quietWorld Hk H0).
Defined.

Lemma isAnnouncement_none ids (more : list log.Entry) :
  Forall (fun i => String.eqb i "sdCheckLogs" = false) ids ->
  Forall (fun e => log.id e ∈ ids) more ->
  List.filter isAnnouncement more = [].
Proof.
  intros Hids Hmore. apply filter_none. eapply Forall_impl; [exact Hmore|].
  intros e He. cbn. rewrite Forall_forall in Hids. apply Hids, He.
Qed.

Lemma analyzeUnits_announces j units :
  Forall knownUnit units -> Forall silentScan units ->
  forall w, exists more,
    sink (analyzeUnits j units w).1 = sink w ++ more
    /\ List.filter isAnnouncement more
       = map announcement (List.filter (wanted (env w)) units).
Proof.
  induction 1 as [|unit units Hk _ IH]; intros Hsil w.
  { exists []. split; [symmetry; apply app_nil_r | reflexivity]. }
  apply Forall_cons in Hsil as [Hs Hsil]. cbn [List.filter].
  destruct (wanted (env w) unit) eqn:Hwant.
  - destruct (analyzeUnits_known_step j unit units w Hk Hwant)
      as (w' & -> & _ & (He & (m1 & Hs1 & Hi1) & _)).
    destruct (IH Hsil w') as (m2 & Hs2 & Hf2).
    exists ([announcement unit] ++ m1 ++ m2). split.
    + rewrite Hs2, Hs1. cbn. rewrite <- !app_assoc. reflexivity.
    + rewrite !List.filter_app, (isAnnouncement_none _ m1 Hs Hi1), Hf2.
      cbn in He. rewrite He. reflexivity.
  - rewrite analyzeUnits_step, Hwant. exact (IH Hsil w).
Qed.

Lemma unitLogSpecs_silent : Forall silentScan unitLogSpecs.
Proof. repeat (apply Forall_cons; split; [repeat constructor|]). constructor. Qed.

(** X9.  A run of [AnalyzeLogs] announces, with one Info entry
    [sdCheckLogs] each and in the order of the catalog, the units of the
    catalog that are enabled or active in the snapshot, and no others; a
    unit that is not in the snapshot is not looked at. *)
Theorem AnalyzeLogs_announces_wanted_units (journalctl : string -> error + list journalLine)
    (w : World) :
  exists more,
    sink (AnalyzeLogs journalctl w).1 = sink w ++ more
    /\ List.filter isAnnouncement more
       = map announcement (List.filter (wanted (env w)) unitLogSpecs)
    /\ forall unit, types.SystemdUnits (env w) !! Name unit = None ->
         wanted (env w) unit = false.
Proof.
  destruct (analyzeUnits_announces journalctl unitLogSpecs unitLogSpecs_known
              unitLogSpecs_silent w) as (more & Hs & Hf).
  exists more. split; [exact Hs|]. split; [exact Hf|].
  intros unit Hnone. unfold wanted, types.unitOf. rewrite Hnone. reflexivity.
Qed.

Lemma analyzeUnits_asks_wanted j j' units :
  Forall knownUnit units ->
  forall w,
    (forall unit, unit ∈ units -> wanted (env w) unit = true -> j (Name unit) = j' (Name unit)) ->
    analyzeUnits j units w = analyzeUnits j' units w.
Proof.
  induction 1 as [|unit units Hk _ IH]; intros w Hsame; [reflexivity|].
  destruct (wanted (env w) unit) eqn:Hwant.
  - destruct (analyzeUnits_known_step j unit units w Hk Hwant) as (w1 & -> & E1 & (He & _)).
    destruct (analyzeUnits_known_step j' unit units w Hk Hwant) as (w2 & -> & E2 & _).
    rewrite <- (Hsame unit) in E2 by (try left; assumption). subst w2. rewrite <- E1.
    apply IH. intros u Hu Hw. apply Hsame; [right; exact Hu|].
    cbn in He. rewrite <- He. exact Hw.
  - rewrite !analyzeUnits_step, Hwant. apply IH.
    intros u Hu Hw. apply Hsame; [right; exact Hu | exact Hw].
Qed.

(** X10.  [AnalyzeLogs] reads the journal of a unit only if the unit is
    enabled or active in the snapshot: two sources of journals that give
    the same for those units give the same run, whatever they hold for
    the others. *)
Theorem AnalyzeLogs_reads_wanted_journals
    (journalctl journalctl' : string -> error + list journalLine) (w : World) :
  (forall unit, unit ∈ unitLogSpecs -> wanted (env w) unit = true ->
     journalctl (Name unit) = journalctl' (Name unit)) ->
  AnalyzeLogs journalctl w = AnalyzeLogs journalctl' w.
Proof. apply analyzeUnits_asks_wanted, unitLogSpecs_known. Qed.

Lemma AnalyzeLogs_reads_wanted_journals_witness :
  AnalyzeLogs (fun _ => inr dockerJournal) dockerDown
  = AnalyzeLogs (fun name => if String.eqb name "docker" then inr dockerJournal
                             else inl (mkError "*exec.Error" "not found")) dockerDown.
Proof.
  apply (AnalyzeLogs_reads_wanted_journals (fun _ => inr dockerJournal)
           (fun name => if String.eqb name "docker" then inr dockerJournal
                        else inl (mkError "*exec.Error" "not found")) dockerDown).
  intros unit Hin Hw.
  repeat (apply elem_of_cons in Hin as [->|Hin]; [first [reflexivity | discriminate]|]).
  inversion Hin.
Defined.

(** ** The whole of [UnitStatus] *)

Lemma UnitStatus_unitFindings w : sink (UnitStatus w) = unitFindings (env w) (sink w).
Proof.
  destruct w as [e seen s]. unfold unitFindings, UnitStatus. cbv zeta.
  cbn [env]. destruct (_ && _); reflexivity.
Qed.

Lemma appends_id : appends (fun s => s).
Proof. intros s. symmetry. apply app_nil_r. Qed.

Lemma appends_with (f g : list log.Entry -> list log.Entry) :
  appends g -> appends f -> appends (fun s => g (f s)).
Proof.
  intros Hg Hf s. rewrite Hg, Hf, (Hg (f [])), app_assoc. reflexivity.
Qed.

Lemma appends_requires unit requires reason f :
  appends f -> appends (fun s => unitRequiresUnit unit requires reason (f s)).
Proof.
  intros Hf. apply (appends_with f (unitRequiresUnit unit requires reason)); [|exact Hf].
  intros s. apply unitRequiresUnit_app.
Qed.

Lemma appends_Error i text f : appends f -> appends (fun s => log.Error i text (f s)).
Proof.
  intros Hf. apply (appends_with f (log.Error i text)); [|exact Hf].
  intros s. reflexivity.
Qed.

Lemma appends_sweep l f :
  appends f -> appends (fun s => foldl noticeInactive (f s) l).
Proof.
  intros Hf. apply (appends_with f (fun s => foldl noticeInactive s l)); [|exact Hf].
  intros s. apply sweep_app.
Qed.

Lemma unitFindings_appends e : appends (unitFindings e).
Proof.
  unfold unitFindings, UnitStatus. cbv zeta. cbn [env].
  destruct (_ && _); cbn [env sink emit tlsClientErrorSeen];
    apply appends_sweep;
    repeat first [apply appends_id | apply appends_Error | apply appends_requires].
Qed.

Lemma UnitStatus_in_map_order w :
  UnitStatus w = UnitStatusIn (map_to_list (types.SystemdUnits (env w))) w.
Proof. reflexivity. Qed.

Lemma dependencyChecks_checkFindings w :
  sink (dependencyChecks w) = checkFindings (env w) (sink w).
Proof.
  destruct w as [e seen s]. unfold checkFindings, dependencyChecks. cbv zeta.
  cbn [env]. destruct (_ && _); reflexivity.
Qed.

Lemma dependencyChecks_env w : env (dependencyChecks w) = env w.
Proof. unfold dependencyChecks. cbv zeta. destruct (_ && _); reflexivity. Qed.

Lemma dependencyChecks_seen w :
  tlsClientErrorSeen (dependencyChecks w) = tlsClientErrorSeen w.
Proof. unfold dependencyChecks. cbv zeta. destruct (_ && _); reflexivity. Qed.

Lemma checkFindings_appends e : appends (checkFindings e).
Proof.
  unfold checkFindings, dependencyChecks. cbv zeta. cbn [env].
  destruct (_ && _); cbn [env sink emit tlsClientErrorSeen];
    repeat first [apply appends_id | apply appends_Error | apply appends_requires].
Qed.

Lemma UnitStatusIn_emitted visit w :
  emitted w (UnitStatusIn visit w)
  = checkFindings (env w) [] ++ foldl noticeInactive [] visit.
Proof.
  unfold emitted, UnitStatusIn, emit. cbn [sink].
  rewrite sweep_app, dependencyChecks_checkFindings, checkFindings_appends, <- app_assoc.
  apply drop_app_length.
Qed.

Lemma sweep_bind (l : list (string * types.SystemdUnit)) :
  foldl noticeInactive [] l = l ≫= (fun kv => noticeInactive [] kv).
Proof.
  induction l as [|kv l IH]; [reflexivity|].
  cbn [foldl]. rewrite sweep_app, IH. reflexivity.
Qed.

Lemma sweep_Permutation (l l' : list (string * types.SystemdUnit)) :
  l ≡ₚ l' -> foldl noticeInactive [] l ≡ₚ foldl noticeInactive [] l'.
Proof. intros H. rewrite !sweep_bind, H. reflexivity. Qed.

(** X11.  What [UnitStatus] reports is a matter of the snapshot alone, up
    to the order in which [range] visits it.  Whatever that order, a run
    leaves the environment and the seen-set untouched and adds to the
    sink the findings of the dependency checks, the same for any sink and
    in the same order, and then the findings of the sweep; a second run,
    or a run on another world with the same snapshot, adds the same
    findings of the checks and the same findings of the sweep, these
    possibly in another order.  [UnitStatus] is the run in the order of
    [map_to_list]. *)
Theorem UnitStatus_reports_the_snapshot (w w' : World)
    (visit visit' : list (string * types.SystemdUnit)) :
  env w' = env w ->
  visit ≡ₚ map_to_list (types.SystemdUnits (env w)) ->
  visit' ≡ₚ map_to_list (types.SystemdUnits (env w)) ->
  exists checks,
    emitted w (UnitStatusIn visit w) = checks ++ foldl noticeInactive [] visit
    /\ emitted w' (UnitStatusIn visit' w') = checks ++ foldl noticeInactive [] visit'
    /\ emitted (UnitStatusIn visit w) (UnitStatusIn visit' (UnitStatusIn visit w))
       = checks ++ foldl noticeInactive [] visit'
    /\ foldl noticeInactive [] visit' ≡ₚ foldl noticeInactive [] visit
    /\ sink (UnitStatusIn visit w) = sink w ++ emitted w (UnitStatusIn visit w)
    /\ env (UnitStatusIn visit w) = env w
    /\ tlsClientErrorSeen (UnitStatusIn visit w) = tlsClientErrorSeen w
    /\ UnitStatus w = UnitStatusIn (map_to_list (types.SystemdUnits (env w))) w.
Proof.
  intros He Hv Hv'. exists (checkFindings (env w) []).
  assert (Henv : env (UnitStatusIn visit w) = env w) by apply dependencyChecks_env.
  repeat match goal with |- _ /\ _ => split end.
  - apply UnitStatusIn_emitted.
  - rewrite UnitStatusIn_emitted, He. reflexivity.
  - rewrite UnitStatusIn_emitted, Henv. reflexivity.
  - apply sweep_Permutation. rewrite Hv, Hv'. reflexivity.
  - rewrite UnitStatusIn_emitted. unfold UnitStatusIn, emit. cbn [sink].
    rewrite sweep_app, dependencyChecks_checkFindings, checkFindings_appends, <- app_assoc.
    reflexivity.
  - exact Henv.
  - apply dependencyChecks_seen.
  - apply UnitStatus_in_map_order.
Qed.

Lemma UnitStatus_reports_the_snapshot_witness :
  let docker := ("docker", types.mkUnit "docker" true true false) in
  let ovs := ("openvswitch", types.mkUnit "openvswitch" true true false) in
  exists checks,
    emitted twoDown (UnitStatusIn [docker; ovs] twoDown)
    = checks ++ foldl noticeInactive [] [docker; ovs]
    /\ emitted twoDown (UnitStatusIn [ovs; docker] twoDown)
       = checks ++ foldl noticeInactive [] [ovs; docker]
    /\ emitted (UnitStatusIn [docker; ovs] twoDown)
         (UnitStatusIn [ovs; docker] (UnitStatusIn [docker; ovs] twoDown))
       = checks ++ foldl noticeInactive [] [ovs; docker]
    /\ foldl noticeInactive [] [ovs; docker] ≡ₚ foldl noticeInactive [] [docker; ovs]
    /\ sink (UnitStatusIn [docker; ovs] twoDown)
       = sink twoDown ++ emitted twoDown (UnitStatusIn [docker; ovs] twoDown)
    /\ env (UnitStatusIn [docker; ovs] twoDown) = env twoDown
    /\ tlsClientErrorSeen (UnitStatusIn [docker; ovs] twoDown) = tlsClientErrorSeen twoDown
    /\ UnitStatus twoDown
       = UnitStatusIn (map_to_list (types.SystemdUnits (env twoDown))) twoDown.
Proof.
  cbv zeta.
  apply (UnitStatus_reports_the_snapshot twoDown twoDown);
    [ reflexivity
    | vm_compute; first [reflexivity | apply perm_swap]
    | vm_compute; first [reflexivity | apply perm_swap] ].
Defined.

Lemma idle_unitOf units name :
  idle units ->
  types.Enabled (types.unitOf units name) = false
  /\ types.Active (types.unitOf units name) = false.
Proof.
  intros Hi. unfold types.unitOf. destruct (units !! name) as [unit|] eqn:E.
  - apply (Hi name unit E).
  - split; reflexivity.
Qed.

Lemma unitRequiresUnit_idle unit requires reason s :
  types.Enabled unit = false -> types.Active unit = false ->
  unitRequiresUnit unit requires reason s = s.
Proof. intros He Ha. unfold unitRequiresUnit. rewrite He, Ha. reflexivity. Qed.

Lemma sweep_idle l s :
  Forall (fun kv : string * types.SystemdUnit => types.Enabled kv.2 = false) l ->
  foldl noticeInactive s l = s.
Proof.
  intros Hl. revert s. induction Hl as [|kv l Hkv _ IH]; intros s; [reflexivity|].
  cbn [foldl]. unfold noticeInactive at 2. rewrite Hkv. apply IH.
Qed.

(** X12.  On a host where no unit is enabled or running, [UnitStatus]
    has nothing to say: a unit that is missing from the snapshot reads as
    the zero unit, every dependency check needs its unit enabled or
    active, and the sweep needs an enabled unit. *)
Theorem UnitStatus_idle_host_is_silent (w : World) :
  idle (types.SystemdUnits (env w)) ->
  UnitStatus w = w.
Proof.
  intros Hi. destruct w as [e seen s]. cbn [env] in Hi.
  unfold UnitStatus. cbv zeta. cbn [env].
  destruct (idle_unitOf _ "openshift-sdn-node" Hi) as [_ Hsn]. rewrite Hsn.
  cbn [andb]. unfold emit. cbn [env sink tlsClientErrorSeen]. f_equal.
  rewrite sweep_idle.
  - repeat (rewrite unitRequiresUnit_idle; [|apply idle_unitOf, Hi..]). reflexivity.
  - apply list.Forall_forall. intros [name unit] Hin. cbn.
    apply elem_of_map_to_list in Hin. apply (Hi name unit Hin).
Qed.

Lemma UnitStatus_idle_host_is_silent_witness :
  idle (types.SystemdUnits (env installedOnly))
  /\ UnitStatus installedOnly = installedOnly.
Proof.
  assert (Hi : idle (types.SystemdUnits (env installedOnly))).
  { apply (bool_decide_unpack _). vm_compute. exact I. }
  split; [exact Hi|]. apply (UnitStatus_idle_host_is_silent installedOnly Hi).
Defined.

Lemma adds_id P : adds 0 P (fun s => s).
Proof. intros s. exists []. rewrite app_nil_r. repeat split; [constructor | reflexivity]. Qed.

Lemma adds_requires n unit requires reason f :
  adds n dependencyFinding f ->
  adds (S n) dependencyFinding (fun s => unitRequiresUnit unit requires reason (f s)).
Proof.
  intros Hf s. destruct (Hf s) as (t & -> & Ht & Hn).
  exists (t ++ unitRequiresUnit unit requires reason []).
  rewrite unitRequiresUnit_app, app_assoc. split; [reflexivity|].
  unfold unitRequiresUnit.
  repeat match goal with |- context [if ?b then _ else _] => destruct b end;
    cbn [log.Errorm log.Warnm log.Log app];
    (split; [apply Forall_app; split; [exact Ht|]
            | rewrite length_app; cbn [List.length]; lia]);
    try (apply Forall_nil; exact I);
    apply Forall_singleton; unfold dependencyFinding; cbn [log.id]; set_solver.
Qed.

Lemma sweep_inactive l : Forall inactiveFinding (foldl noticeInactive [] l).
Proof.
  induction l as [|kv l IH]; [constructor|].
  cbn [foldl]. rewrite sweep_app. apply Forall_app. split; [|exact IH].
  unfold noticeInactive. destruct (_ && _); [|constructor].
  apply Forall_singleton. split; reflexivity.
Qed.

(** X13.  [UnitStatus] reports in three parts, in this order: at most
    eight dependency findings, one for each call of [unitRequiresUnit];
    then the finding that openshift-sdn-node runs without openshift-node,
    once when that is so and never otherwise; then the sweep, one Error
    [sdUnitInactive] for each unit it finds enabled and not running. *)
Theorem UnitStatus_reports_in_three_parts (w : World) :
  exists reqs,
    emitted w (UnitStatus w)
    = reqs
      ++ (if types.Active (types.unitOf (types.SystemdUnits (env w)) "openshift-sdn-node")
             && negb (types.Active (types.unitOf (types.SystemdUnits (env w)) "openshift-node"))
          then [sdnNeedsNodeEntry] else [])
      ++ foldl noticeInactive [] (map_to_list (types.SystemdUnits (env w)))
    /\ Forall dependencyFinding reqs
    /\ (length reqs <= 8)%nat
    /\ Forall inactiveFinding
         (foldl noticeInactive [] (map_to_list (types.SystemdUnits (env w)))).
Proof.
  set (u := types.unitOf (types.SystemdUnits (env w))).
  assert (Hem : emitted w (UnitStatus w) = unitFindings (env w) []).
  { unfold emitted. rewrite UnitStatus_unitFindings, unitFindings_appends.
    apply drop_app_length. }
  rewrite Hem. unfold unitFindings, UnitStatus. cbv zeta. cbn [env].
  fold u.
  destruct (types.Active (u "openshift-sdn-node") && negb (types.Active (u "openshift-node")));
    cbn [env sink emit tlsClientErrorSeen]; rewrite sweep_app;
    match goal with
    | |- context [?r ++ foldl noticeInactive [] ?l] =>
        pose proof (sweep_inactive l) as Hsweep;
        match r with
        | context [unitRequiresUnit ?a ?b ?c ?r'] =>
            let g := eval pattern (@nil log.Entry) in (unitRequiresUnit a b c r') in
            match g with
            | ?f _ =>
                assert (Hadds : adds 8 dependencyFinding f)
                  by (repeat first [apply adds_id | apply adds_requires])
            end
        end
    end;
    destruct (Hadds []) as (t & Ht & HF & Hn); cbv beta in Ht; rewrite Ht;
    exists t; cbn [app]; repeat split; try assumption.
  unfold log.Error, log.Log. rewrite <- app_assoc. reflexivity.
Qed.

(** ** The printing logger *)

Lemma console_do_louder c st st' :
  (log.Rank (console.current st) <= log.Rank (console.current st'))%Z ->
  console.stdout st `sublist_of` console.stdout st' ->
  (log.Rank (console.current (console.do c st))
   <= log.Rank (console.current (console.do c st')))%Z
  /\ console.stdout (console.do c st) `sublist_of` console.stdout (console.do c st').
Proof.
  intros Hr Hs.
  destruct c; cbn [console.do];
    unfold console.SetLevel, console.Error, console.Warn, console.Info, console.Debug,
      console.log;
    cbn [console.current console.stdout];
    try (split; [lia | exact Hs]);
    repeat match goal with
    | |- context [(?a <=? ?b)%Z] => destruct (Z.leb_spec a b)
    end;
    cbn [console.current console.stdout];
    (split; [exact Hr|]);
    try exact Hs;
    try (apply sublist_app; [exact Hs | reflexivity]);
    try (apply sublist_inserts_r; exact Hs);
    lia.
Qed.

(** X14.  Turning the level up never loses a line: of two runs of the
    same calls, the one that starts at the higher level prints every
    line the other prints, in the same order, and possibly more between
    them.  The calls may set the level themselves. *)
Theorem louder_prints_more (calls : list console.call) (st st' : console.state) :
  (log.Rank (console.current st) <= log.Rank (console.current st'))%Z ->
  console.stdout st `sublist_of` console.stdout st' ->
  console.stdout (console.run calls st) `sublist_of` console.stdout (console.run calls st').
Proof.
  revert st st'. induction calls as [|c calls IH]; intros st st' Hr Hs; [exact Hs|].
  cbn [console.run foldl]. destruct (console_do_louder c st st' Hr Hs) as [Hr' Hs'].
  apply (IH _ _ Hr' Hs').
Qed.

Lemma louder_prints_more_witness :
  console.stdout
    (console.run [console.callDebug "a"; console.callError "b"] console.initial)
  `sublist_of`
  console.stdout
    (console.run [console.callDebug "a"; console.callError "b"]
       (console.SetLevel log.DebugLevel console.initial)).
Proof.
  apply louder_prints_more; [cbn; lia | reflexivity].
Defined.

(** X15.  [SetLevel] takes any level, not only the four that are
    declared, and [log] compares numbers: under a level below
    [ErrorLevel] nothing is printed, errors included, until the level is
    set again; under a level of [DebugLevel] or above every message call
    prints its line. *)
Theorem level_bounds_the_output (calls : list console.call) (st : console.state) :
  Forall (fun c => console.isSetLevel c = false) calls ->
  ((log.Rank (console.current st) < 0)%Z ->
     console.run calls st = st)
  /\ ((3 <= log.Rank (console.current st))%Z ->
     console.stdout (console.run calls st)
     = console.stdout st ++ omap console.lineOfCall calls).
Proof.
  intros Hc. revert st. induction Hc as [|c calls Hset _ IH]; intros st.
  - split; intros _; [reflexivity | symmetry; apply app_nil_r].
  - cbn [console.run foldl]. fold (console.run calls (console.do c st)).
    destruct c; try discriminate Hset;
      cbn [console.do omap list_omap console.lineOfCall];
      unfold console.Error, console.Warn, console.Info, console.Debug, console.log;
      cbn [log.Rank log.ErrorLevel log.WarnLevel log.InfoLevel log.DebugLevel log.Prefix];
      (split; intros Hr;
       [ destruct (Z.leb_spec 0 (log.Rank (console.current st))) as [|_];
         try lia;
         repeat match goal with
         | |- context [(?a <=? ?b)%Z] => destruct (Z.leb_spec a b); try lia
         end;
         apply (IH st); exact Hr
       | repeat match goal with
         | |- context [(?a <=? ?b)%Z] => destruct (Z.leb_spec a b); try lia
         end;
         match goal with
         | |- context [console.run calls ?s] =>
             rewrite (proj2 (IH s)) by exact Hr
         end;
         cbn [console.stdout]; rewrite <- app_assoc; reflexivity ]).
Qed.

Lemma level_bounds_the_output_witness :
  console.run [console.callError "disk full"; console.callDebug "x"]
    (console.SetLevel (log.mkLevel (-1) "off") console.initial)
  = console.SetLevel (log.mkLevel (-1) "off") console.initial.
Proof.
  apply level_bounds_the_output; [repeat constructor | cbn; lia].
Defined.

(** ** Patterns with doubled backslashes *)

Lemma is_char_eq c d : regexp.is_char c d = true -> c = d.
Proof.
  unfold regexp.is_char, regexp.code. intros H. apply N.eqb_eq in H.
  rewrite <- (ascii_N_embedding c), <- (ascii_N_embedding d), H. reflexivity.
Qed.

Lemma star_consumes {R : Type} (body : list ascii -> regexp.caps -> regexp.cont R -> option R) :
  (forall s cs k x, body s cs k = Some x ->
     exists pre s' cs', s = pre ++ s' /\ k s' cs' = Some x) ->
  forall n s cs k x, regexp.star body n s cs k = Some x ->
    exists pre s' cs', s = pre ++ s' /\ k s' cs' = Some x.
Proof.
  intros Hb. induction n as [|n IH]; intros s cs k x H; cbn [regexp.star] in H.
  - exists [], s, cs. split; [reflexivity | exact H].
  - destruct (body s cs _) as [y|] eqn:E.
    + injection H as ->. apply Hb in E as (pre & s' & cs' & -> & Hk).
      destruct (_ <? _)%nat; [|discriminate Hk].
      apply IH in Hk as (pre' & s'' & cs'' & -> & Hk).
      exists (pre ++ pre'), s'', cs''. rewrite <- app_assoc. split; [reflexivity | exact Hk].
    + exists [], s, cs. split; [reflexivity | exact H].
Qed.

Lemma one_consumes {R : Type} (p : ascii -> bool) s cs (k : regexp.cont R) x :
  regexp.one p s cs k = Some x ->
  exists ch s', s = ch :: s' /\ p ch = true /\ k s' cs = Some x.
Proof.
  unfold regexp.one. destruct s as [|ch s']; [discriminate|].
  destruct (p ch) eqn:E; [|discriminate]. intros H. exists ch, s'. repeat split; assumption.
Qed.

Lemma matchHere_needs {R : Type} (c : ascii) (r : regexp.re) :
  forall s cs (k : regexp.cont R) x,
    regexp.matchHere r s cs k = Some x ->
    exists pre s' cs', s = pre ++ s' /\ k s' cs' = Some x
      /\ (needs c r = true -> c ∈ pre).
Proof.
  induction r as [|d| |p|neg items|r1 IH1 r2 IH2|r1 IH1 r2 IH2|r1 IH1|r1 IH1|r1 IH1|i r1 IH1];
    intros s cs k x H; cbn [regexp.matchHere] in H; cbn [needs].
  - exists [], s, cs. repeat split; [exact H | discriminate].
  - apply one_consumes in H as (ch & s' & -> & Hp & Hk).
    exists [ch], s', cs. repeat split; [exact Hk|].
    intros Hc. apply is_char_eq in Hp, Hc. subst. apply list_elem_of_here.
  - apply one_consumes in H as (ch & s' & -> & Hp & Hk).
    exists [ch], s', cs. repeat split; [exact Hk | discriminate].
  - apply one_consumes in H as (ch & s' & -> & Hp & Hk).
    exists [ch], s', cs. repeat split; [exact Hk | discriminate].
  - apply one_consumes in H as (ch & s' & -> & Hp & Hk).
    exists [ch], s', cs. repeat split; [exact Hk | discriminate].
  - apply IH1 in H as (pre1 & s1 & cs1 & -> & Hk & Hn1).
    apply IH2 in Hk as (pre2 & s2 & cs2 & -> & Hk & Hn2).
    exists (pre1 ++ pre2), s2, cs2. rewrite <- app_assoc. repeat split; [exact Hk|].
    intros Hc. apply orb_true_iff in Hc. apply elem_of_app.
    destruct Hc as [Hc|Hc]; [left; apply Hn1, Hc | right; apply Hn2, Hc].
  - destruct (regexp.matchHere r1 s cs k) as [y|] eqn:E.
    + injection H as ->. apply IH1 in E as (pre & s' & cs' & -> & Hk & Hn).
      exists pre, s', cs'. repeat split; [exact Hk|].
      intros Hc. apply andb_true_iff in Hc. apply Hn, Hc.
    + apply IH2 in H as (pre & s' & cs' & -> & Hk & Hn).
      exists pre, s', cs'. repeat split; [exact Hk|].
      intros Hc. apply andb_true_iff in Hc. apply Hn, Hc.
  - apply star_consumes in H as (pre & s' & cs' & -> & Hk).
    + exists pre, s', cs'. repeat split; [exact Hk | discriminate].
    + intros s0 cs0 k0 x0 H0. apply IH1 in H0 as (pre & s' & cs' & -> & Hk & _).
      exists pre, s', cs'. split; [reflexivity | exact Hk].
  - apply IH1 in H as (pre1 & s1 & cs1 & -> & Hk & Hn1).
    apply star_consumes in Hk as (pre2 & s2 & cs2 & -> & Hk).
    + exists (pre1 ++ pre2), s2, cs2. rewrite <- app_assoc. repeat split; [exact Hk|].
      intros Hc. apply elem_of_app. left. apply Hn1, Hc.
    + intros s0 cs0 k0 x0 H0. apply IH1 in H0 as (pre & s' & cs' & -> & Hk' & _).
      exists pre, s', cs'. split; [reflexivity | exact Hk'].
  - destruct (regexp.matchHere r1 s cs k) as [y|] eqn:E.
    + injection H as ->. apply IH1 in E as (pre & s' & cs' & -> & Hk & _).
      exists pre, s', cs'. repeat split; [exact Hk | discriminate].
    + exists [], s, cs. repeat split; [exact H | discriminate].
  - apply IH1 in H as (pre & s' & cs' & -> & Hk & Hn).
    exists pre, s', ((i, take (length (pre ++ s') - length s') (pre ++ s')) :: cs').
    repeat split; [exact Hk | exact Hn].
Qed.

Lemma search_needs c r s found :
  regexp.search r s = Some found -> needs c r = true -> c ∈ s.
Proof.
  intros H Hc. induction s as [|ch s IH]; cbn [regexp.search] in H.
  - destruct (regexp.matchHere r [] [] _) as [[s' cs]|] eqn:E; [|discriminate].
    apply (matchHere_needs c) in E as (pre & s'' & cs'' & Hs & _ & Hn).
    rewrite Hs. apply elem_of_app. left. apply Hn, Hc.
  - destruct (regexp.matchHere r (ch :: s) [] _) as [[s' cs]|] eqn:E.
    + apply (matchHere_needs c) in E as (pre & s'' & cs'' & Hs & _ & Hn).
      rewrite Hs. apply elem_of_app. left. apply Hn, Hc.
    + apply list_elem_of_further, IH, H.
Qed.

Lemma FindStringSubmatch_needs c r message strings :
  regexp.FindStringSubmatch r message = Some strings ->
  needs c (regexp.prog r) = true ->
  c ∈ list_ascii_of_string message.
Proof.
  unfold regexp.FindStringSubmatch. intros H Hc.
  destruct (regexp.search _ _) as [found|] eqn:E; [|discriminate].
  apply (search_needs c _ _ found E Hc).
Qed.

Lemma doubledBackslash_needs :
  Forall (fun m => needs backslash (regexp.prog (Regexp m)) = true) doubledBackslash.
Proof. repeat constructor. Qed.

(** X16.  The three patterns written as raw literals with doubled
    backslashes ask for a backslash in the message: whatever the unit and
    the journal, when one of these matchers fires on a line, the message
    of that line has a backslash in it. *)
Theorem doubled_backslash_fires_on_a_backslash (unit : unitSpec)
    (lines : list journalLine) (w : World) (n tag : nat) (keep : option bool)
    (m : logMatcher) :
  Fired n tag keep ∈ trace (matchLogsSinceLastStart unit (inr lines) w) ->
  LogMatchers unit !! tag = Some m ->
  m ∈ doubledBackslash ->
  exists l message,
    lines !! n = Some l /\ messageOf l = Some message
    /\ backslash ∈ list_ascii_of_string message.
Proof.
  intros Hf Htag Hm.
  apply fired_step in Hf
    as (st & l & entry & index & m' & strings & _ & Hl & _ & Hu & Hfm & _ & Htag' & _).
  rewrite Htag in Htag'. injection Htag' as <-.
  apply firstMatch_spec in Hfm as (j & _ & _ & Hfind & _).
  exists l, (Message entry). split; [exact Hl|]. split.
  - unfold messageOf. rewrite Hu. reflexivity.
  - apply (FindStringSubmatch_needs backslash _ _ _ Hfind).
    pose proof doubledBackslash_needs as Hall.
    rewrite list.Forall_forall in Hall. apply Hall, Hm.
Qed.

Lemma doubled_backslash_fires_on_a_backslash_witness :
  exists l message,
    [record backslashMessage; dockerStarting] !! 0%nat = Some l
    /\ messageOf l = Some message
    /\ backslash ∈ list_ascii_of_string message.
Proof.
  apply (doubled_backslash_fires_on_a_backslash docker
           [record backslashMessage; dockerStarting] quietWorld 0 1 (Some false) dockerFatal).
  - apply (list_elem_of_lookup_2 _ 3). vm_compute. reflexivity.
  - reflexivity.
  - unfold doubledBackslash. cbn. set_solver.
Defined.

(** ** What a scan reads does not depend on what was said before *)

Lemma fire_known_keep unit entry m strings w w' :
  known m -> (fire unit entry m strings w).2 = (fire unit entry m strings w').2.
Proof.
  intros [Hn|[Ht _]]; unfold fire; rewrite ?Hn, ?Ht; [reflexivity|].
  unfold tlsBadCertificate. destruct (strings !! 1%nat); [|reflexivity].
  destruct (tlsClientErrorSeen w) as [seen|], (tlsClientErrorSeen w') as [seen'|];
    repeat match goal with |- context [if ?b then _ else _] => destruct b end;
    reflexivity.
Qed.

Lemma scanLine_blind unit n l st st' :
  sameCopy st st' -> Forall known (matchCopy st) ->
  (scanLine unit n l st).1 = (scanLine unit n l st').1
  /\ sameWay (scanLine unit n l st).2 (scanLine unit n l st').2
  /\ match (scanLine unit n l st).2 with
     | Continue st1 => Forall known (matchCopy st1)
     | Break _ _ => True
     end.
Proof.
  destruct st as [ms o w], st' as [ms' o' w']. intros [Hm Ho] Hk.
  cbn [matchCopy origin] in Hm, Ho, Hk. subst ms' o'.
  unfold scanLine. cbn [matchCopy origin world].
  destruct (length ms =? 0)%nat.
  { cbn. repeat split. }
  destruct (Unmarshal l entryTemplate) as [err|entry].
  { cbn. repeat split. exact Hk. }
  destruct (regexp.MatchString (StartMatch unit) (Message entry)).
  { cbn. repeat split. }
  destruct (firstMatch (Message entry) ms 0) as [[[index m] strings]|] eqn:Em.
  2:{ cbn. repeat split. exact Hk. }
  assert (Hkm : known m).
  { apply firstMatch_spec in Em as (j & _ & Hj & _).
    rewrite list.Forall_forall in Hk. apply Hk. apply (list_elem_of_lookup_2 _ j), Hj. }
  pose proof (fire_known_keep unit entry m strings w w' Hkm) as Hkeep.
  destruct (fire unit entry m strings w) as [w1 keep],
           (fire unit entry m strings w') as [w1' keep'].
  cbn [snd] in Hkeep. subst keep'.
  destruct keep as [[|]|]; cbn; repeat split; try exact Hk.
  apply Forall_app. split; [apply Forall_take | apply Forall_drop]; exact Hk.
Qed.

Lemma scanLoop_blind unit lines : forall n st st',
  sameCopy st st' -> Forall known (matchCopy st) ->
  trace (scanLoop unit n lines st) = trace (scanLoop unit n lines st')
  /\ unread (scanLoop unit n lines st) = unread (scanLoop unit n lines st')
  /\ why (scanLoop unit n lines st) = why (scanLoop unit n lines st')
  /\ sameCopy (atEnd (scanLoop unit n lines st)) (atEnd (scanLoop unit n lines st')).
Proof.
  induction lines as [|l rest IH]; intros n st st' Hs Hk.
  { cbn. repeat split; apply Hs. }
  cbn [scanLoop]. destruct (scanLine_blind unit n l st st' Hs Hk) as (He & Hw & Hk').
  destruct (scanLine unit n l st) as [evs [st1|reason st1]],
           (scanLine unit n l st') as [evs' [st1'|reason' st1']];
    cbn [fst snd sameWay] in He, Hw, Hk'; subst evs'; try contradiction.
  - destruct (IH (S n) st1 st1' Hw Hk') as (Ht & Hu & Hy & Hc).
    cbn [trace unread why atEnd]. rewrite Ht. repeat split; try assumption; apply Hc.
  - destruct Hw as [-> Hw]. cbn. repeat split; apply Hw.
Qed.

(** X17.  What a scan of a unit of the known kind reads, tests and fires
    is a matter of the journal alone: started in two different worlds, on
    the same journal, it leaves the same trace, the same lines unread and
    ends for the same reason.  The seen-set of the bad-certificate
    handler changes what is reported, never what is kept. *)
Theorem known_scan_reads_the_same (unit : unitSpec)
    (journal : error + list journalLine) (w w' : World) :
  knownUnit unit ->
  trace (matchLogsSinceLastStart unit journal w)
  = trace (matchLogsSinceLastStart unit journal w')
  /\ unread (matchLogsSinceLastStart unit journal w)
     = unread (matchLogsSinceLastStart unit journal w')
  /\ why (matchLogsSinceLastStart unit journal w)
     = why (matchLogsSinceLastStart unit journal w').
Proof.
  intros Hk. destruct journal as [err|lines]; [repeat split|].
  unfold matchLogsSinceLastStart. cbv zeta.
  match goal with
  | |- context [scanLoop unit 0 lines (mkLoop ?ms ?o w)] =>
      destruct (scanLoop_blind unit lines 0 (mkLoop ms o w) (mkLoop ms o w'))
        as (Ht & Hu & Hy & _)
  end.
  - split; reflexivity.
  - exact Hk.
  - repeat split; assumption.
Qed.

Lemma known_scan_reads_the_same_witness :
  trace (matchLogsSinceLastStart openshift_master (inr twoClients) quietWorld)
  = trace (matchLogsSinceLastStart openshift_master (inr twoClients)
             (setSeen {[ "10.0.0.5" := true ]} quietWorld)).
Proof.
  apply (known_scan_reads_the_same openshift_master (inr twoClients) quietWorld
           (setSeen {[ "10.0.0.5" := true ]} quietWorld)).
  repeat first
    [ apply Forall_nil_2 | apply Forall_cons; split
    | left; reflexivity | right; split; reflexivity ].
Defined.

(** ** The condition of the diagnostics *)

(** X18.  [systemdRelevant] lets the diagnostics run exactly on a host
    with systemd and with a path to the openshift binary; it gives a
    reason exactly when it skips them; and on a host without systemd the
    reason is that one, whatever the path. *)
Theorem systemdRelevant_skips_with_a_reason (e : types.Environment) :
  ((systemdRelevant e).1 = false
   <-> types.HasSystemd e = true /\ types.OpenshiftPath e <> "")
  /\ ((systemdRelevant e).2 = "" <-> (systemdRelevant e).1 = false)
  /\ ((systemdRelevant e).2 = "systemd is not present on this host"
      <-> types.HasSystemd e = false).
Proof.
  unfold systemdRelevant.
  destruct (types.HasSystemd e); cbn [negb];
    [destruct (String.eqb_spec (types.OpenshiftPath e) "") as [E|E]|];
    cbn [fst snd]; repeat split; intros; try discriminate; try tauto;
    try (destruct H; discriminate); try (destruct H; contradiction).
Qed.
